(** * vs_export: the solution-file model of package [sln]

    A shallow embedding of [sln/sln.go]: the parser of project references,
    the parser of the configuration mappings, the two configuration queries
    and the generator of compile commands, together with the properties of
    the specification that concern them.

    Go strings are byte sequences; they are modelled by [string], whose
    characters are the 256 byte values.  The map [ProjectGUIDs] is a
    [gmap string string]; the order in which a [range] statement visits it
    is not fixed by Go and is an explicit argument of every function that
    ranges over the map. *)

From Stdlib Require Import ZArith Ascii.
From stdpp Require Import gmap strings list fin_maps.

Local Open Scope Z_scope.

(** ** Package [strings] of the Go library, as far as [sln.go] calls it *)

Module Strings.

Fixpoint length (s : string) : nat :=
  match s with
  | EmptyString => 0%nat
  | String _ s' => S (length s')
  end.

Fixpoint drop (n : nat) (s : string) : string :=
  match n, s with
  | O, _ => s
  | S _, EmptyString => EmptyString
  | S n', String _ s' => drop n' s'
  end.

Fixpoint take (n : nat) (s : string) : string :=
  match n, s with
  | O, _ => EmptyString
  | S _, EmptyString => EmptyString
  | S n', String c s' => String c (take n' s')
  end.

Fixpoint rev_append (s acc : string) : string :=
  match s with
  | EmptyString => acc
  | String c s' => rev_append s' (String c acc)
  end.

Definition rev (s : string) : string := rev_append s EmptyString.

(** [HasPrefix s p]: [s] begins with [p]. *)
Fixpoint HasPrefix (s p : string) {struct p} : bool :=
  match p, s with
  | EmptyString, _ => true
  | String _ _, EmptyString => false
  | String a p', String b s' => Ascii.eqb a b && HasPrefix s' p'
  end.

(** [HasSuffix s suffix]: [len(s) >= len(suffix)] and the tail of [s] of
    that length is [suffix]. *)
Definition HasSuffix (s suffix : string) : bool :=
  (length suffix <=? length s)%nat &&
  String.eqb (drop (length s - length suffix) s) suffix.

(** [Index s sub]: the byte offset of the first occurrence of [sub] in [s],
    or [-1]. *)
Fixpoint index_from (i : Z) (s sub : string) : Z :=
  if HasPrefix s sub then i
  else match s with
       | EmptyString => -1
       | String _ s' => index_from (i + 1) s' sub
       end.

Definition Index (s sub : string) : Z := index_from 0 s sub.

Definition Contains (s sub : string) : bool := 0 <=? Index s sub.

(** [Replace s old new n]: the first [n] non-overlapping occurrences of
    [old], from the left, replaced by [new]; all of them when [n < 0].
    [skip] counts the bytes of an occurrence that are still to be passed
    over.  Both calls in [sln.go] have a non-empty [old] and [n = -1]; the
    rune-wise insertion Go performs for an empty [old] is not modelled. *)
Fixpoint replace_from (skip : nat) (s old new : string) (n : Z) : string :=
  match s with
  | EmptyString => EmptyString
  | String c s' =>
      match skip with
      | S k => replace_from k s' old new n
      | O => if HasPrefix s old && negb (n =? 0)
             then new +:+ replace_from (length old - 1) s' old new (n - 1)
             else String c (replace_from 0 s' old new n)
      end
  end.

Definition Replace (s old new : string) (n : Z) : string :=
  replace_from 0 s old new n.

(** [Split s sep] for a non-empty [sep]: the pieces of [s] between the
    occurrences of [sep]; one more piece than there are occurrences, so
    [Split "" sep] is [[""]].  [cur] is the piece being read, reversed. *)
Fixpoint split_from (skip : nat) (cur s sep : string) : list string :=
  match s with
  | EmptyString => [rev cur]
  | String c s' =>
      match skip with
      | S k => split_from k cur s' sep
      | O => if HasPrefix s sep
             then rev cur :: split_from (length sep - 1) EmptyString s' sep
             else split_from 0 (String c cur) s' sep
      end
  end.

Definition Split (s sep : string) : list string :=
  split_from 0 EmptyString s sep.

(** White space in the sense of [unicode.IsSpace], on the UTF-8 encoding:
    the six ASCII characters, U+0085, U+00A0, U+1680, U+2000..U+200A,
    U+2028, U+2029, U+202F, U+205F and U+3000. *)
Definition space_width (s : string) : nat :=
  match s with
  | String a r1 =>
      let x := nat_of_ascii a in
      if ((9 <=? x) && (x <=? 13) || (x =? 32))%nat then 1%nat
      else match r1 with
      | String b r2 =>
          let y := nat_of_ascii b in
          if ((x =? 194) && ((y =? 133) || (y =? 160)))%nat then 2%nat
          else match r2 with
          | String c _ =>
              let z := nat_of_ascii c in
              if ((x =? 225) && (y =? 154) && (z =? 128))%nat then 3%nat
              else if ((x =? 226) && (y =? 128) &&
                       ((128 <=? z) && (z <=? 138) || (z =? 168) ||
                        (z =? 169) || (z =? 175)))%nat then 3%nat
              else if ((x =? 226) && (y =? 129) && (z =? 159))%nat then 3%nat
              else if ((x =? 227) && (y =? 128) && (z =? 128))%nat then 3%nat
              else 0%nat
          | EmptyString => 0%nat
          end
      | EmptyString => 0%nat
      end
  | EmptyString => 0%nat
  end.

(** The same test at the end of a string, given the string reversed. *)
Definition space_width_rev (r : string) : nat :=
  match r with
  | String a (String b (String c _)) =>
      let w1 := space_width (String a EmptyString) in
      let w2 := space_width (String b (String a EmptyString)) in
      let w3 := space_width (String c (String b (String a EmptyString))) in
      if (w1 =? 1)%nat then 1%nat else if (w2 =? 2)%nat then 2%nat
      else if (w3 =? 3)%nat then 3%nat else 0%nat
  | String a (String b EmptyString) =>
      let w1 := space_width (String a EmptyString) in
      let w2 := space_width (String b (String a EmptyString)) in
      if (w1 =? 1)%nat then 1%nat else if (w2 =? 2)%nat then 2%nat else 0%nat
  | String a EmptyString => space_width (String a EmptyString)
  | EmptyString => 0%nat
  end.

Fixpoint trim_with (width : string -> nat) (skip : nat) (s : string)
  : string :=
  match s with
  | EmptyString => EmptyString
  | String _ s' =>
      match skip with
      | S k => trim_with width k s'
      | O => match width s with
             | O => s
             | S k => trim_with width k s'
             end
      end
  end.

Definition TrimSpace (s : string) : string :=
  rev (trim_with space_width_rev 0 (rev (trim_with space_width 0 s))).

End Strings.

(** ** Package [regexp] of the Go library, for the two patterns of [sln.go]

    Go's matcher returns, at the leftmost position where the pattern matches,
    the match a backtracking search finds first.  [run] is that search,
    written with a continuation: alternatives are tried left to right, a
    greedy repetition tries the longer match first and a lazy one the shorter.
    Repetition is applied to character classes only, which is all the two
    patterns need.  Matching is byte-wise; the classes of the two patterns
    treat every byte of a multi-byte character alike, so this agrees with
    Go's rune-wise matching. *)

Module Regexp.

Inductive syntax : Type :=
| Lit (l : string)                    (* literal text *)
| Star (p : ascii -> bool)            (* [x*] on a class *)
| Plus (p : ascii -> bool)            (* [x+] on a class *)
| PlusLazy (p : ascii -> bool)        (* [x+?] on a class *)
| Quest (r : syntax)                  (* [r?] *)
| Cat (r1 r2 : syntax)
| Alt (r1 r2 : syntax)                (* [r1|r2] *)
| Group (n : nat) (r : syntax)        (* the [n]-th capturing group *)
| EndText.                            (* [$] without the [m] flag *)

Definition seq (rs : list syntax) : syntax := foldr Cat (Lit "") rs.

Section Search.
Context {R : Type}.

(** A continuation receives the rest of the input and the captures. *)
Definition cont : Type := string -> list string -> option R.

Definition or_else (x : option R) (y : unit -> option R) : option R :=
  match x with Some _ => x | None => y tt end.

Fixpoint star_greedy (p : ascii -> bool) (s : string) (caps : list string)
  (k : cont) : option R :=
  match s with
  | String c s' =>
      if p c then or_else (star_greedy p s' caps k) (fun _ => k s caps)
      else k s caps
  | EmptyString => k s caps
  end.

Fixpoint star_lazy (p : ascii -> bool) (s : string) (caps : list string)
  (k : cont) : option R :=
  or_else (k s caps)
    (fun _ => match s with
              | String c s' => if p c then star_lazy p s' caps k else None
              | EmptyString => None
              end).

Fixpoint run (r : syntax) (s : string) (caps : list string) (k : cont)
  : option R :=
  match r with
  | Lit l =>
      if Strings.HasPrefix s l
      then k (Strings.drop (Strings.length l) s) caps else None
  | Star p => star_greedy p s caps k
  | Plus p =>
      match s with
      | String c s' => if p c then star_greedy p s' caps k else None
      | EmptyString => None
      end
  | PlusLazy p =>
      match s with
      | String c s' => if p c then star_lazy p s' caps k else None
      | EmptyString => None
      end
  | Quest r1 => or_else (run r1 s caps k) (fun _ => k s caps)
  | Cat r1 r2 => run r1 s caps (fun s' caps' => run r2 s' caps' k)
  | Alt r1 r2 => or_else (run r1 s caps k) (fun _ => run r2 s caps k)
  | Group n r1 =>
      run r1 s caps (fun s' caps' =>
        k s' (<[n := Strings.take (Strings.length s - Strings.length s') s]>
                caps'))
  | EndText =>
      match s with EmptyString => k s caps | String _ _ => None end
  end.
End Search.

(** The match that starts at the head of [s]: the matched text at index 0
    and the text of group [i] at index [i] (empty for a group that took no
    part), [ngroups + 1] strings in all. *)
Definition match_here (r : syntax) (ngroups : nat) (s : string)
  : option (list string) :=
  run r s (replicate (S ngroups) EmptyString)
    (fun s' caps =>
       Some (<[0%nat := Strings.take (Strings.length s - Strings.length s') s]>
               caps)).

Definition matched_length (m : list string) : nat :=
  Strings.length (nth 0 m EmptyString).

(** [re.FindAllStringSubmatch(s, -1)]: the successive non-overlapping
    matches.  [skip] counts the bytes of the last match still to be passed
    over; [adj] says that a match ends where the search resumes, where Go
    accepts no empty match. *)
Fixpoint find_all (r : syntax) (ngroups : nat) (skip : nat) (adj : bool)
  (s : string) : list (list string) :=
  match s with
  | EmptyString =>
      match skip, match_here r ngroups s with
      | O, Some m => if adj then [] else [m]
      | _, _ => []
      end
  | String _ s' =>
      match skip with
      | S k => find_all r ngroups k adj s'
      | O =>
          match match_here r ngroups s with
          | Some m =>
              match matched_length m with
              | O => if adj then find_all r ngroups 0 false s'
                     else m :: find_all r ngroups 0 false s'
              | S k => m :: find_all r ngroups k true s'
              end
          | None => find_all r ngroups 0 false s'
          end
      end
  end.

Definition FindAllStringSubmatch (r : syntax) (ngroups : nat) (s : string)
  : list (list string) :=
  find_all r ngroups 0 false s.

(** Character classes of the two patterns. *)
Definition chr (c : ascii) : ascii -> bool := Ascii.eqb c.
Definition non (c : ascii) : ascii -> bool := fun x => negb (Ascii.eqb c x).

(** [\s] is [[\t\n\f\r ]]. *)
Definition space : ascii -> bool :=
  fun x => chr "009" x || chr "010" x || chr "012" x || chr "013" x
           || chr " " x.

(** [.] is any character but the line feed. *)
Definition dot : ascii -> bool := non "010".

End Regexp.

(** ** Package [sln] *)

(** The errors [sln.go] creates, and those of its collaborators. *)
Inductive error : Type :=
| ErrNoProjects                           (* parseProjectReferences, line 104 *)
| ErrConfigSection                        (* parseConfigurationMappings, line 120 *)
| ErrProjectNotFound (projectPath : string)         (* GetProjectConfig, line 172 *)
| ErrOther (msg : string).                (* file system, project loader *)

Inductive result (A : Type) : Type :=
| Ok (a : A)
| Err (e : error).
Arguments Ok {A} a.
Arguments Err {A} e.

Record ProjectConfigMapping : Type := mkMapping {
  ProjectGUID : string;
  SolutionConfig : string;
  ProjectConfig : string;
  ShouldBuild : bool
}.

(** Modelled from the spec: the type [Project], declared in another file of
    the package.  [sln.go] reads its fields [ProjectPath] and [ProjectDir] and
    calls its methods [FindSourceFiles] and [FindConfig]; a project carries
    the answers of the two methods, [FindConfig] giving the include string and
    the define string of a configuration, in this order, or an error. *)
Record Project : Type := mkProject {
  ProjectPath : string;
  ProjectDir : string;
  FindSourceFiles : list string;
  FindConfig : string -> result (string * string)
}.

(** Modelled from the spec: the type [CompileCommand], declared in another
    file of the package; [sln.go] assigns its fields [Dir], [File], [Cmd]. *)
Record CompileCommand : Type := mkCommand {
  Dir : string;
  File : string;
  Cmd : string
}.

Record Sln : Type := mkSln {
  SolutionDir : string;
  ProjectList : list Project;
  ProjectGUIDs : gmap string string;
  ConfigMappings : list ProjectConfigMapping
}.

Definition set_SolutionDir (d : string) (sln : Sln) : Sln :=
  mkSln d (ProjectList sln) (ProjectGUIDs sln) (ConfigMappings sln).
Definition set_ProjectList (l : list Project) (sln : Sln) : Sln :=
  mkSln (SolutionDir sln) l (ProjectGUIDs sln) (ConfigMappings sln).
Definition set_ProjectGUIDs (m : gmap string string) (sln : Sln) : Sln :=
  mkSln (SolutionDir sln) (ProjectList sln) m (ConfigMappings sln).
Definition set_ConfigMappings (l : list ProjectConfigMapping) (sln : Sln)
  : Sln :=
  mkSln (SolutionDir sln) (ProjectList sln) (ProjectGUIDs sln) l.

(** [var sln Sln] *)
Definition zero_Sln : Sln := mkSln "" [] ∅ [].

(** The double quote, which a string literal cannot hold. *)
Definition dquote : string := String "034" EmptyString.

(** The pattern of line 92:
    [Project\("\{[^}]+\}"\)\s*=\s*"[^"]+",\s*"([^"]+)",\s*"\{([^}]+)\}"] *)
Definition projectRe : Regexp.syntax :=
  Regexp.seq
    [ Regexp.Lit ("Project(" +:+ dquote +:+ "{");
      Regexp.Plus (Regexp.non "}");
      Regexp.Lit ("}" +:+ dquote +:+ ")");
      Regexp.Star Regexp.space; Regexp.Lit "="; Regexp.Star Regexp.space;
      Regexp.Lit dquote; Regexp.Plus (Regexp.non "034");
      Regexp.Lit (dquote +:+ ",");
      Regexp.Star Regexp.space;
      Regexp.Lit dquote; Regexp.Group 1 (Regexp.Plus (Regexp.non "034"));
      Regexp.Lit (dquote +:+ ",");
      Regexp.Star Regexp.space;
      Regexp.Lit (dquote +:+ "{");
      Regexp.Group 2 (Regexp.Plus (Regexp.non "}"));
      Regexp.Lit ("}" +:+ dquote) ].

(** The pattern of line 127:
    [\{([^}]+)\}\.([^.]+)\.(?:ActiveCfg|Build\.0)\s*=\s*(.+?)(?:\r?\n|$)] *)
Definition configRe : Regexp.syntax :=
  Regexp.seq
    [ Regexp.Lit "{"; Regexp.Group 1 (Regexp.Plus (Regexp.non "}"));
      Regexp.Lit "}."; Regexp.Group 2 (Regexp.Plus (Regexp.non "."));
      Regexp.Lit ".";
      Regexp.Alt (Regexp.Lit "ActiveCfg") (Regexp.Lit "Build.0");
      Regexp.Star Regexp.space; Regexp.Lit "="; Regexp.Star Regexp.space;
      Regexp.Group 3 (Regexp.PlusLazy Regexp.dot);
      Regexp.Alt
        (Regexp.Cat (Regexp.Quest (Regexp.Lit (String "013" EmptyString)))
                    (Regexp.Lit (String "010" EmptyString)))
        Regexp.EndText ].

(** [match[i]] of a submatch; every index [sln.go] reads is guarded by a
    test of [len(match)]. *)
Definition sub (m : list string) (i : nat) : string := nth i m EmptyString.

(** *** parseProjectReferences *)

Definition projectMatches (content : string) : list (list string) :=
  Regexp.FindAllStringSubmatch projectRe 2 content.

(** The body of the loop of lines 95-101. *)
Definition addProjectReference (guids : gmap string string)
  (m : list string) : gmap string string :=
  if (3 <=? length m)%nat && Strings.HasSuffix (sub m 1) ".vcxproj" then
    let projectPath := Strings.Replace (sub m 1) "\" "/" (-1) in
    let projectGUID := sub m 2 in
    <[projectPath := projectGUID]> guids
  else guids.

Definition parseProjectReferences (content : string) (sln : Sln)
  : Sln * option error :=
  let matches := projectMatches content in
  let sln :=
    set_ProjectGUIDs (foldl addProjectReference (ProjectGUIDs sln) matches)
      sln in
  if (size (ProjectGUIDs sln) =? 0)%nat then (sln, Some ErrNoProjects)
  else (sln, None).

(** *** parseConfigurationMappings *)

Definition startMarker : string :=
  "GlobalSection(ProjectConfigurationPlatforms)".
Definition endMarker : string := "EndGlobalSection".

(** [s[lo:hi]] and [s[lo:]] *)
Definition slice (s : string) (lo hi : Z) : string :=
  Strings.take (Z.to_nat (hi - lo)) (Strings.drop (Z.to_nat lo) s).
Definition slice_from (s : string) (lo : Z) : string :=
  Strings.drop (Z.to_nat lo) s.

Definition configMatches (configSection : string) : list (list string) :=
  Regexp.FindAllStringSubmatch configRe 3 configSection.

Definition same_key (projectGUID solutionConfig : string)
  (mapping : ProjectConfigMapping) : Prop :=
  ProjectGUID mapping = projectGUID ∧ SolutionConfig mapping = solutionConfig.

Global Instance same_key_dec g c m : Decision (same_key g c m).
Proof. unfold same_key. apply _. Defined.

(** Lines 142-147: the update of [sln.ConfigMappings[i]]. *)
Definition mergeMapping (projectConfig : string) (shouldBuild : bool)
  (old : ProjectConfigMapping) : ProjectConfigMapping :=
  let old :=
    if shouldBuild
    then mkMapping (ProjectGUID old) (SolutionConfig old) (ProjectConfig old)
           true
    else old in
  if String.eqb (ProjectConfig old) ""
  then mkMapping (ProjectGUID old) (SolutionConfig old) projectConfig
         (ShouldBuild old)
  else old.

(** Lines 138-160, for the fields read from one match: the first row with
    the key is updated in place; without one, a row is appended. *)
Definition addRow (mappings : list ProjectConfigMapping)
  (projectGUID solutionConfig projectConfig : string) (shouldBuild : bool)
  : list ProjectConfigMapping :=
  match list_find (same_key projectGUID solutionConfig) mappings with
  | Some (i, _) => alter (mergeMapping projectConfig shouldBuild) i mappings
  | None =>
      mappings ++
        [mkMapping projectGUID solutionConfig projectConfig shouldBuild]
  end.

(** The body of the loop of lines 130-162. *)
Definition addConfigMapping (mappings : list ProjectConfigMapping)
  (m : list string) : list ProjectConfigMapping :=
  if (4 <=? length m)%nat then
    let projectGUID := sub m 1 in
    let solutionConfig := sub m 2 in
    let projectConfig := Strings.TrimSpace (sub m 3) in
    let shouldBuild := Strings.Contains (sub m 0) "Build.0" in
    addRow mappings projectGUID solutionConfig projectConfig shouldBuild
  else mappings.

Definition parseConfigurationMappings (content : string) (sln : Sln)
  : Sln * option error :=
  let configSectionStart := Strings.Index content startMarker in
  if configSectionStart =? -1 then (sln, None)
  else
    let configSectionEnd :=
      Strings.Index (slice_from content configSectionStart) endMarker in
    if configSectionEnd =? -1 then (sln, Some ErrConfigSection)
    else
      let configSection :=
        slice content configSectionStart
          (configSectionStart + configSectionEnd) in
      let matches := configMatches configSection in
      (set_ConfigMappings
         (foldl addConfigMapping (ConfigMappings sln) matches) sln, None).

(** *** GetProjectConfig *)

Definition GetProjectConfig (sln : Sln) (projectPath solutionConfig : string)
  : string * option error :=
  match ProjectGUIDs sln !! projectPath with
  | None => ("", Some (ErrProjectNotFound projectPath))
  | Some projectGUID =>
      match list_find (same_key projectGUID solutionConfig)
              (ConfigMappings sln) with
      | Some (_, mapping) => (ProjectConfig mapping, None)
      | None => (solutionConfig, None)
      end
  end.

(** The iteration orders a [range] over the map may follow: every key once,
    in any order. *)
Definition range_order (m : gmap string string) (order : list string)
  : Prop :=
  NoDup order ∧ list_to_set order = dom m.

(** [preappend], lines 256-265. *)
Definition preappend (sepedString append : string) : string :=
  let defList := Strings.Split sepedString ";" in
  foldl (fun output v => output +:+ (append +:+ v +:+ " ")) "" defList.

(** A group of flags: every entry with the flag before it and one space
    after it. *)
Definition flags (flag : string) (entries : list string) : string :=
  foldr (λ v rest, flag +:+ v +:+ " " +:+ rest) "" entries.

(** The command line of one source file, from the define entries and the
    include entries: the compiler, the define flags, a space, the include
    flags, a space, [-c], a space and the file. *)
Definition commandLine (defines includes : list string) (f : string)
  : string :=
  "clang-cl.exe " +:+ flags "-D" defines +:+ " " +:+ flags "-I" includes
  +:+ " -c " +:+ f.

(** The include string and the define string a project gives for a
    configuration; empty strings when it gives none. *)
Definition configOf (pro : Project) (conf : string) : string * string :=
  match FindConfig pro conf with
  | Ok x => x
  | Err _ => ("", "")
  end.

Section Collaborators.

(** Functions of the Go library and of the other files of the package. *)
Variable filepath_Abs : string -> string * option error.
Variable filepath_Dir : string -> string.
Variable filepath_Join : string -> string -> string.
(** [os.Open] followed by [ioutil.ReadAll]. *)
Variable ReadFile : string -> result string.
Variable NewProject : string -> result Project.
Variable RemoveBadDefinition : string -> string.
Variable RemoveBadInclude : string -> string.

(** *** GetProjectConfigByProject *)

(** The loop of lines 191-198 along the order the range follows: the first
    path visited whose absolute path is the project's, or [""]. *)
Fixpoint findProjectPath (sln : Sln) (pro : Project) (order : list string)
  : string :=
  match order with
  | [] => ""
  | path :: rest =>
      let absPath := filepath_Join (SolutionDir sln) path in
      if String.eqb absPath (ProjectPath pro) then path
      else findProjectPath sln pro rest
  end.

Definition GetProjectConfigByProject (order : list string) (sln : Sln)
  (pro : Project) (solutionConfig : string) : string * option error :=
  let projectPath := findProjectPath sln pro order in
  if String.eqb projectPath "" then (solutionConfig, None)
  else GetProjectConfig sln projectPath solutionConfig.

(** *** CompileCommandsJson *)

(** Lines 230-246 for one source file.  [willReplaceEnv] has the single
    key [$(SolutionDir)], so the range over it is one replacement. *)
Definition composeCommand (sln : Sln) (inc def f : string) : string :=
  let inc := Strings.Replace inc "$(SolutionDir)" (SolutionDir sln) (-1) in
  let def := RemoveBadDefinition def in
  let def := preappend def "-D" in
  let inc := RemoveBadInclude inc in
  let inc := preappend inc "-I" in
  "clang-cl.exe " +:+ def +:+ " " +:+ inc +:+ " -c " +:+ f.

(** The loop of lines 226-250 over the source files of one project. *)
Fixpoint sourceLoop (sln : Sln) (pro : Project) (projectConfig : string)
  (files : list string) (cmdList : list CompileCommand)
  : list CompileCommand * option error :=
  match files with
  | [] => (cmdList, None)
  | f :: rest =>
      match FindConfig pro projectConfig with
      | Err e => (cmdList, Some e)
      | Ok (inc, def) =>
          let item :=
            mkCommand (ProjectDir pro) f (composeCommand sln inc def f) in
          sourceLoop sln pro projectConfig rest (cmdList ++ [item])
      end
  end.

(** Lines 220-224: the configuration of one project.  The warning written
    to the standard error stream in the error case is not modelled. *)
Definition effectiveConfig (order : list string) (sln : Sln) (pro : Project)
  (conf : string) : string :=
  match GetProjectConfigByProject order sln pro conf with
  | (_, Some _) => conf
  | (projectConfig, None) => projectConfig
  end.

(** The loop of lines 216-252.  [sched i] is the order in which the call of
    [GetProjectConfigByProject] for the [i]-th project ranges over the
    map. *)
Fixpoint projectLoop (sched : nat -> list string) (sln : Sln) (conf : string)
  (i : nat) (pros : list Project) (cmdList : list CompileCommand)
  : list CompileCommand * option error :=
  match pros with
  | [] => (cmdList, None)
  | pro :: rest =>
      let projectConfig := effectiveConfig (sched i) sln pro conf in
      match sourceLoop sln pro projectConfig (FindSourceFiles pro) cmdList with
      | (cmdList, Some e) => (cmdList, Some e)
      | (cmdList, None) => projectLoop sched sln conf (S i) rest cmdList
      end
  end.

Definition CompileCommandsJson (sched : nat -> list string) (sln : Sln)
  (conf : string) : list CompileCommand * option error :=
  projectLoop sched sln conf 0 (ProjectList sln) [].

(** *** NewSln *)

Definition parseSolutionFile (path : string) (sln : Sln)
  : Sln * option error :=
  match ReadFile path with
  | Err e => (sln, Some e)
  | Ok content =>
      match parseProjectReferences content sln with
      | (sln, Some e) => (sln, Some e)
      | (sln, None) =>
          match parseConfigurationMappings content sln with
          | (sln, Some e) => (sln, Some e)
          | (sln, None) => (sln, None)
          end
      end
  end.

(** The loop of lines 48-54 along the order the range follows. *)
Fixpoint loadProjects (order : list string) (sln : Sln)
  : Sln * option error :=
  match order with
  | [] => (sln, None)
  | projectPath :: rest =>
      match NewProject (filepath_Join (SolutionDir sln) projectPath) with
      | Err e => (sln, Some e)
      | Ok pro =>
          loadProjects rest (set_ProjectList (ProjectList sln ++ [pro]) sln)
      end
  end.

(** [order] is the order in which line 48 ranges over the parsed map. *)
Definition NewSln (order : list string) (path : string)
  : Sln * option error :=
  let sln := zero_Sln in
  let '(abs, err) := filepath_Abs path in
  let sln := set_SolutionDir (filepath_Dir abs) sln in
  match err with
  | Some e => (sln, Some e)
  | None =>
      let sln := set_ProjectGUIDs ∅ sln in
      match parseSolutionFile path sln with
      | (sln, Some e) => (sln, Some e)
      | (sln, None) => loadProjects order sln
      end
  end.

(** The entry of one source file, in terms of [commandLine]. *)
Definition entryOf (sln : Sln) (pro : Project) (projectConfig f : string)
  : CompileCommand :=
  mkCommand (ProjectDir pro) f
    (commandLine
       (Strings.Split (RemoveBadDefinition (configOf pro projectConfig).2) ";")
       (Strings.Split
          (RemoveBadInclude
             (Strings.Replace (configOf pro projectConfig).1
                "$(SolutionDir)" (SolutionDir sln) (-1))) ";")
       f).

(** The model [NewSln] hands to [parseSolutionFile]. *)
Definition blank (path : string) : Sln :=
  set_ProjectGUIDs ∅
    (set_SolutionDir (filepath_Dir (filepath_Abs path).1) zero_Sln).

End Collaborators.

(** ** Collaborators for the worked examples

    [path/filepath] on a slash-separated system, with [/work] as the working
    directory. *)

Module Filepath.

Definition join_with (sep : string) (l : list string) : string :=
  match l with
  | [] => ""
  | x :: r => foldl (fun acc y => acc +:+ sep +:+ y) x r
  end.

(** The lexical rules of [Clean] on the elements of a path: empty and [.]
    elements go, [..] takes the element before it away, and is dropped at
    the root.  [stack] holds the elements kept so far, last first. *)
Fixpoint cleanElems (rooted : bool) (stack elems : list string)
  : list string :=
  match elems with
  | [] => reverse stack
  | e :: rest =>
      if String.eqb e "" || String.eqb e "." then cleanElems rooted stack rest
      else if String.eqb e ".." then
        match stack with
        | top :: below =>
            if String.eqb top ".." then cleanElems rooted (e :: stack) rest
            else cleanElems rooted below rest
        | [] =>
            if rooted then cleanElems rooted [] rest
            else cleanElems rooted [e] rest
        end
      else cleanElems rooted (e :: stack) rest
  end.

Definition Clean (path : string) : string :=
  let rooted := Strings.HasPrefix path "/" in
  let out :=
    (if rooted then "/" else "") +:+
    join_with "/" (cleanElems rooted [] (Strings.Split path "/")) in
  if String.eqb out "" then "." else out.

Definition Join (a b : string) : string :=
  if String.eqb a "" then (if String.eqb b "" then "" else Clean b)
  else if String.eqb b "" then Clean a
  else Clean (a +:+ "/" +:+ b).

Definition Dir (path : string) : string :=
  let back := Strings.Index (Strings.rev path) "/" in
  if back <? 0 then "."
  else Clean (Strings.take (Strings.length path - Z.to_nat back) path).

Definition Abs (path : string) : string * option error :=
  if Strings.HasPrefix path "/" then (Clean path, None)
  else (Join "/work" path, None).

End Filepath.

Module Fixture.

Definition newline : string := String "010" EmptyString.

(** Every line followed by a line feed. *)
Definition unlines (l : list string) : string :=
  String.concat "" ((λ x, x +:+ newline) <$> l).

(** A document is written with ['] where the solution file has a double
    quote. *)
Definition quoted (s : string) : string := Strings.Replace s "'" dquote (-1).
Definition document (l : list string) : string := quoted (unlines l).

Definition sanitize (s : string) : string := s.

(** The solution of the end-to-end example: one project, one folder, one
    mapping row. *)
Definition app_sln : string :=
  document
    [ "Microsoft Visual Studio Solution File, Format Version 12.00";
      "Project('{8BC9CEB8-8B4A-11D0-8D11-00A0C91BC942}') = 'app', 'lib\app.vcxproj', '{ABCD}'";
      "EndProject";
      "Project('{2150E333-8FDC-42A3-9474-1A3956D46DE8}') = 'docs', 'docs', '{FFFF}'";
      "EndProject";
      "Global";
      "	GlobalSection(SolutionConfigurationPlatforms) = preSolution";
      "		Debug|x64 = Debug|x64";
      "	EndGlobalSection";
      "	GlobalSection(ProjectConfigurationPlatforms) = postSolution";
      "		{ABCD}.Debug|x64.ActiveCfg = Debug|Win32";
      "	EndGlobalSection";
      "EndGlobal" ].

Definition app_project (path : string) : Project :=
  mkProject path "lib" ["main.cpp"]
    (fun conf =>
       if String.eqb conf "Debug|Win32" then Ok ("inc1;inc2", "FOO;BAR")
       else Err (ErrOther "no such configuration")).

Definition app_files (path : string) : result string :=
  if String.eqb path "app.sln" then Ok app_sln
  else Err (ErrOther "no such file").

Definition app_loader (path : string) : result Project :=
  if String.eqb path "/work/lib/app.vcxproj" then Ok (app_project path)
  else Err (ErrOther "no such project").

Definition app_order : list string := ["lib/app.vcxproj"].

Definition app_model : Sln * option error :=
  NewSln Filepath.Abs Filepath.Dir Filepath.Join app_files app_loader
    app_order "app.sln".

(** Two references that name one project file, with different
    identifiers and different mappings. *)
Definition alias_sln : string :=
  document
    [ "Project('{K}') = 'p', 'p.vcxproj', '{G1}'";
      "EndProject";
      "Project('{K}') = 'q', '.\p.vcxproj', '{G2}'";
      "EndProject";
      "Global";
      "	GlobalSection(ProjectConfigurationPlatforms) = postSolution";
      "		{G1}.Debug.ActiveCfg = First";
      "		{G2}.Debug.ActiveCfg = Second";
      "	EndGlobalSection";
      "EndGlobal" ].

Definition alias_project (path : string) : Project :=
  mkProject path (Filepath.Dir path) ["main.cpp"]
    (fun conf => Ok ("inc", conf)).

Definition alias_files (path : string) : result string := Ok alias_sln.
Definition alias_loader (path : string) : result Project :=
  Ok (alias_project path).

Definition alias_order1 : list string := ["p.vcxproj"; "./p.vcxproj"].
Definition alias_order2 : list string := ["./p.vcxproj"; "p.vcxproj"].

Definition alias_model : Sln * option error :=
  NewSln Filepath.Abs Filepath.Dir Filepath.Join alias_files alias_loader
    alias_order1 "alias.sln".

(** The two rows of the merge law, in both orders. *)
Definition active_first_sln : string :=
  document
    [ "Global";
      "	GlobalSection(ProjectConfigurationPlatforms) = postSolution";
      "		{G}.Debug|x64.ActiveCfg = Debug|x64";
      "		{G}.Debug|x64.Build.0 = Release|x64";
      "	EndGlobalSection";
      "EndGlobal" ].

Definition build_first_sln : string :=
  document
    [ "Global";
      "	GlobalSection(ProjectConfigurationPlatforms) = postSolution";
      "		{G}.Debug|x64.Build.0 = Release|x64";
      "		{G}.Debug|x64.ActiveCfg = Debug|x64";
      "	EndGlobalSection";
      "EndGlobal" ].

Definition active_row : list string :=
  [ "{G}.Debug|x64.ActiveCfg = Debug|x64" +:+ newline;
    "G"; "Debug|x64"; "Debug|x64" ].

Definition build_row : list string :=
  [ "{G}.Debug|x64.Build.0 = Release|x64" +:+ newline;
    "G"; "Debug|x64"; "Release|x64" ].

(** An active-configuration row whose value holds the text [Build.0]. *)
Definition marker_in_value_sln : string :=
  document
    [ "Global";
      "	GlobalSection(ProjectConfigurationPlatforms) = postSolution";
      "		{G}.Debug.ActiveCfg = Build.0|x64";
      "	EndGlobalSection";
      "EndGlobal" ].

Definition marker_in_value_row : list string :=
  [ "{G}.Debug.ActiveCfg = Build.0|x64" +:+ newline;
    "G"; "Debug"; "Build.0|x64" ].

(** A solution without the section, and one whose section is not closed. *)
Definition no_section_sln : string :=
  document
    [ "Project('{K}') = 'p', 'p.vcxproj', '{G1}'";
      "EndProject" ].

Definition open_section_sln : string :=
  document
    [ "Project('{K}') = 'p', 'p.vcxproj', '{G1}'";
      "EndProject";
      "Global";
      "	GlobalSection(SolutionConfigurationPlatforms) = preSolution";
      "	EndGlobalSection";
      "	GlobalSection(ProjectConfigurationPlatforms) = postSolution";
      "		{G1}.Debug.ActiveCfg = Debug" ].

(** Two projects, the second of which does not load. *)
Definition pair_sln : string :=
  document
    [ "Project('{K}') = 'a', 'a.vcxproj', '{GA}'";
      "EndProject";
      "Project('{K}') = 'b', 'b.vcxproj', '{GB}'";
      "EndProject" ].

Definition pair_files (path : string) : result string := Ok pair_sln.
Definition pair_loader (path : string) : result Project :=
  if String.eqb path "/work/b.vcxproj" then Err (ErrOther "unreadable")
  else Ok (alias_project path).
Definition pair_order : list string := ["a.vcxproj"; "b.vcxproj"].
Definition pair_order_rev : list string := ["b.vcxproj"; "a.vcxproj"].

Definition pair_model : Sln * option error :=
  NewSln Filepath.Abs Filepath.Dir Filepath.Join pair_files pair_loader
    pair_order "pair.sln".

(** The same two projects with a loader that loads both. *)
Definition both_model : Sln * option error :=
  NewSln Filepath.Abs Filepath.Dir Filepath.Join pair_files alias_loader
    pair_order "pair.sln".

(** Two models that differ in one [ShouldBuild] field. *)
Definition built_model : Sln :=
  mkSln "/work" [alias_project "/work/a.vcxproj"]
    {[ "a.vcxproj" := "GA" ]} [mkMapping "GA" "Debug" "Checked" true].
Definition unbuilt_model : Sln :=
  mkSln "/work" [alias_project "/work/a.vcxproj"]
    {[ "a.vcxproj" := "GA" ]} [mkMapping "GA" "Debug" "Checked" false].

(** The generator with the collaborators of the examples. *)
Definition generate (order : list string) (sln : Sln) (conf : string)
  : list CompileCommand * option error :=
  CompileCommandsJson Filepath.Join sanitize sanitize (λ _, order) sln conf.

End Fixture.

(** ** Notions used in the statements *)

(** [sub] occurs in [s]. *)
Definition occurs (sub s : string) : Prop :=
  ∃ pre post, s = pre +:+ sub +:+ post.

(** The key of a row of the mapping table, and what one raw row (a match of
    [configRe]) contributes: its key, its value and whether it signals
    build participation. *)
Definition key (r : ProjectConfigMapping) : string * string :=
  (ProjectGUID r, SolutionConfig r).
Definition rowKey (m : list string) : string * string := (sub m 1, sub m 2).
Definition rowValue (m : list string) : string := Strings.TrimSpace (sub m 3).
Definition rowBuilds (m : list string) : bool :=
  Strings.Contains (sub m 0) "Build.0".

(** The raw rows of a document: the matches of [configRe] inside the
    configuration subsection; none when the subsection is not delimited. *)
Definition rawRows (content : string) : list (list string) :=
  let i := Strings.Index content startMarker in
  let j := Strings.Index (slice_from content i) endMarker in
  if (i =? -1) || (j =? -1) then [] else configMatches (slice content i (i + j)).

(** The rows of a table that have a given key. *)
Definition rowsOf (k : string * string) (t : list ProjectConfigMapping)
  : list ProjectConfigMapping :=
  filter (λ r, key r = k) t.

(** A row of key [k] that takes part in the build. *)
Definition built (k : string * string) (t : list ProjectConfigMapping)
  : Prop :=
  ∃ r, r ∈ t ∧ key r = k ∧ ShouldBuild r = true.

(** The test of line 96 and the path stored by lines 97-99. *)
Definition retained (m : list string) : bool :=
  (3 <=? length m)%nat && Strings.HasSuffix (sub m 1) ".vcxproj".
Definition storedPath (m : list string) : string :=
  Strings.Replace (sub m 1) "\" "/" (-1).

(** Every character of [s] satisfies [P]. *)
Fixpoint all_chars (P : ascii → bool) (s : string) : bool :=
  match s with
  | EmptyString => true
  | String c s' => P c && all_chars P s'
  end.

(** A continuation of the matcher that answers within [Q] on captures of
    length [L]. *)
Definition answers_in {R : Type} (Q : R → Prop) (L : nat)
  (k : @Regexp.cont R) : Prop :=
  ∀ s caps x, length caps = L → k s caps = Some x → Q x.

(** Two models that differ at most in the [ShouldBuild] fields of their
    mapping rows. *)
Definition same_row_but_ShouldBuild (r1 r2 : ProjectConfigMapping) : Prop :=
  ProjectGUID r1 = ProjectGUID r2 ∧ SolutionConfig r1 = SolutionConfig r2 ∧
  ProjectConfig r1 = ProjectConfig r2.

Definition same_but_ShouldBuild (s1 s2 : Sln) : Prop :=
  SolutionDir s1 = SolutionDir s2 ∧ ProjectList s1 = ProjectList s2 ∧
  ProjectGUIDs s1 = ProjectGUIDs s2 ∧
  Forall2 same_row_but_ShouldBuild (ConfigMappings s1) (ConfigMappings s2).

(** A concrete list is an iteration order of a concrete map. *)
Ltac range_order_by_evaluation :=
  split; [apply (bool_decide_unpack _); vm_compute; exact I
         | vm_compute; reflexivity].

(** A concrete construction returned what its first component is, with the
    error that evaluation finds. *)
Ltac construction_by_evaluation :=
  apply injective_projections; [reflexivity | vm_compute; reflexivity].

(** ** Documents made of reference lines *)

(** A reference line as the comment of line 91 writes it,
    [Project("{kind}") = "name", "path", "{guid}"], with the white space
    that the pattern of line 92 allows around [=] and after each comma. *)
Record Reference : Type := mkReference {
  refKind : string;
  refName : string;
  refPath : string;
  refGUID : string;
  refSpace1 : string;
  refSpace2 : string;
  refSpace3 : string;
  refSpace4 : string
}.

(** How a reference line opens. *)
Definition referenceOpen : string := "Project(" +:+ dquote +:+ "{".

(** The text of a reference line, followed by [rest]. *)
Definition referenceText (r : Reference) (rest : string) : string :=
  referenceOpen +:+ refKind r +:+ "}" +:+ dquote +:+ ")"
  +:+ refSpace1 r +:+ "=" +:+ refSpace2 r
  +:+ dquote +:+ refName r +:+ dquote +:+ "," +:+ refSpace3 r
  +:+ dquote +:+ refPath r +:+ dquote +:+ "," +:+ refSpace4 r
  +:+ dquote +:+ "{" +:+ refGUID r +:+ "}" +:+ dquote +:+ rest.

Definition referenceLine (r : Reference) : string := referenceText r "".

(** The four fields are not empty, the kind and the identifier hold no
    closing brace, the name and the path hold no double quote, and the
    spaces are white space. *)
Definition well_formed (r : Reference) : Prop :=
  (refKind r ≠ "" ∧ all_chars (Regexp.non "}") (refKind r) = true) ∧
  (refName r ≠ "" ∧ all_chars (Regexp.non "034") (refName r) = true) ∧
  (refPath r ≠ "" ∧ all_chars (Regexp.non "034") (refPath r) = true) ∧
  (refGUID r ≠ "" ∧ all_chars (Regexp.non "}") (refGUID r) = true) ∧
  all_chars Regexp.space (refSpace1 r) = true ∧
  all_chars Regexp.space (refSpace2 r) = true ∧
  all_chars Regexp.space (refSpace3 r) = true ∧
  all_chars Regexp.space (refSpace4 r) = true.

(** Reference lines, each followed by other text. *)
Fixpoint referenceDocument (items : list (Reference * string)) : string :=
  match items with
  | [] => ""
  | (r, gap) :: rest => referenceLine r +:+ gap +:+ referenceDocument rest
  end.

(** The submatch of a reference line. *)
Definition referenceMatch (r : Reference) : list string :=
  [referenceLine r; refPath r; refGUID r].

(** A class stops before [s]: [s] is empty or its first character is not
    in the class. *)
Definition stops (p : ascii → bool) (s : string) : bool :=
  match s with
  | EmptyString => true
  | String c _ => negb (p c)
  end.

(** One step of the matcher over a literal that the text shows. *)
Ltac run_literal :=
  lazymatch goal with
  | |- Regexp.run (Regexp.Cat (Regexp.Lit ?l) ?r2) ?s ?caps ?k = ?x =>
      change (Regexp.run r2 (Strings.drop (Strings.length l) s) caps k = x);
      cbn [Strings.drop Strings.length String.append dquote referenceOpen]
  end.

(** The reference lines of the end-to-end example, the text before them and
    the text after each. *)
Definition app_preamble : string :=
  Fixture.unlines
    ["Microsoft Visual Studio Solution File, Format Version 12.00"].
Definition app_references : list (Reference * string) :=
  [ (mkReference "8BC9CEB8-8B4A-11D0-8D11-00A0C91BC942" "app"
       "lib\app.vcxproj" "ABCD" " " " " " " " ",
     Fixture.newline +:+ Fixture.unlines ["EndProject"]);
    (mkReference "2150E333-8FDC-42A3-9474-1A3956D46DE8" "docs"
       "docs" "FFFF" " " " " " " " ",
     Fixture.newline +:+
     Fixture.unlines
       [ "EndProject";
         "Global";
         "	GlobalSection(SolutionConfigurationPlatforms) = preSolution";
         "		Debug|x64 = Debug|x64";
         "	EndGlobalSection";
         "	GlobalSection(ProjectConfigurationPlatforms) = postSolution";
         "		{ABCD}.Debug|x64.ActiveCfg = Debug|Win32";
         "	EndGlobalSection";
         "EndGlobal" ]) ].

(** Reference lines written without any white space, the second one on
    the line of the first. *)
Definition dense_references : list (Reference * string) :=
  [ (mkReference "K" "a" "src\a.vcxproj" "GA" "" "" "" "", "");
    (mkReference "K" "b" "b.vcproj" "GB" "" "" "" "", Fixture.newline) ].

(** ** Further notions *)

(** [findAllProject], lines 208-211: kept for compatibility, it reads
    nothing and always fails. *)
Definition findAllProject (path : string) : list string * option error :=
  ([], Some (ErrOther "此函数已弃用，请使用新的解析方法")).

(** The first non-empty string of a list, or the empty string. *)
Fixpoint firstNonEmpty (l : list string) : string :=
  match l with
  | [] => ""
  | x :: rest => if decide (x = "") then firstNonEmpty rest else x
  end.

(** The raw rows of a list that carry a given key. *)
Definition rowsWithKey (k : string * string) (ms : list (list string))
  : list (list string) :=
  filter (λ m, rowKey m = k) ms.

(** Every character of a string replaced through [f]. *)
Fixpoint map_chars (f : ascii → ascii) (s : string) : string :=
  match s with
  | EmptyString => EmptyString
  | String c s' => String (f c) (map_chars f s')
  end.

(** [pre] is where [sub] first occurs in [s]: [sub] follows [pre], and no
    occurrence starts earlier. *)
Definition first_occurrence (sub pre s : string) : Prop :=
  (∃ post, s = pre +:+ sub +:+ post) ∧
  ∀ pre' post', s = pre' +:+ sub +:+ post' →
                (Strings.length pre <= Strings.length pre')%nat.

(** A row merged with raw rows of its key, in order (lines 142-147 for each
    of them). *)
Definition mergeRows (r : ProjectConfigMapping) (ms : list (list string))
  : ProjectConfigMapping :=
  foldl (λ r m, mergeMapping (rowValue m) (rowBuilds m) r) r ms.

(** [r'] carries on from [r]: the same key, still built if [r] was, and the
    same project configuration if [r] had one. *)
Definition carries_on (r r' : ProjectConfigMapping) : Prop :=
  key r' = key r ∧ (ShouldBuild r = true → ShouldBuild r' = true) ∧
  (ProjectConfig r ≠ "" → ProjectConfig r' = ProjectConfig r).

(** The table has taken a raw row in: the first row of its key is the one
    the merge of lines 142-147 leaves as it is. *)
Fixpoint absorbs (t : list ProjectConfigMapping) (g c pc : string)
  (sb : bool) : Prop :=
  match t with
  | [] => False
  | r :: rest =>
      if decide (same_key g c r) then mergeMapping pc sb r = r
      else absorbs rest g c pc sb
  end.

Definition absorbed (t : list ProjectConfigMapping) (m : list string)
  : Prop :=
  (4 <=? length m)%nat = true →
  absorbs t (sub m 1) (sub m 2) (rowValue m) (rowBuilds m).

(** The configuration subsection is absent, or opened and closed: a start
    marker in the document is followed by an end marker. *)
Definition section_closed (content : string) : Prop :=
  ¬ occurs startMarker content ∨
  ∃ pre post, content = pre +:+ startMarker +:+ post ∧
              occurs endMarker (startMarker +:+ post).

(** What the matcher searches for: [r] matches a prefix of [s] and leaves
    [s'], taking the captures from [caps] to [caps']. *)
Fixpoint matches_prefix (r : Regexp.syntax) (s : string) (caps : list string)
  (s' : string) (caps' : list string) : Prop :=
  match r with
  | Regexp.Lit l => s = l +:+ s' ∧ caps' = caps
  | Regexp.Star p =>
      (∃ t, s = t +:+ s' ∧ all_chars p t = true) ∧ caps' = caps
  | Regexp.Plus p | Regexp.PlusLazy p =>
      (∃ t, s = t +:+ s' ∧ all_chars p t = true ∧ t ≠ "") ∧ caps' = caps
  | Regexp.Quest r1 =>
      matches_prefix r1 s caps s' caps' ∨ (s' = s ∧ caps' = caps)
  | Regexp.Cat r1 r2 =>
      ∃ s1 caps1, matches_prefix r1 s caps s1 caps1 ∧
                  matches_prefix r2 s1 caps1 s' caps'
  | Regexp.Alt r1 r2 =>
      matches_prefix r1 s caps s' caps' ∨ matches_prefix r2 s caps s' caps'
  | Regexp.Group n r1 =>
      ∃ caps1, matches_prefix r1 s caps s' caps1 ∧
               caps' = <[n := Strings.take
                                 (Strings.length s - Strings.length s') s]>
                         caps1
  | Regexp.EndText => s = "" ∧ s' = "" ∧ caps' = caps
  end.

(** ** Further documents *)

Module Fixture2.

(** Rows of two keys; the first row of key (G, Debug) has a value of white
    space only (a vertical tab). *)
Definition several_rows_sln : string :=
  Fixture.document
    [ "Global";
      "	GlobalSection(ProjectConfigurationPlatforms) = postSolution";
      "		{G}.Debug.ActiveCfg = " +:+ String "011" "";
      "		{H}.Debug.ActiveCfg = Other";
      "		{G}.Debug.Build.0 = Release";
      "		{G}.Debug.ActiveCfg = Late";
      "	EndGlobalSection";
      "EndGlobal" ].

(** A model that already holds a row. *)
Definition seeded_model : Sln :=
  mkSln "/work" [] ∅ [mkMapping "G" "Debug" "Kept" false].

(** The same project file referred to twice, with the two separators. *)
Definition twice_sln : string :=
  Fixture.document
    [ "Project('{K}') = 'app', 'lib\app.vcxproj', '{OLD}'";
      "EndProject";
      "Project('{K}') = 'app', 'lib/app.vcxproj', '{NEW}'";
      "EndProject" ].

Definition twice_first : list string :=
  [ Fixture.quoted "Project('{K}') = 'app', 'lib\app.vcxproj', '{OLD}'";
    "lib\app.vcxproj"; "OLD" ].
Definition twice_second : list string :=
  [ Fixture.quoted "Project('{K}') = 'app', 'lib/app.vcxproj', '{NEW}'";
    "lib/app.vcxproj"; "NEW" ].

(** No project file, and a subsection that is not closed. *)
Definition folders_open_sln : string :=
  Fixture.document
    [ "Project('{K}') = 'docs', 'docs', '{FFFF}'";
      "EndProject";
      "Global";
      "	GlobalSection(ProjectConfigurationPlatforms) = postSolution";
      "		{FFFF}.Debug.ActiveCfg = Debug" ].

Definition folders_open_files (path : string) : result string :=
  Ok folders_open_sln.
Definition open_section_files (path : string) : result string :=
  Ok Fixture.open_section_sln.

(** A subsection with one row, a row before it and a row after it. *)
Definition outside_pre : string :=
  Fixture.unlines ["Global"; "	{X}.Debug.ActiveCfg = Before"] +:+ "	".
Definition outside_body : string :=
  " = postSolution" +:+ Fixture.newline
  +:+ Fixture.unlines ["		{G}.Debug.ActiveCfg = Inside"] +:+ "	".
Definition outside_post : string :=
  Fixture.newline
  +:+ Fixture.unlines ["	{Y}.Debug.ActiveCfg = After"; "EndGlobal"].

(** Two projects, the second of which has a source file and no
    configuration data. *)
Definition bare_project (path : string) : Project :=
  mkProject path "/work" ["b.cpp"]
    (λ conf, Err (ErrOther "no such configuration")).
Definition failing_model : Sln :=
  mkSln "/work"
    [Fixture.alias_project "/work/a.vcxproj"; bare_project "/work/b.vcxproj"]
    {[ "a.vcxproj" := "GA"; "b.vcxproj" := "GB" ]} [].

(** The end-to-end document with a row whose solution configuration holds
    a dot. *)
Definition dotted_sln : string :=
  Fixture.document
    [ "Project('{K}') = 'app', 'lib\app.vcxproj', '{ABCD}'";
      "EndProject";
      "Global";
      "	GlobalSection(ProjectConfigurationPlatforms) = postSolution";
      "		{ABCD}.Release.Static|x64.ActiveCfg = Release|Win32";
      "	EndGlobalSection";
      "EndGlobal" ].
Definition dotted_files (path : string) : result string := Ok dotted_sln.
Definition dotted_model : Sln * option error :=
  NewSln Filepath.Abs Filepath.Dir Filepath.Join dotted_files
    Fixture.app_loader Fixture.app_order "app.sln".

End Fixture2.

(** ** The library functions on examples *)

Example example_Split_empty : Strings.Split "" ";" = [""].
Proof. reflexivity. Qed.

Example example_Split_two : Strings.Split "FOO;BAR" ";" = ["FOO"; "BAR"].
Proof. reflexivity. Qed.

Example example_Split_trailing : Strings.Split "a;;b;" ";" = ["a"; ""; "b"; ""].
Proof. reflexivity. Qed.

Example example_Replace_backslash :
  Strings.Replace "lib\sub\app.vcxproj" "\" "/" (-1) = "lib/sub/app.vcxproj".
Proof. reflexivity. Qed.

Example example_Replace_token :
  Strings.Replace "$(SolutionDir)inc;x$(SolutionDir)" "$(SolutionDir)" "/s/"
    (-1) = "/s/inc;x/s/" ∧
  Strings.Replace "a.b.c.d" "." "/" 2 = "a/b/c.d".
Proof. split; reflexivity. Qed.

Example example_Index_found : Strings.Index "abcabc" "ca" = 2.
Proof. reflexivity. Qed.

Example example_Index_absent : Strings.Index "abcabc" "cb" = -1.
Proof. reflexivity. Qed.

Example example_HasSuffix_ext : Strings.HasSuffix "lib/app.vcxproj" ".vcxproj" = true.
Proof. reflexivity. Qed.

Example example_HasSuffix_case : Strings.HasSuffix "lib/app.VCXPROJ" ".vcxproj" = false.
Proof. reflexivity. Qed.

Example example_TrimSpace_both : Strings.TrimSpace "  Debug|Win32 	" = "Debug|Win32".
Proof. reflexivity. Qed.


Example example_TrimSpace_unicode :
  Strings.TrimSpace
    (String "194" (String "160" (String "x" (String " " (String "y"
      (String "227" (String "128" (String "128" (String "011" "")))))))))
  = "x y".
Proof. reflexivity. Qed.

(** A line that ends with a carriage return and a line feed: the value stops
    before them. *)
Example example_config_row_crlf :
  configMatches
    ("{G}.Debug|x64.ActiveCfg = Debug|Any CPU"
     +:+ String "013" (String "010" "	rest"))
  = [ [ "{G}.Debug|x64.ActiveCfg = Debug|Any CPU"
        +:+ String "013" (String "010" "");
        "G"; "Debug|x64"; "Debug|Any CPU" ] ].
Proof. vm_compute. reflexivity. Qed.

(** The white space after [=] may run over line ends ([\s] matches them),
    and a suffix other than the two recognized ones gives no row. *)
Example example_config_row_shapes :
  configMatches
    (Fixture.unlines
       [ "{G}.Debug.Deploy.0 = Debug"; "{H}.Debug.ActiveCfg ="; "  Release" ])
  = [ [ Fixture.unlines ["{H}.Debug.ActiveCfg ="; "  Release"];
        "H"; "Debug"; "Release" ] ].
Proof. vm_compute. reflexivity. Qed.

(** A value of white space that [\s] does not cover (a vertical tab) is
    matched and trimmed to the empty string; the next row of the key then
    gives the value. *)
Example example_config_row_empty_value :
  ConfigMappings
    (parseConfigurationMappings
       (Fixture.unlines
          [ "GlobalSection(ProjectConfigurationPlatforms) = postSolution";
            "{G}.Debug.ActiveCfg = " +:+ String "011" "";
            "{G}.Debug.Build.0 = Release";
            "EndGlobalSection" ])
       zero_Sln).1
  = [mkMapping "G" "Debug" "Release" true].
Proof. vm_compute. reflexivity. Qed.

(** The reference pattern: white space is optional around [=] and after
    the commas and may run over line ends; the kind and the extension of the
    path play no part in the match. *)
Example example_project_lines :
  projectMatches
    (Fixture.document
       [ "Project('{K}')='a','x\a.vcxproj','{GA}'";
         "Project('{K}') = 'b', 'b.vcproj', '{GB}' Project('{K}') = 'c',";
         "   'c.vcxproj',   '{GC}'" ])
  = [ [ Fixture.quoted "Project('{K}')='a','x\a.vcxproj','{GA}'";
        "x\a.vcxproj"; "GA" ];
      [ Fixture.quoted "Project('{K}') = 'b', 'b.vcproj', '{GB}'";
        "b.vcproj"; "GB" ];
      [ Fixture.quoted
          ("Project('{K}') = 'c'," +:+ Fixture.newline
           +:+ "   'c.vcxproj',   '{GC}'");
        "c.vcxproj"; "GC" ] ].
Proof. vm_compute. reflexivity. Qed.

(** ** Facts about the library functions *)

#[local] Arguments String.append !_ _ / : simpl nomatch.

Section StringFacts.

Lemma string_app_assoc (a b c : string) : (a +:+ b) +:+ c = a +:+ (b +:+ c).
Proof. induction a as [|x a IH]; simpl; [done | by f_equal]. Qed.

Lemma string_app_empty_r (a : string) : a +:+ "" = a.
Proof. induction a as [|x a IH]; simpl; [done | by f_equal]. Qed.

Lemma HasPrefix_true (s p : string) :
  Strings.HasPrefix s p = true ↔ ∃ r, s = p +:+ r.
Proof.
  revert s. induction p as [|a p IH]; intros s.
  - destruct s; simpl; (split; [intros _; by eexists | done]).
  - destruct s as [|b s]; simpl.
    + split; [done | intros [r Hr]; discriminate].
    + rewrite andb_true_iff, IH. split.
      * intros [Hab [r ->]]. apply Ascii.eqb_eq in Hab as ->. by exists r.
      * intros [r Hr]. injection Hr as -> ->. split; [apply Ascii.eqb_refl|].
        by exists r.
Qed.

Lemma occurs_cons (sub : string) (c : ascii) (s : string) :
  occurs sub (String c s) ↔
  Strings.HasPrefix (String c s) sub = true ∨ occurs sub s.
Proof.
  split.
  - intros (pre & post & Heq). destruct pre as [|x pre]; simpl in Heq.
    + left. apply HasPrefix_true. by exists post.
    + right. injection Heq as _ ->. by exists pre, post.
  - intros [Hp | (pre & post & ->)].
    + apply HasPrefix_true in Hp as [r Hr]. exists "", r. by rewrite Hr.
    + by exists (String c pre), post.
Qed.

Lemma occurs_empty (sub : string) :
  occurs sub "" ↔ Strings.HasPrefix "" sub = true.
Proof.
  split.
  - intros (pre & post & Heq). destruct pre; [|discriminate].
    destruct sub; [done | discriminate].
  - intros Hp. apply HasPrefix_true in Hp as [r Hr]. by exists "", r.
Qed.

Lemma index_from_absent (i : Z) (s sub : string) :
  0 <= i → Strings.index_from i s sub = -1 ↔ ¬ occurs sub s.
Proof.
  revert i. induction s as [|c s IH]; intros i Hi.
  - rewrite occurs_empty. unfold Strings.index_from.
    destruct (Strings.HasPrefix "" sub).
    + split; [lia | intros Hn; by destruct Hn].
    + split; [done | intros _; lia].
  - rewrite occurs_cons. cbn [Strings.index_from].
    destruct (Strings.HasPrefix (String c s) sub) eqn:Hp.
    + split; [lia | intros Hn; destruct Hn; by left].
    + rewrite IH by lia. split; [intros Hn [?|?]; done | tauto].
Qed.

(** [Index] answers [-1] exactly when there is no occurrence. *)
Lemma Index_absent (s sub : string) :
  Strings.Index s sub = -1 ↔ ¬ occurs sub s.
Proof. by apply index_from_absent. Qed.

Lemma index_from_found (i : Z) (s sub : string) :
  0 <= i → Strings.index_from i s sub ≠ -1 →
  i <= Strings.index_from i s sub ∧
  ∃ pre post, s = pre +:+ sub +:+ post ∧
    Strings.drop (Z.to_nat (Strings.index_from i s sub - i)) s
    = sub +:+ post.
Proof.
  revert i. induction s as [|c s IH]; intros i Hi.
  - unfold Strings.index_from.
    destruct (Strings.HasPrefix "" sub) eqn:Hp; [|done]. intros _.
    split; [lia|]. apply HasPrefix_true in Hp as [r Hr].
    exists "", r. by rewrite Z.sub_diag.
  - cbn [Strings.index_from].
    destruct (Strings.HasPrefix (String c s) sub) eqn:Hp.
    + intros _. split; [lia|]. apply HasPrefix_true in Hp as [r Hr].
      exists "", r. by rewrite Z.sub_diag.
    + intros Hne. destruct (IH (i + 1)) as (Hle & pre & post & -> & Hd);
        [lia | done |].
      split; [lia|]. exists (String c pre), post. split; [done|].
      replace (Z.to_nat (Strings.index_from (i + 1) (pre +:+ sub +:+ post) sub - i))
        with (S (Z.to_nat (Strings.index_from (i + 1) (pre +:+ sub +:+ post) sub - (i + 1))))
        by lia.
      done.
Qed.

(** Where [Index] finds [sub], the text from there on begins with it. *)
Lemma Index_found (s sub : string) :
  Strings.Index s sub ≠ -1 →
  ∃ pre post, s = pre +:+ sub +:+ post ∧
    slice_from s (Strings.Index s sub) = sub +:+ post.
Proof.
  intros Hne. destruct (index_from_found 0 s sub) as (_ & pre & post & ? & Hd);
    [lia | done |].
  exists pre, post. split; [done|].
  unfold slice_from, Strings.Index. by rewrite Z.sub_0_r in Hd.
Qed.

Lemma Index_occurs (s sub : string) :
  Strings.Index s sub ≠ -1 → occurs sub s.
Proof. intros (pre & post & ? & _)%Index_found. by exists pre, post. Qed.

Lemma index_from_le (i : Z) (pre sub post : string) :
  0 <= i →
  Strings.index_from i (pre +:+ sub +:+ post) sub ≠ -1 ∧
  Strings.index_from i (pre +:+ sub +:+ post) sub
    <= i + Z.of_nat (Strings.length pre).
Proof.
  revert i. induction pre as [|c pre IH]; intros i Hi.
  - assert (Hp : Strings.HasPrefix (sub +:+ post) sub = true)
      by (apply HasPrefix_true; by exists post).
    cbn [String.append Strings.length].
    destruct (sub +:+ post); cbn [Strings.index_from]; rewrite Hp; lia.
  - cbn [String.append Strings.index_from Strings.length].
    destruct (Strings.HasPrefix _ sub); [lia|].
    destruct (IH (i + 1)); lia.
Qed.

Lemma drop_app_le (j : nat) (a b : string) :
  (j <= Strings.length a)%nat →
  Strings.drop j (a +:+ b) = Strings.drop j a +:+ b.
Proof.
  revert a. induction j as [|j IH]; intros a Hj; [done|].
  destruct a as [|c a]; cbn [Strings.length] in Hj; [lia|].
  cbn [String.append Strings.drop]. apply IH. lia.
Qed.

Lemma occurs_app_l (sub a b : string) : occurs sub b → occurs sub (a +:+ b).
Proof.
  intros (pre & post & ->). exists (a +:+ pre), post. by rewrite string_app_assoc.
Qed.

(** What follows a later occurrence of [sub] also follows the first one:
    a text absent after the occurrence [Index] finds is absent after
    every occurrence. *)
Lemma absent_after_first (s sub x : string) :
  ¬ occurs x (slice_from s (Strings.Index s sub)) →
  ∀ pre post, s = pre +:+ sub +:+ post → ¬ occurs x (sub +:+ post).
Proof.
  intros Hfirst pre post -> Hx. apply Hfirst.
  destruct (index_from_le 0 pre sub post) as [Hne Hle]; [lia|].
  destruct (index_from_found 0 (pre +:+ sub +:+ post) sub) as [Hge _];
    [lia | done |].
  unfold slice_from, Strings.Index.
  rewrite drop_app_le by lia. by apply occurs_app_l.
Qed.

Lemma all_chars_app P a b :
  all_chars P (a +:+ b) = all_chars P a && all_chars P b.
Proof. induction a as [|x a IH]; simpl; [done|]. by rewrite IH, andb_assoc. Qed.

Lemma all_chars_not_occurs (c : ascii) (s : string) :
  all_chars (Regexp.non c) s = true → ¬ occurs (String c "") s.
Proof.
  intros Hall (pre & post & ->).
  rewrite !all_chars_app in Hall. simpl in Hall. unfold Regexp.non in Hall.
  rewrite Ascii.eqb_refl in Hall. simpl in Hall.
  by rewrite andb_false_r in Hall.
Qed.

Lemma replace_char_all (s : string) (c d : ascii) (n : Z) :
  c ≠ d → n < 0 →
  all_chars (Regexp.non c)
    (Strings.Replace s (String c "") (String d "") n) = true.
Proof.
  intros Hcd. unfold Strings.Replace. revert n.
  induction s as [|x s IH]; intros n Hn; simpl; [done|].
  destruct (Z.eqb_spec n 0) as [?|_]; [lia|]. rewrite andb_true_r.
  destruct (Ascii.eqb c x) eqn:Hx; simpl.
  - rewrite IH, andb_true_r by lia. unfold Regexp.non.
    apply negb_true_iff, Ascii.eqb_neq. done.
  - rewrite IH, andb_true_r by lia. unfold Regexp.non. by rewrite Hx.
Qed.

(** A path normalized by line 97 holds no backslash. *)
Lemma normalized_no_backslash (s : string) :
  Strings.Index (Strings.Replace s "\" "/" (-1)) "\" = -1.
Proof.
  apply Index_absent, all_chars_not_occurs, replace_char_all; done.
Qed.

Lemma Replace_nonempty (s old new : string) (n : Z) :
  s ≠ "" → new ≠ "" → Strings.Replace s old new n ≠ "".
Proof.
  unfold Strings.Replace. destruct s as [|c s]; [done|]. intros _ Hnew.
  simpl. destruct (_ && _); [|done].
  destruct new; [done | discriminate].
Qed.

Lemma HasSuffix_nonempty (s suffix : string) :
  suffix ≠ "" → Strings.HasSuffix s suffix = true → s ≠ "".
Proof.
  intros Hs Hsuf ->. unfold Strings.HasSuffix in Hsuf.
  destruct suffix; [done|]. simpl in Hsuf. done.
Qed.

End StringFacts.

Lemma length_app (a b : string) :
  Strings.length (a +:+ b) = (Strings.length a + Strings.length b)%nat.
Proof. induction a as [|c a IH]; simpl; [done | by rewrite IH]. Qed.

Lemma drop_app_exact (a b : string) :
  Strings.drop (Strings.length a) (a +:+ b) = b.
Proof. induction a as [|c a IH]; simpl; [by destruct b | done]. Qed.

Lemma take_app_exact (a b : string) :
  Strings.take (Strings.length a) (a +:+ b) = a.
Proof. induction a as [|c a IH]; simpl; [by destruct b | by rewrite IH]. Qed.

Lemma take_matched (t s' : string) :
  Strings.take (Strings.length (t +:+ s') - Strings.length s') (t +:+ s') = t.
Proof.
  rewrite length_app.
  replace (Strings.length t + Strings.length s' - Strings.length s')%nat
    with (Strings.length t) by lia.
  apply take_app_exact.
Qed.

Section RegexpFacts.

Context {R : Type} (Q : R → Prop) (L : nat).
Local Abbreviation answers_in' := (answers_in Q L).

Lemma or_else_inv (a : option R) (b : unit → option R) (x : R) :
  Regexp.or_else a b = Some x → a = Some x ∨ b tt = Some x.
Proof. destruct a; simpl; auto. Qed.

Lemma star_greedy_answers p s caps k x :
  answers_in' k → length caps = L →
  Regexp.star_greedy p s caps k = Some x → Q x.
Proof.
  intros Hk Hl. induction s as [|c s IH]; simpl; [by apply Hk|].
  destruct (p c); [|by apply Hk].
  intros [H|H]%or_else_inv; [by apply IH | by eapply Hk].
Qed.

Lemma star_lazy_answers p s caps k x :
  answers_in' k → length caps = L →
  Regexp.star_lazy p s caps k = Some x → Q x.
Proof.
  intros Hk Hl. induction s as [|c s IH]; simpl.
  - intros [H|H]%or_else_inv; [by eapply Hk | done].
  - intros [H|H]%or_else_inv; [by eapply Hk|].
    destruct (p c); [by apply IH | done].
Qed.

End RegexpFacts.

Lemma run_answers {R : Type} (Q : R → Prop) (L : nat) (r : Regexp.syntax) :
  ∀ s caps k x, answers_in Q L k → length caps = L →
    Regexp.run r s caps k = Some x → Q x.
Proof.
  induction r as [l|p|p|p|r IH|r1 IH1 r2 IH2|r1 IH1 r2 IH2|n r IH|];
    intros s caps k x Hk Hl; simpl.
  - destruct (Strings.HasPrefix s l); [by apply Hk | done].
  - by apply (star_greedy_answers Q L).
  - destruct s as [|c s]; [done|]. destruct (p c); [|done].
    by apply (star_greedy_answers Q L).
  - destruct s as [|c s]; [done|]. destruct (p c); [|done].
    by apply (star_lazy_answers Q L).
  - intros [H|H]%or_else_inv; [by eapply IH | by eapply Hk].
  - apply IH1; [|done]. intros s' caps' y Hl'. by apply IH2.
  - intros [H|H]%or_else_inv; [by eapply IH1 | by eapply IH2].
  - apply IH; [|done]. intros s' caps' y Hl'. apply Hk.
    by rewrite length_insert.
  - destruct s; [by apply Hk | done].
Qed.

Lemma match_here_length r n s m :
  Regexp.match_here r n s = Some m → length m = S n.
Proof.
  unfold Regexp.match_here.
  apply (run_answers (λ m, length m = S n) (S n)).
  - intros s' caps x Hl [= <-]. by rewrite length_insert.
  - by rewrite length_replicate.
Qed.

(** Every submatch has the whole match and one string per group. *)
Lemma FindAllStringSubmatch_length r n s m :
  m ∈ Regexp.FindAllStringSubmatch r n s → length m = S n.
Proof.
  unfold Regexp.FindAllStringSubmatch. generalize 0%nat false.
  induction s as [|c s IH]; intros skip adj; simpl.
  - destruct skip; [|by intros ?%elem_of_nil].
    destruct (Regexp.match_here r n "") eqn:Hm; [|by intros ?%elem_of_nil].
    destruct adj; [by intros ?%elem_of_nil|].
    intros ->%list_elem_of_singleton. by eapply match_here_length.
  - destruct skip; [|apply IH].
    destruct (Regexp.match_here r n (String c s)) eqn:Hm; [|apply IH].
    destruct (Regexp.matched_length l).
    + destruct adj; [apply IH|].
      intros [->|?]%elem_of_cons; [by eapply match_here_length | by eapply IH].
    + intros [->|?]%elem_of_cons; [by eapply match_here_length | by eapply IH].
Qed.

(** ** The mapping table *)

Section MappingTable.

Implicit Types (t : list ProjectConfigMapping) (r : ProjectConfigMapping).
Implicit Types (g c pc : string) (sb : bool) (k : string * string).
Implicit Types (m : list string) (ms : list (list string)).

Lemma same_key_key g c r : same_key g c r ↔ key r = (g, c).
Proof.
  unfold same_key, key. split; [by intros [-> ->] | by intros [= -> ->]].
Qed.

Lemma addRow_nil g c pc sb : addRow [] g c pc sb = [mkMapping g c pc sb].
Proof. done. Qed.

(** The search of lines 139-151, one row at a time. *)
Lemma addRow_cons r t g c pc sb :
  addRow (r :: t) g c pc sb =
  if decide (same_key g c r) then mergeMapping pc sb r :: t
  else r :: addRow t g c pc sb.
Proof.
  unfold addRow. cbn [list_find]. case_decide; [done|].
  by destruct (list_find (same_key g c) t) as [[i y]|].
Qed.

Lemma key_mergeMapping pc sb r : key (mergeMapping pc sb r) = key r.
Proof.
  unfold mergeMapping. destruct sb; simpl;
    by destruct (String.eqb (ProjectConfig r) "").
Qed.

Lemma mergeMapping_fields pc sb r :
  ShouldBuild (mergeMapping pc sb r) = ShouldBuild r || sb ∧
  ProjectConfig (mergeMapping pc sb r) =
    (if decide (ProjectConfig r = "") then pc else ProjectConfig r).
Proof.
  unfold mergeMapping. destruct sb; simpl.
  - destruct (String.eqb_spec (ProjectConfig r) ""); simpl;
      rewrite orb_true_r; by case_decide.
  - destruct (String.eqb_spec (ProjectConfig r) ""); simpl;
      rewrite orb_false_r; by case_decide.
Qed.

Lemma keys_addRow t g c pc sb :
  key <$> addRow t g c pc sb =
  (key <$> t) ++ (if decide ((g, c) ∈ key <$> t) then [] else [(g, c)]).
Proof.
  induction t as [|r t IH]; [done|].
  rewrite addRow_cons. destruct (decide (same_key g c r)) as [Hk|Hk].
  - apply same_key_key in Hk. cbn [fmap list_fmap].
    rewrite key_mergeMapping, Hk, decide_True by apply list_elem_of_here.
    by rewrite app_nil_r.
  - rewrite same_key_key in Hk. cbn [fmap list_fmap] in *. rewrite IH.
    rewrite <- app_comm_cons.
    apply (f_equal (cons _)), (f_equal (app _)), decide_ext.
    rewrite elem_of_cons. intuition congruence.
Qed.

(** The table never holds two rows with one key. *)
Lemma NoDup_keys_addRow t g c pc sb :
  NoDup (key <$> t) → NoDup (key <$> addRow t g c pc sb).
Proof.
  intros Hnd. rewrite keys_addRow. case_decide as Hin.
  - by rewrite app_nil_r.
  - apply NoDup_app. split_and!; [done | | apply NoDup_singleton].
    intros x Hx ->%list_elem_of_singleton. done.
Qed.

Lemma addConfigMapping_row t m :
  length m = 4%nat →
  addConfigMapping t m =
  addRow t (rowKey m).1 (rowKey m).2 (rowValue m) (rowBuilds m).
Proof. intros Hl. unfold addConfigMapping. by rewrite Hl. Qed.

Lemma NoDup_keys_fold ms t :
  NoDup (key <$> t) → NoDup (key <$> foldl addConfigMapping t ms).
Proof.
  revert t. induction ms as [|m ms IH]; intros t Hnd; [done|].
  cbn [foldl]. apply IH. unfold addConfigMapping.
  destruct (4 <=? length m)%nat; [by apply NoDup_keys_addRow | done].
Qed.

Lemma rowsOf_cons k r t :
  rowsOf k (r :: t) = if decide (key r = k) then r :: rowsOf k t
                      else rowsOf k t.
Proof. unfold rowsOf. by rewrite filter_cons. Qed.

Lemma rowsOf_addRow_other k t g c pc sb :
  k ≠ (g, c) → rowsOf k (addRow t g c pc sb) = rowsOf k t.
Proof.
  intros Hk. induction t as [|r t IH].
  - rewrite addRow_nil, rowsOf_cons. by rewrite decide_False.
  - rewrite addRow_cons. destruct (decide (same_key g c r)) as [Hs|Hs].
    + apply same_key_key in Hs. rewrite !rowsOf_cons, key_mergeMapping.
      by rewrite !decide_False by congruence.
    + rewrite !rowsOf_cons, IH. done.
Qed.

(** On its own key, [addRow] merges into the first row or appends. *)
Lemma rowsOf_addRow_same t g c pc sb :
  rowsOf (g, c) (addRow t g c pc sb) =
  match rowsOf (g, c) t with
  | [] => [mkMapping g c pc sb]
  | r :: rest => mergeMapping pc sb r :: rest
  end.
Proof.
  induction t as [|r t IH].
  - rewrite addRow_nil, rowsOf_cons. by rewrite decide_True.
  - rewrite addRow_cons. destruct (decide (same_key g c r)) as [Hs|Hs].
    + apply same_key_key in Hs. rewrite !rowsOf_cons, key_mergeMapping.
      by rewrite !decide_True.
    + rewrite same_key_key in Hs. rewrite !rowsOf_cons, IH.
      by rewrite !decide_False.
Qed.

Lemma rowsOf_fold_other k ms t :
  Forall (λ m, rowKey m ≠ k) ms →
  rowsOf k (foldl addConfigMapping t ms) = rowsOf k t.
Proof.
  revert t. induction ms as [|m ms IH]; intros t Hms; [done|].
  apply Forall_cons in Hms as [Hm Hms]. cbn [foldl]. rewrite IH by done.
  unfold addConfigMapping. destruct (4 <=? length m)%nat; [|done].
  apply rowsOf_addRow_other. done.
Qed.

Lemma built_addRow_same t g c pc : built (g, c) (addRow t g c pc true).
Proof.
  induction t as [|r t IH].
  - exists (mkMapping g c pc true). split_and!; [apply list_elem_of_here|done..].
  - rewrite addRow_cons. destruct (decide (same_key g c r)) as [Hs|Hs].
    + exists (mergeMapping pc true r). apply same_key_key in Hs.
      split_and!; [apply list_elem_of_here | by rewrite key_mergeMapping |].
      destruct (mergeMapping_fields pc true r) as [-> _]. apply orb_true_r.
    + destruct IH as (x & Hx & Hk & Hb). exists x.
      split_and!; [by apply list_elem_of_further | done..].
Qed.

Lemma built_addRow_keep k t g c pc sb :
  built k t → built k (addRow t g c pc sb).
Proof.
  intros (x & Hx & Hk & Hb). induction t as [|r t IH];
    [by apply elem_of_nil in Hx|].
  rewrite addRow_cons. apply elem_of_cons in Hx as [<-|Hx].
  - destruct (decide (same_key g c x)) as [Hs|Hs].
    + exists (mergeMapping pc sb x).
      split_and!; [apply list_elem_of_here | by rewrite key_mergeMapping |].
      destruct (mergeMapping_fields pc sb x) as [-> _]. by rewrite Hb.
    + exists x. split_and!; [apply list_elem_of_here | done..].
  - destruct (decide (same_key g c r)) as [Hs|Hs].
    + exists x. split_and!; [by apply list_elem_of_further | done..].
    + destruct (IH Hx) as (y & Hy & Hky & Hby). exists y.
      split_and!; [by apply list_elem_of_further | done..].
Qed.

Lemma built_fold_keep k ms t :
  built k t → built k (foldl addConfigMapping t ms).
Proof.
  revert t. induction ms as [|m ms IH]; intros t Hb; [done|].
  cbn [foldl]. apply IH. unfold addConfigMapping.
  destruct (4 <=? length m)%nat; [by apply built_addRow_keep | done].
Qed.

Lemma rawRows_length content m : m ∈ rawRows content → length m = 4%nat.
Proof.
  unfold rawRows. destruct (_ || _); [by intros ?%elem_of_nil|].
  apply FindAllStringSubmatch_length.
Qed.

(** What [parseConfigurationMappings] does to the table, whatever it
    returns; its other fields stay. *)
Lemma parse_table content sln :
  ConfigMappings (parseConfigurationMappings content sln).1 =
  foldl addConfigMapping (ConfigMappings sln) (rawRows content).
Proof.
  unfold parseConfigurationMappings, rawRows.
  destruct (Strings.Index content startMarker =? -1); [done|].
  destruct (Strings.Index _ endMarker =? -1); done.
Qed.

Lemma parse_frame content sln :
  let sln' := (parseConfigurationMappings content sln).1 in
  SolutionDir sln' = SolutionDir sln ∧ ProjectList sln' = ProjectList sln ∧
  ProjectGUIDs sln' = ProjectGUIDs sln.
Proof.
  unfold parseConfigurationMappings.
  destruct (Strings.Index content startMarker =? -1); [done|].
  destruct (Strings.Index _ endMarker =? -1); done.
Qed.

End MappingTable.

(** ** The reference table *)

Section References.

Implicit Types (guids : gmap string string) (m : list string).
Implicit Types (ms : list (list string)) (p guid : string).

Lemma addProjectReference_lookup guids m p :
  addProjectReference guids m !! p =
  if decide (retained m = true ∧ storedPath m = p) then Some (sub m 2)
  else guids !! p.
Proof.
  unfold addProjectReference. fold (retained m). fold (storedPath m).
  destruct (retained m).
  - rewrite lookup_insert. case_decide as H1; case_decide as H2;
      try done; [by destruct H2 | by destruct H2].
  - rewrite decide_False; [done | by intros [? ?]].
Qed.

Lemma fold_references_mono ms guids p :
  is_Some (guids !! p) →
  is_Some (foldl addProjectReference guids ms !! p).
Proof.
  revert guids. induction ms as [|m ms IH]; intros guids Hp; [done|].
  cbn [foldl]. apply IH. rewrite addProjectReference_lookup.
  by case_decide.
Qed.

Lemma fold_references_retained ms guids m :
  m ∈ ms → retained m = true →
  is_Some (foldl addProjectReference guids ms !! storedPath m).
Proof.
  revert guids. induction ms as [|m' ms IH]; intros guids Hin Hr;
    [by apply elem_of_nil in Hin|].
  cbn [foldl]. apply elem_of_cons in Hin as [<-|Hin]; [|by apply IH].
  apply fold_references_mono. rewrite addProjectReference_lookup.
  by rewrite decide_True.
Qed.

Lemma fold_references_lookup ms guids p guid :
  foldl addProjectReference guids ms !! p = Some guid →
  guids !! p = Some guid ∨
  ∃ m, m ∈ ms ∧ retained m = true ∧ storedPath m = p ∧ sub m 2 = guid.
Proof.
  revert guids. induction ms as [|m ms IH]; intros guids Hp; [by left|].
  cbn [foldl] in Hp. apply IH in Hp as [Hp | (m' & Hin & ?)].
  - rewrite addProjectReference_lookup in Hp. case_decide as Hd.
    + right. exists m. destruct Hd as [? ?]. injection Hp as ?.
      split_and!; [apply list_elem_of_here | done..].
    + by left.
  - right. exists m'. split; [by apply list_elem_of_further | done].
Qed.

Lemma retained_suffix m :
  retained m = true → Strings.HasSuffix (sub m 1) ".vcxproj" = true.
Proof. unfold retained. by intros [_ ?]%andb_true_iff. Qed.

Lemma projectMatches_retained content m :
  m ∈ projectMatches content →
  retained m = Strings.HasSuffix (sub m 1) ".vcxproj".
Proof.
  intros Hl%FindAllStringSubmatch_length. unfold retained. by rewrite Hl.
Qed.

Lemma storedPath_nonempty m : retained m = true → storedPath m ≠ "".
Proof.
  intros Hr%retained_suffix. apply Replace_nonempty; [|done].
  eapply HasSuffix_nonempty; [|exact Hr]. done.
Qed.

Lemma parseProjectReferences_table content sln :
  ProjectGUIDs (parseProjectReferences content sln).1 =
  foldl addProjectReference (ProjectGUIDs sln) (projectMatches content).
Proof. unfold parseProjectReferences. by destruct (_ =? _)%nat. Qed.

Lemma parseProjectReferences_frame content sln :
  let sln' := (parseProjectReferences content sln).1 in
  SolutionDir sln' = SolutionDir sln ∧ ProjectList sln' = ProjectList sln ∧
  ConfigMappings sln' = ConfigMappings sln.
Proof. unfold parseProjectReferences. by destruct (_ =? _)%nat. Qed.

Lemma parseProjectReferences_error content sln :
  (parseProjectReferences content sln).2 =
  if decide (ProjectGUIDs (parseProjectReferences content sln).1 = ∅)
  then Some ErrNoProjects else None.
Proof.
  unfold parseProjectReferences. cbn [ProjectGUIDs set_ProjectGUIDs].
  destruct (Nat.eqb_spec (size (foldl addProjectReference (ProjectGUIDs sln)
                                  (projectMatches content))) 0) as [Hs|Hs];
    cbn [fst snd ProjectGUIDs set_ProjectGUIDs].
  - apply map_size_empty_iff in Hs. by rewrite decide_True.
  - rewrite decide_False; [done|]. by rewrite <- map_size_empty_iff.
Qed.

End References.

(** ** The parsers: claims C2, C4, C5 and C9 *)

(** Claim C2.  Two raw rows of the configuration subsection with the same
    (project identifier, solution configuration) key, [m1] processed before
    [m2], leave exactly one row for that key in the parsed table.  Its
    [ShouldBuild] is true if either raw row signals build participation, and
    its [ProjectConfig] is the value of [m1], the row processed first; the
    value of [m2] is taken only when that of [m1] is empty.  [m1] and [m2]
    are arbitrary, so the statement covers both orders of an
    active-configuration row and a build-participation row. *)
Theorem merge_law_of_two_rows (content : string) (sln : Sln)
  (m1 m2 : list string) (before between after : list (list string)) :
  rowsOf (rowKey m1) (ConfigMappings sln) = [] →
  rawRows content = before ++ m1 :: between ++ m2 :: after →
  rowKey m2 = rowKey m1 →
  Forall (λ m, rowKey m ≠ rowKey m1) (before ++ between ++ after) →
  rowsOf (rowKey m1)
    (ConfigMappings (parseConfigurationMappings content sln).1) =
  [ mkMapping (rowKey m1).1 (rowKey m1).2
      (if decide (rowValue m1 = "") then rowValue m2 else rowValue m1)
      (rowBuilds m1 || rowBuilds m2) ].
Proof.
  intros Hfresh Hrows Hkey Hothers.
  assert (Hlen : ∀ m, m ∈ rawRows content → length m = 4%nat)
    by apply rawRows_length.
  rewrite parse_table, Hrows. rewrite Hrows in Hlen.
  apply Forall_app in Hothers as [Hbefore Hothers].
  apply Forall_app in Hothers as [Hbetween Hafter].
  rewrite foldl_app. cbn [foldl]. rewrite foldl_app. cbn [foldl].
  rewrite rowsOf_fold_other by done.
  rewrite (addConfigMapping_row _ m2), Hkey.
  2:{ apply Hlen. rewrite elem_of_app, elem_of_cons, elem_of_app,
        elem_of_cons. auto. }
  destruct (rowKey m1) as [g c] eqn:Hk1. cbn [fst snd].
  rewrite rowsOf_addRow_same, rowsOf_fold_other by done.
  rewrite (addConfigMapping_row _ m1), Hk1.
  2:{ apply Hlen. rewrite elem_of_app, elem_of_cons. auto. }
  cbn [fst snd]. rewrite rowsOf_addRow_same, rowsOf_fold_other by done.
  rewrite Hfresh.
  destruct (mergeMapping_fields (rowValue m2) (rowBuilds m2)
              (mkMapping g c (rowValue m1) (rowBuilds m1))) as [Hsb Hpc].
  cbn [ShouldBuild ProjectConfig] in Hsb, Hpc.
  f_equal. rewrite <- Hsb, <- Hpc.
  pose proof (key_mergeMapping (rowValue m2) (rowBuilds m2)
                (mkMapping g c (rowValue m1) (rowBuilds m1))) as Hkm.
  destruct (mergeMapping _ _ _) as [g' c' pc' sb'].
  unfold key in Hkm. cbn in Hkm. by injection Hkm as -> ->.
Qed.

(** The merge law on the two documents of the specification: value
    [Debug|x64] on the active-configuration row, [Release|x64] on the
    build-participation row, in both orders. *)
Lemma merge_law_of_two_rows_witness :
  rowsOf ("G", "Debug|x64")
    (ConfigMappings
       (parseConfigurationMappings Fixture.active_first_sln zero_Sln).1) =
  [mkMapping "G" "Debug|x64" "Debug|x64" true] ∧
  rowsOf ("G", "Debug|x64")
    (ConfigMappings
       (parseConfigurationMappings Fixture.build_first_sln zero_Sln).1) =
  [mkMapping "G" "Debug|x64" "Release|x64" true].
Proof.
  split.
  - apply (merge_law_of_two_rows Fixture.active_first_sln zero_Sln
             Fixture.active_row Fixture.build_row [] [] []);
      [reflexivity | vm_compute; reflexivity | reflexivity | constructor].
  - apply (merge_law_of_two_rows Fixture.build_first_sln zero_Sln
             Fixture.build_row Fixture.active_row [] [] []);
      [reflexivity | vm_compute; reflexivity | reflexivity | constructor].
Defined.

(** Claim C9.  Build participation is decided by the test of line 135, a
    search for the text [Build.0] in the whole matched line: every raw row
    whose matched text holds [Build.0] anywhere leaves the row of its key
    with [ShouldBuild = true], whichever of the two suffixes matched; so
    does an active-configuration row whose value holds that text. *)
Theorem marker_anywhere_sets_ShouldBuild (content : string) (sln : Sln)
  (m : list string) :
  m ∈ rawRows content →
  Strings.Contains (sub m 0) "Build.0" = true →
  ∃ r, r ∈ ConfigMappings (parseConfigurationMappings content sln).1 ∧
       ProjectGUID r = sub m 1 ∧ SolutionConfig r = sub m 2 ∧
       ShouldBuild r = true.
Proof.
  intros Hin Hb. rewrite parse_table.
  assert (Hlen : ∀ x, x ∈ rawRows content → length x = 4%nat)
    by apply rawRows_length.
  cut (built (rowKey m)
         (foldl addConfigMapping (ConfigMappings sln) (rawRows content))).
  { intros (r & Hr & [= Hg Hc] & Hs). by exists r. }
  revert Hin Hlen. generalize (ConfigMappings sln).
  induction (rawRows content) as [|x ms IH]; intros t Hin Hlen;
    [by apply elem_of_nil in Hin|].
  cbn [foldl]. apply elem_of_cons in Hin as [<-|Hin].
  - apply built_fold_keep. rewrite addConfigMapping_row
      by apply Hlen, list_elem_of_here.
    unfold rowBuilds. rewrite Hb. apply built_addRow_same.
  - apply IH; [done|]. intros y Hy. by apply Hlen, list_elem_of_further.
Qed.

(** The row [{G}.Debug.ActiveCfg = Build.0|x64] is stored as taking part in
    the build. *)
Lemma marker_anywhere_sets_ShouldBuild_witness :
  ∃ r, r ∈ ConfigMappings
             (parseConfigurationMappings Fixture.marker_in_value_sln
                zero_Sln).1 ∧
       ProjectGUID r = "G" ∧ SolutionConfig r = "Debug" ∧
       ShouldBuild r = true.
Proof.
  apply (marker_anywhere_sets_ShouldBuild Fixture.marker_in_value_sln zero_Sln
           Fixture.marker_in_value_row).
  - vm_compute. apply list_elem_of_here.
  - vm_compute. reflexivity.
Defined.

(** Claim C5.  Without the start marker the parser returns no error and
    leaves the table as it is, empty when it was empty; with the start marker
    and no end marker at or after it, the parser returns the error of a
    malformed section and adds no row. *)
Theorem section_markers (content : string) (sln : Sln) :
  ConfigMappings sln = [] →
  (¬ occurs startMarker content →
   parseConfigurationMappings content sln = (sln, None) ∧
   ConfigMappings (parseConfigurationMappings content sln).1 = []) ∧
  (occurs startMarker content →
   (∀ pre post, content = pre +:+ startMarker +:+ post →
                ¬ occurs endMarker (startMarker +:+ post)) →
   parseConfigurationMappings content sln = (sln, Some ErrConfigSection) ∧
   ConfigMappings (parseConfigurationMappings content sln).1 = []).
Proof.
  intros Hempty. split.
  - intros Habsent%Index_absent. unfold parseConfigurationMappings.
    by rewrite Habsent.
  - intros Hpresent Hopen. unfold parseConfigurationMappings.
    destruct (Z.eqb_spec (Strings.Index content startMarker) (-1)) as [Hi|Hi];
      [by apply Index_absent in Hi|].
    destruct (Index_found _ _ Hi) as (pre & post & Hc & Hrest).
    rewrite Hrest. specialize (Hopen pre post Hc).
    apply Index_absent in Hopen. by rewrite Hopen.
Qed.

(** Both cases on documents: one without the section, one whose section is
    opened and not closed (the [EndGlobalSection] of an earlier section does
    not count). *)
Lemma section_markers_witness :
  (parseConfigurationMappings Fixture.no_section_sln zero_Sln
     = (zero_Sln, None) ∧
   ConfigMappings
     (parseConfigurationMappings Fixture.no_section_sln zero_Sln).1 = []) ∧
  (parseConfigurationMappings Fixture.open_section_sln zero_Sln
     = (zero_Sln, Some ErrConfigSection) ∧
   ConfigMappings
     (parseConfigurationMappings Fixture.open_section_sln zero_Sln).1 = []).
Proof.
  split.
  - apply (section_markers Fixture.no_section_sln zero_Sln); [reflexivity|].
    apply Index_absent. vm_compute. reflexivity.
  - apply (section_markers Fixture.open_section_sln zero_Sln); [reflexivity | |].
    + apply Index_occurs. vm_compute. discriminate.
    + apply absent_after_first, Index_absent. vm_compute. reflexivity.
Defined.

(** From an empty table, over the matches of the pattern of line 92: every
    entry comes from a match whose path ends with [.vcxproj], with the
    identifier of that match, and every such match has an entry; the key of
    an entry is the path with every backslash replaced by a slash, so no key
    holds a backslash; and the parser fails, with the error that no project
    was found, if and only if the table is empty after the filtering. *)
Lemma references_over_matches (content : string) (sln : Sln) :
  ProjectGUIDs sln = ∅ →
  let table := ProjectGUIDs (parseProjectReferences content sln).1 in
  let err := (parseProjectReferences content sln).2 in
  (∀ p guid, table !! p = Some guid →
     ∃ m, m ∈ projectMatches content ∧
          Strings.HasSuffix (sub m 1) ".vcxproj" = true ∧
          p = Strings.Replace (sub m 1) "\" "/" (-1) ∧ guid = sub m 2) ∧
  (∀ m, m ∈ projectMatches content →
     Strings.HasSuffix (sub m 1) ".vcxproj" = true →
     is_Some (table !! Strings.Replace (sub m 1) "\" "/" (-1))) ∧
  (∀ p, is_Some (table !! p) → Strings.Index p "\" = -1) ∧
  (err = Some ErrNoProjects ↔ table = ∅) ∧
  (err = None ↔ table ≠ ∅).
Proof.
  intros Hempty table err.
  assert (Hfrom : ∀ p guid, table !! p = Some guid →
     ∃ m, m ∈ projectMatches content ∧
          Strings.HasSuffix (sub m 1) ".vcxproj" = true ∧
          p = Strings.Replace (sub m 1) "\" "/" (-1) ∧ guid = sub m 2).
  { intros p guid Hp. subst table.
    rewrite parseProjectReferences_table, Hempty in Hp.
    apply fold_references_lookup in Hp as [Hp | (m & Hin & Hr & Hs & Hg)];
      [by rewrite lookup_empty in Hp|].
    exists m. split_and!; [done | by apply retained_suffix | done..]. }
  split_and!.
  - exact Hfrom.
  - intros m Hin Hsuf. subst table. rewrite parseProjectReferences_table.
    apply (fold_references_retained _ _ m); [done|].
    by rewrite (projectMatches_retained content).
  - intros p [guid Hp]. destruct (Hfrom p guid Hp) as (m & _ & _ & -> & _).
    apply normalized_no_backslash.
  - subst err table. rewrite parseProjectReferences_error.
    case_decide; split; done.
  - subst err table. rewrite parseProjectReferences_error.
    case_decide; split; done.
Qed.

(** ** The reference pattern on reference lines *)

Section Matcher.
Context {R : Type}.
Implicit Types (k : @Regexp.cont R) (s t rest : string) (caps : list string).

Lemma star_greedy_class p t rest caps k x :
  all_chars p t = true → stops p rest = true → k rest caps = Some x →
  Regexp.star_greedy p (t +:+ rest) caps k = Some x.
Proof.
  intros Hall Hstop Hk. induction t as [|c t IH].
  - cbn [String.append]. destruct rest as [|c rest]; [done|].
    cbn [Regexp.star_greedy]. cbn [stops] in Hstop.
    by apply negb_true_iff in Hstop as ->.
  - cbn [all_chars] in Hall. apply andb_true_iff in Hall as [Hc Hall].
    cbn [String.append Regexp.star_greedy]. rewrite Hc, (IH Hall). done.
Qed.

Lemma run_Lit_eval (l : string) r2 s caps k :
  Regexp.run (Regexp.Cat (Regexp.Lit l) r2) s caps k
  = if Strings.HasPrefix s l
    then Regexp.run r2 (Strings.drop (Strings.length l) s) caps k
    else None.
Proof. done. Qed.

Lemma run_Lit (l : string) r2 s caps k :
  Regexp.run (Regexp.Cat (Regexp.Lit l) r2) (l +:+ s) caps k
  = Regexp.run r2 s caps k.
Proof.
  rewrite run_Lit_eval, drop_app_exact.
  by rewrite (proj2 (HasPrefix_true (l +:+ s) l)) by by exists s.
Qed.

Lemma run_Star_class p r2 t rest caps k x :
  all_chars p t = true → stops p rest = true →
  Regexp.run r2 rest caps k = Some x →
  Regexp.run (Regexp.Cat (Regexp.Star p) r2) (t +:+ rest) caps k = Some x.
Proof. intros. cbn [Regexp.run]. by apply star_greedy_class. Qed.

Lemma run_Plus_class p r2 t rest caps k x :
  t ≠ "" → all_chars p t = true → stops p rest = true →
  Regexp.run r2 rest caps k = Some x →
  Regexp.run (Regexp.Cat (Regexp.Plus p) r2) (t +:+ rest) caps k = Some x.
Proof.
  intros Hne Hall Hstop Hk. destruct t as [|c t]; [done|].
  cbn [all_chars] in Hall. apply andb_true_iff in Hall as [Hc Hall].
  cbn [Regexp.run String.append]. rewrite Hc. by apply star_greedy_class.
Qed.

Lemma run_Group_Plus_class n p r2 t rest caps k x :
  t ≠ "" → all_chars p t = true → stops p rest = true →
  Regexp.run r2 rest (<[n := t]> caps) k = Some x →
  Regexp.run (Regexp.Cat (Regexp.Group n (Regexp.Plus p)) r2) (t +:+ rest)
    caps k = Some x.
Proof.
  intros Hne Hall Hstop Hk. destruct t as [|c t]; [done|].
  cbn [all_chars] in Hall. apply andb_true_iff in Hall as [Hc Hall].
  cbn [Regexp.run String.append]. rewrite Hc.
  apply star_greedy_class; [done..|].
  change (String c (t +:+ rest)) with (String c t +:+ rest).
  by rewrite take_matched.
Qed.

End Matcher.

Lemma run_projectRe {R : Type} (r : Reference) (rest : string)
  (caps : list string) (k : @Regexp.cont R) (x : R) :
  well_formed r →
  k rest (<[2%nat := refGUID r]> (<[1%nat := refPath r]> caps)) = Some x →
  Regexp.run projectRe (referenceText r rest) caps k = Some x.
Proof.
  intros ((Hk1 & Hk2) & (Hn1 & Hn2) & (Hp1 & Hp2) & (Hg1 & Hg2)
          & Hs1 & Hs2 & Hs3 & Hs4) Hk.
  unfold projectRe, referenceText. cbn [Regexp.seq foldr].
  run_literal.
  apply run_Plus_class; [done | done | reflexivity |].
  run_literal.
  apply run_Star_class; [done | reflexivity |].
  run_literal.
  apply run_Star_class; [done | reflexivity |].
  run_literal.
  apply run_Plus_class; [done | done | reflexivity |].
  run_literal.
  apply run_Star_class; [done | reflexivity |].
  run_literal.
  apply run_Group_Plus_class; [done | done | reflexivity |].
  run_literal.
  apply run_Star_class; [done | reflexivity |].
  run_literal.
  apply run_Group_Plus_class; [done | done | reflexivity |].
  run_literal.
  cbn [Regexp.run Strings.HasPrefix Strings.drop Strings.length].
  exact Hk.
Qed.

Lemma referenceText_app (r : Reference) (rest : string) :
  referenceLine r +:+ rest = referenceText r rest.
Proof.
  unfold referenceLine, referenceText.
  rewrite !string_app_assoc. cbn [String.append]. reflexivity.
Qed.

Lemma match_here_reference (r : Reference) (rest : string) :
  well_formed r →
  Regexp.match_here projectRe 2 (referenceLine r +:+ rest)
  = Some (referenceMatch r).
Proof.
  intros Hr. unfold Regexp.match_here.
  rewrite referenceText_app.
  apply run_projectRe; [done|].
  rewrite <- referenceText_app, take_matched. reflexivity.
Qed.

Lemma match_here_elsewhere (s : string) :
  Strings.HasPrefix s referenceOpen = false →
  Regexp.match_here projectRe 2 s = None.
Proof.
  intros Hs. unfold Regexp.match_here, projectRe. cbn [Regexp.seq foldr].
  rewrite run_Lit_eval.
  change ("Project(" +:+ dquote +:+ "{") with referenceOpen.
  by rewrite Hs.
Qed.

(** ** The search over a document of reference lines *)

Lemma find_all_skip r n (t rest : string) adj :
  Regexp.find_all r n (Strings.length t) adj (t +:+ rest)
  = Regexp.find_all r n 0 adj rest.
Proof.
  induction t as [|c t IH]; [done|].
  cbn [Strings.length String.append Regexp.find_all]. exact IH.
Qed.

Lemma find_all_match r n (m : list string) (c : ascii) (t rest : string) adj :
  Regexp.match_here r n (String c t +:+ rest) = Some m →
  nth 0 m "" = String c t →
  Regexp.find_all r n 0 adj (String c t +:+ rest)
  = m :: Regexp.find_all r n 0 true rest.
Proof.
  intros Hm Hlen. cbn [String.append Regexp.find_all] in *. rewrite Hm.
  unfold Regexp.matched_length. rewrite Hlen. cbn [Strings.length].
  by rewrite find_all_skip.
Qed.

Lemma find_all_gap r n (gap rest : string) adj :
  (∀ pre post, gap = pre +:+ post → post ≠ "" →
               Regexp.match_here r n (post +:+ rest) = None) →
  ∃ adj', Regexp.find_all r n 0 adj (gap +:+ rest)
          = Regexp.find_all r n 0 adj' rest.
Proof.
  revert adj. induction gap as [|c gap IH]; intros adj Hnone.
  - by exists adj.
  - destruct (IH false) as [adj' Hadj'].
    + intros pre post -> Hpost. by apply (Hnone (String c pre) post).
    + exists adj'. rewrite <- Hadj'.
      pose proof (Hnone "" (String c gap) eq_refl) as Hhere.
      cbn [String.append Regexp.find_all] in *. by rewrite Hhere.
Qed.

(** The opening of a reference line does not overlap itself: where it
    starts inside [post] and just before another opening, it lies within
    [post]. *)
Lemma referenceOpen_no_overlap (post rest : string) :
  post ≠ "" →
  rest = "" ∨ Strings.HasPrefix rest referenceOpen = true →
  Strings.HasPrefix (post +:+ rest) referenceOpen = true →
  Strings.HasPrefix post referenceOpen = true.
Proof.
  intros Hpost [-> | (t & ->)%HasPrefix_true].
  - by rewrite string_app_empty_r.
  - intros (u & Hu)%HasPrefix_true. apply HasPrefix_true.
    unfold referenceOpen, dquote in *. cbn [String.append] in Hu.
    destruct post as [|c post]; [done|]. clear Hpost.
    cbn [String.append] in Hu. injection Hu as -> Hu.
    do 9 (destruct post as [|? post]; cbn [String.append] in Hu;
          [discriminate Hu | injection Hu as -> Hu]).
    by exists post.
Qed.

Lemma referenceDocument_opens (items : list (Reference * string)) :
  referenceDocument items = ""
  ∨ Strings.HasPrefix (referenceDocument items) referenceOpen = true.
Proof.
  destruct items as [|[r gap] items]; [by left|]. right.
  apply HasPrefix_true. cbn [referenceDocument].
  unfold referenceLine, referenceText. rewrite !string_app_assoc.
  by eexists.
Qed.

Lemma occurs_suffix (sub pre post : string) :
  ¬ occurs sub (pre +:+ post) → Strings.HasPrefix post sub = false.
Proof.
  intros Hno. destruct (Strings.HasPrefix post sub) eqn:Hp; [|done].
  destruct Hno. apply occurs_app_l.
  apply HasPrefix_true in Hp as [t ->]. by exists "", t.
Qed.

Lemma find_all_referenceDocument (items : list (Reference * string)) adj :
  Forall (λ it, well_formed it.1 ∧ ¬ occurs referenceOpen it.2) items →
  Regexp.find_all projectRe 2 0 adj (referenceDocument items)
  = (λ it, referenceMatch it.1) <$> items.
Proof.
  intros Hitems. revert adj.
  induction Hitems as [|[r gap] items [Hr Hgap] _ IH]; intros adj.
  - cbn [referenceDocument Regexp.find_all].
    by rewrite match_here_elsewhere by done.
  - cbn [referenceDocument fmap list_fmap fst]. cbn [fst snd] in Hr, Hgap.
    assert (∃ c t, referenceLine r = String c t) as (c & t & Hline)
      by (by eexists _, _).
    rewrite Hline.
    erewrite find_all_match; [| by rewrite <- Hline, match_here_reference
                              | by rewrite <- Hline].
    f_equal.
    destruct (find_all_gap projectRe 2 gap (referenceDocument items) true)
      as [adj' ->]; [|apply IH].
    intros pre post -> Hpost. apply match_here_elsewhere.
    destruct (Strings.HasPrefix (post +:+ referenceDocument items)
                referenceOpen) eqn:Hp; [|done].
    apply referenceOpen_no_overlap in Hp;
      [| done | apply referenceDocument_opens].
    by rewrite (occurs_suffix _ pre post Hgap) in Hp.
Qed.

(** The matches of the reference pattern in a document of reference lines
    are the reference lines, in order. *)
Lemma projectMatches_document (gap0 : string)
  (items : list (Reference * string)) :
  ¬ occurs referenceOpen gap0 →
  Forall (λ it, well_formed it.1 ∧ ¬ occurs referenceOpen it.2) items →
  projectMatches (gap0 +:+ referenceDocument items)
  = (λ it, referenceMatch it.1) <$> items.
Proof.
  intros Hgap Hitems. unfold projectMatches, Regexp.FindAllStringSubmatch.
  destruct (find_all_gap projectRe 2 gap0 (referenceDocument items) false)
    as [adj' ->]; [|by apply find_all_referenceDocument].
  intros pre post -> Hpost. apply match_here_elsewhere.
  destruct (Strings.HasPrefix (post +:+ referenceDocument items)
              referenceOpen) eqn:Hp; [|done].
  apply referenceOpen_no_overlap in Hp;
    [| done | apply referenceDocument_opens].
  by rewrite (occurs_suffix _ pre post Hgap) in Hp.
Qed.

(** ** The reference parser on documents of reference lines *)

Lemma elem_of_referenceMatches (items : list (Reference * string))
  (m : list string) :
  m ∈ (λ it : Reference * string, referenceMatch it.1) <$> items ↔
  ∃ r, r ∈ items.*1 ∧ m = referenceMatch r.
Proof.
  rewrite list_elem_of_fmap. split.
  - intros ([r gap] & -> & Hin). exists r. split; [|done].
    apply list_elem_of_fmap. by exists (r, gap).
  - intros (r & ([r' gap] & -> & Hin)%list_elem_of_fmap & ->).
    by exists (r', gap).
Qed.

(** Claim C4.  On a document made of reference lines
    [Project("{kind}") = "name", "path", "{guid}"] and of other text in
    which no reference line opens, the reference parser, starting from an
    empty table, retains exactly the reference lines whose path ends with
    [.vcxproj]: a path is a key of the table if and only if it is the
    path of such a line with every backslash replaced by a slash, the
    identifier stored with it is that of such a line, and lines of other
    kinds leave no entry; the parser fails, with the error that no project
    was found, if and only if no reference line has such a path, and
    returns no error if and only if one has.  On every document, the
    entries are those of the matches of the pattern of line 92 whose path
    ends with [.vcxproj], no key holds a backslash, and the error is
    returned if and only if the table is empty after the filtering. *)
Theorem reference_parser_retains_vcxproj (content : string) (sln : Sln) :
  ProjectGUIDs sln = ∅ →
  let table := ProjectGUIDs (parseProjectReferences content sln).1 in
  let err := (parseProjectReferences content sln).2 in
  (∀ gap0 items,
     content = gap0 +:+ referenceDocument items →
     ¬ occurs referenceOpen gap0 →
     Forall (λ it, well_formed it.1 ∧ ¬ occurs referenceOpen it.2) items →
     (∀ p, is_Some (table !! p) ↔
        ∃ r, r ∈ items.*1 ∧
             Strings.HasSuffix (refPath r) ".vcxproj" = true ∧
             p = Strings.Replace (refPath r) "\" "/" (-1)) ∧
     (∀ p guid, table !! p = Some guid →
        ∃ r, r ∈ items.*1 ∧
             Strings.HasSuffix (refPath r) ".vcxproj" = true ∧
             p = Strings.Replace (refPath r) "\" "/" (-1) ∧
             guid = refGUID r) ∧
     (err = Some ErrNoProjects ↔
        ∀ r, r ∈ items.*1 →
             Strings.HasSuffix (refPath r) ".vcxproj" = false) ∧
     (err = None ↔
        ∃ r, r ∈ items.*1 ∧
             Strings.HasSuffix (refPath r) ".vcxproj" = true)) ∧
  (∀ p guid, table !! p = Some guid →
     ∃ m, m ∈ projectMatches content ∧
          Strings.HasSuffix (sub m 1) ".vcxproj" = true ∧
          p = Strings.Replace (sub m 1) "\" "/" (-1) ∧ guid = sub m 2) ∧
  (∀ m, m ∈ projectMatches content →
     Strings.HasSuffix (sub m 1) ".vcxproj" = true →
     is_Some (table !! Strings.Replace (sub m 1) "\" "/" (-1))) ∧
  (∀ p, is_Some (table !! p) → Strings.Index p "\" = -1) ∧
  (err = Some ErrNoProjects ↔ table = ∅) ∧
  (err = None ↔ table ≠ ∅).
Proof.
  intros Hempty table err.
  pose proof (references_over_matches content sln Hempty) as Hm.
  cbv zeta in Hm. fold table err in Hm.
  destruct Hm as (Hfrom & Hto & Hslash & Herr & Hok).
  split; [|done].
  intros gap0 items Hcontent Hgap Hitems.
  pose proof (projectMatches_document gap0 items Hgap Hitems) as Hms.
  rewrite <- Hcontent in Hms.
  assert (Hlines : ∀ p guid, table !! p = Some guid →
     ∃ r, r ∈ items.*1 ∧
          Strings.HasSuffix (refPath r) ".vcxproj" = true ∧
          p = Strings.Replace (refPath r) "\" "/" (-1) ∧
          guid = refGUID r).
  { intros p guid Hp. destruct (Hfrom p guid Hp) as (m & Hin & Hsuf & -> & ->).
    rewrite Hms in Hin.
    apply elem_of_referenceMatches in Hin as (r & Hr & ->). by exists r. }
  assert (Hkeys : ∀ r, r ∈ items.*1 →
     Strings.HasSuffix (refPath r) ".vcxproj" = true →
     is_Some (table !! Strings.Replace (refPath r) "\" "/" (-1))).
  { intros r Hr Hsuf. apply (Hto (referenceMatch r)); [|done].
    rewrite Hms. apply elem_of_referenceMatches. by exists r. }
  split_and!.
  - intros p. split.
    + intros [guid Hp]. destruct (Hlines p guid Hp) as (r & ? & ? & ? & _).
      by exists r.
    + intros (r & Hr & Hsuf & ->). by apply Hkeys.
  - exact Hlines.
  - rewrite Herr. split.
    + intros Htable r Hr.
      destruct (Strings.HasSuffix (refPath r) ".vcxproj") eqn:Hsuf; [|done].
      destruct (Hkeys r Hr Hsuf) as [guid Hguid].
      rewrite Htable in Hguid. by apply lookup_empty_Some in Hguid.
    + intros Hnone. apply map_empty. intros p.
      destruct (table !! p) as [guid|] eqn:Hp; [|done].
      destruct (Hlines p guid Hp) as (r & Hr & Hsuf & _).
      by rewrite (Hnone r Hr) in Hsuf.
  - rewrite Hok. split.
    + intros (p & guid & Hp)%map_choose.
      destruct (Hlines p guid Hp) as (r & ? & ? & _). by exists r.
    + intros (r & Hr & Hsuf) Htable.
      destruct (Hkeys r Hr Hsuf) as [guid Hguid].
      rewrite Htable in Hguid. by apply lookup_empty_Some in Hguid.
Qed.

(** Claim C4 on the solution of the end-to-end example, which has the
    reference line of a project and that of a folder: the project is
    retained under [lib/app.vcxproj], the folder is not. *)
Lemma reference_parser_retains_vcxproj_witness :
  let table :=
    ProjectGUIDs (parseProjectReferences Fixture.app_sln zero_Sln).1 in
  let err := (parseProjectReferences Fixture.app_sln zero_Sln).2 in
  let lines := app_references.*1 in
  (∀ p, is_Some (table !! p) ↔
     ∃ r, r ∈ lines ∧
          Strings.HasSuffix (refPath r) ".vcxproj" = true ∧
          p = Strings.Replace (refPath r) "\" "/" (-1)) ∧
  (∀ p guid, table !! p = Some guid →
     ∃ r, r ∈ lines ∧
          Strings.HasSuffix (refPath r) ".vcxproj" = true ∧
          p = Strings.Replace (refPath r) "\" "/" (-1) ∧
          guid = refGUID r) ∧
  (err = Some ErrNoProjects ↔
     ∀ r, r ∈ lines → Strings.HasSuffix (refPath r) ".vcxproj" = false) ∧
  (err = None ↔
     ∃ r, r ∈ lines ∧ Strings.HasSuffix (refPath r) ".vcxproj" = true).
Proof.
  destruct (reference_parser_retains_vcxproj Fixture.app_sln zero_Sln eq_refl)
    as [Hdocument _].
  apply (Hdocument app_preamble app_references).
  - vm_compute. reflexivity.
  - apply Index_absent. vm_compute. reflexivity.
  - repeat first
      [ apply Forall_nil_2
      | apply Forall_cons_2
      | split
      | discriminate
      | apply Index_absent; vm_compute; reflexivity
      | vm_compute; reflexivity ].
Defined.

Example example_app_references :
  Fixture.app_sln = app_preamble +:+ referenceDocument app_references.
Proof. vm_compute. reflexivity. Qed.

Example example_dense_references :
  projectMatches (referenceDocument dense_references)
  = [ referenceMatch (mkReference "K" "a" "src\a.vcxproj" "GA" "" "" "" "");
      referenceMatch (mkReference "K" "b" "b.vcproj" "GB" "" "" "" "") ] ∧
  map_to_list
    (ProjectGUIDs
       (parseProjectReferences (referenceDocument dense_references)
          zero_Sln).1)
  = [("src/a.vcxproj", "GA")].
Proof. vm_compute. done. Qed.

Example example_references_app :
  map_to_list (ProjectGUIDs (parseProjectReferences Fixture.app_sln zero_Sln).1)
  = [("lib/app.vcxproj", "ABCD")] ∧
  (parseProjectReferences Fixture.app_sln zero_Sln).2 = None.
Proof. vm_compute. done. Qed.

Example example_references_none :
  (parseProjectReferences
     (Fixture.document ["Project('{K}') = 'docs', 'docs', '{FFFF}'"])
     zero_Sln).2 = Some ErrNoProjects.
Proof. vm_compute. done. Qed.

(** ** The model and its queries: claims C3, C7, C8 and C10 *)

Lemma range_order_elem (m : gmap string string) (order : list string) :
  range_order m order → ∀ k, k ∈ order ↔ is_Some (m !! k).
Proof.
  intros [_ Hdom] k. rewrite <- elem_of_dom, <- Hdom.
  by rewrite elem_of_list_to_set.
Qed.

Lemma range_order_length (m : gmap string string) (order : list string) :
  range_order m order → length order = size m.
Proof.
  intros [Hnd Hdom]. rewrite <- size_dom, <- Hdom.
  by rewrite size_list_to_set.
Qed.

Lemma unique_row (t : list ProjectConfigMapping) (r1 r2 : ProjectConfigMapping) :
  NoDup (key <$> t) → r1 ∈ t → r2 ∈ t → key r1 = key r2 → r1 = r2.
Proof.
  induction t as [|x t IH]; intros Hnd H1 H2 Hk; [by apply elem_of_nil in H1|].
  cbn [fmap list_fmap] in Hnd. apply NoDup_cons in Hnd as [Hx Hnd].
  apply elem_of_cons in H1 as [->|H1]; apply elem_of_cons in H2 as [->|H2].
  - done.
  - destruct Hx. rewrite Hk. by apply list_elem_of_fmap_2.
  - destruct Hx. rewrite <- Hk. by apply list_elem_of_fmap_2.
  - by apply IH.
Qed.

Section Model.

Variable filepath_Abs : string -> string * option error.
Variable filepath_Dir : string -> string.
Variable filepath_Join : string -> string -> string.
Variable ReadFile : string -> result string.
Variable NewProject : string -> result Project.
Variable RemoveBadDefinition : string -> string.
Variable RemoveBadInclude : string -> string.

Local Abbreviation NewSln' :=
  (NewSln filepath_Abs filepath_Dir filepath_Join ReadFile NewProject).
Local Abbreviation loadProjects' := (loadProjects filepath_Join NewProject).
Local Abbreviation byProject := (GetProjectConfigByProject filepath_Join).
Local Abbreviation generate :=
  (CompileCommandsJson filepath_Join RemoveBadDefinition RemoveBadInclude).
Local Abbreviation blank' := (blank filepath_Abs filepath_Dir).
Local Abbreviation entryOf' :=
  (entryOf RemoveBadDefinition RemoveBadInclude).

Lemma loadProjects_frame order sln :
  let sln' := (loadProjects' order sln).1 in
  SolutionDir sln' = SolutionDir sln ∧
  ProjectGUIDs sln' = ProjectGUIDs sln ∧
  ConfigMappings sln' = ConfigMappings sln.
Proof.
  revert sln. induction order as [|p order IH]; intros sln; [done|].
  cbn [loadProjects].
  destruct (NewProject (filepath_Join (SolutionDir sln) p)); [|done].
  destruct (IH (set_ProjectList (ProjectList sln ++ [a]) sln))
    as (? & ? & ?).
  done.
Qed.

(** The loop of lines 48-54 stops at the first project that does not
    load; it ends without error only with one project per path visited. *)
Lemma loadProjects_result order sln sln' err :
  loadProjects' order sln = (sln', err) →
  match err with
  | None =>
      ∃ pros, ProjectList sln' = ProjectList sln ++ pros ∧
        Forall2 (λ p pro,
                   NewProject (filepath_Join (SolutionDir sln) p) = Ok pro)
                order pros
  | Some e =>
      ∃ p, p ∈ order ∧ NewProject (filepath_Join (SolutionDir sln) p) = Err e
  end.
Proof.
  revert sln. induction order as [|p order IH]; intros sln Hl.
  - injection Hl as <- <-. exists []. by rewrite app_nil_r.
  - cbn [loadProjects] in Hl.
    destruct (NewProject (filepath_Join (SolutionDir sln) p)) as [pro|e]
      eqn:Hp.
    + apply IH in Hl. cbn [SolutionDir ProjectList set_ProjectList] in Hl.
      destruct err as [e|].
      * destruct Hl as (q & Hq & He). exists q.
        split; [by apply list_elem_of_further | done].
      * destruct Hl as (pros & Hpl & Hall). exists (pro :: pros).
        split; [by rewrite Hpl, <- app_assoc | by constructor].
    + injection Hl as <- <-. exists p. split; [apply list_elem_of_here|done].
Qed.

(** What a construction without error went through. *)
Lemma NewSln_success order path sln :
  NewSln' order path = (sln, None) →
  ∃ content sln1,
    ReadFile path = Ok content ∧
    parseProjectReferences content (blank' path) = (sln1, None) ∧
    (parseConfigurationMappings content sln1).2 = None ∧
    loadProjects' order (parseConfigurationMappings content sln1).1
      = (sln, None).
Proof.
  unfold NewSln, parseSolutionFile, blank.
  destruct (filepath_Abs path) as [abs [e|]]; [done|]. cbn [fst].
  destruct (ReadFile path) as [content|e]; [|done].
  destruct (parseProjectReferences content _) as [sln1 [e|]] eqn:Href;
    [done|].
  destruct (parseConfigurationMappings content sln1) as [sln2 [e|]] eqn:Hc;
    [done|].
  intros Hl. exists content, sln1. by rewrite Hc.
Qed.

(** Two facts about every constructed model: no registered path is empty,
    and no two mapping rows have the same key. *)
Lemma NewSln_invariant order path sln :
  NewSln' order path = (sln, None) →
  (∀ p, is_Some (ProjectGUIDs sln !! p) → p ≠ "") ∧
  NoDup (key <$> ConfigMappings sln).
Proof.
  intros (content & sln1 & _ & Href & _ & Hload)%NewSln_success.
  destruct (loadProjects_frame order
              (parseConfigurationMappings content sln1).1) as (_ & Hg & Hm).
  rewrite Hload in Hg, Hm. cbn [fst] in Hg, Hm.
  destruct (parse_frame content sln1) as (_ & _ & Hg').
  pose proof (parseProjectReferences_table content (blank' path)) as Ht.
  destruct (parseProjectReferences_frame content (blank' path))
    as (_ & _ & Hm').
  rewrite Href in Ht, Hm'. cbn [fst] in Ht, Hm'. split.
  - intros p [guid Hp]. rewrite Hg, Hg', Ht in Hp.
    apply fold_references_lookup in Hp as [Hp | (m & _ & Hr & <- & _)];
      [by destruct (lookup_empty_Some (M:=gmap string) p guid)|].
    by apply storedPath_nonempty.
  - rewrite Hm, parse_table, Hm'. apply NoDup_keys_fold. constructor.
Qed.

(** Claim C3.  On a constructed model, [GetProjectConfig] returns an error
    exactly when the path is not a key of the reference table; for a
    registered path and a mapping row that matches the path's identifier
    and the solution configuration, it returns the [ProjectConfig] of that
    row; for a registered path that no row matches, it returns the
    solution configuration unchanged, without error. *)
Theorem GetProjectConfig_cases order path sln :
  NewSln' order path = (sln, None) →
  ∀ projectPath solutionConfig,
    ((GetProjectConfig sln projectPath solutionConfig).2 ≠ None ↔
     ProjectGUIDs sln !! projectPath = None) ∧
    (∀ guid row,
       ProjectGUIDs sln !! projectPath = Some guid →
       row ∈ ConfigMappings sln → same_key guid solutionConfig row →
       GetProjectConfig sln projectPath solutionConfig
       = (ProjectConfig row, None)) ∧
    (∀ guid,
       ProjectGUIDs sln !! projectPath = Some guid →
       (∀ row, row ∈ ConfigMappings sln →
               ¬ same_key guid solutionConfig row) →
       GetProjectConfig sln projectPath solutionConfig
       = (solutionConfig, None)).
Proof.
  intros [_ Hnd]%NewSln_invariant projectPath solutionConfig.
  unfold GetProjectConfig. split_and!.
  - destruct (ProjectGUIDs sln !! projectPath) as [guid|]; [|done].
    destruct (list_find _ _) as [[i row]|]; cbn [snd]; split; done.
  - intros guid row -> Hin Hkey.
    destruct (list_find _ _) as [[i row']|] eqn:Hf.
    + apply list_find_Some in Hf as (Hi & Hkey' & _).
      apply list_elem_of_lookup_2 in Hi.
      apply same_key_key in Hkey, Hkey'.
      by rewrite (unique_row _ row' row Hnd Hi Hin) by congruence.
    + apply list_find_None in Hf. rewrite Forall_forall in Hf.
      by destruct (Hf row Hin).
  - intros guid -> Hnone.
    destruct (list_find _ _) as [[i row']|] eqn:Hf; [|done].
    apply list_find_Some in Hf as (Hi & Hkey' & _).
    apply list_elem_of_lookup_2 in Hi. by destruct (Hnone row' Hi).
Qed.

Lemma findProjectPath_spec sln pro visit :
  (findProjectPath filepath_Join sln pro visit ∈ visit ∧
   filepath_Join (SolutionDir sln)
     (findProjectPath filepath_Join sln pro visit) = ProjectPath pro) ∨
  (findProjectPath filepath_Join sln pro visit = "" ∧
   ∀ p, p ∈ visit → filepath_Join (SolutionDir sln) p ≠ ProjectPath pro).
Proof.
  induction visit as [|q visit IH]; cbn [findProjectPath].
  - right. split; [done|]. by intros p ?%elem_of_nil.
  - destruct (String.eqb_spec (filepath_Join (SolutionDir sln) q)
                (ProjectPath pro)) as [Heq|Hne].
    + left. split; [apply list_elem_of_here | done].
    + destruct IH as [[Hin Hj] | [He Hall]].
      * left. split; [by apply list_elem_of_further | done].
      * right. split; [done|]. intros p [->|Hp]%elem_of_cons; auto.
Qed.

(** Claim C7.  On a constructed model, whatever order the range over the
    reference table follows, [GetProjectConfigByProject] returns no error.
    When no registered path joined to the solution directory is the
    project's path, it returns the solution configuration unchanged;
    otherwise it is the path-keyed query at a registered path that joins to
    the project's path, and that query returns no error. *)
Theorem GetProjectConfigByProject_never_fails order path sln :
  NewSln' order path = (sln, None) →
  ∀ visit pro solutionConfig,
    range_order (ProjectGUIDs sln) visit →
    (byProject visit sln pro solutionConfig).2 = None ∧
    ((∀ p, is_Some (ProjectGUIDs sln !! p) →
           filepath_Join (SolutionDir sln) p ≠ ProjectPath pro) →
     byProject visit sln pro solutionConfig = (solutionConfig, None)) ∧
    ((∃ p, is_Some (ProjectGUIDs sln !! p) ∧
           filepath_Join (SolutionDir sln) p = ProjectPath pro) →
     ∃ p, is_Some (ProjectGUIDs sln !! p) ∧
          filepath_Join (SolutionDir sln) p = ProjectPath pro ∧
          byProject visit sln pro solutionConfig
          = GetProjectConfig sln p solutionConfig ∧
          (GetProjectConfig sln p solutionConfig).2 = None).
Proof.
  intros Hnew visit pro solutionConfig Hvisit.
  destruct (NewSln_invariant _ _ _ Hnew) as [Hnonempty _].
  pose proof (range_order_elem _ _ Hvisit) as Helem.
  assert (Hreg : ∀ p, is_Some (ProjectGUIDs sln !! p) →
            (GetProjectConfig sln p solutionConfig).2 = None).
  { intros p [guid Hp]. unfold GetProjectConfig. rewrite Hp.
    by destruct (list_find _ _) as [[i row]|]. }
  unfold GetProjectConfigByProject.
  destruct (findProjectPath_spec sln pro visit) as [[Hin Hj] | [He Hall]].
  - apply Helem in Hin.
    destruct (String.eqb_spec (findProjectPath filepath_Join sln pro visit) "")
      as [Hempty|_]; [by destruct (Hnonempty _ Hin)|].
    split_and!.
    + by apply Hreg.
    + intros Hnone. by destruct (Hnone _ Hin).
    + intros _. eexists. split_and!; [exact Hin | done | done |].
      by apply Hreg.
  - rewrite He. cbn [String.eqb]. split_and!; [done | done |].
    intros (p & Hp & Hj). apply Helem in Hp. by destruct (Hall p Hp).
Qed.

(** Claim C8.  [NewSln] returns a model without error only when every
    registered path has been loaded: the project list then holds, for the
    paths in the order visited, the projects the loader returns, one per
    registered path.  If the load of some registered path fails,
    [NewSln] returns an error; when the solution file itself was read and
    parsed without error, the error returned is that of a failed load. *)
Theorem NewSln_no_partial_model order path sln err :
  NewSln' order path = (sln, err) →
  range_order (ProjectGUIDs sln) order →
  (err = None →
   length (ProjectList sln) = size (ProjectGUIDs sln) ∧
   Forall2 (λ p pro,
              NewProject (filepath_Join (SolutionDir sln) p) = Ok pro)
           order (ProjectList sln)) ∧
  (∀ p e, is_Some (ProjectGUIDs sln !! p) →
          NewProject (filepath_Join (SolutionDir sln) p) = Err e →
          err ≠ None) ∧
  (∀ e, err = Some e → (filepath_Abs path).2 = None →
        (parseSolutionFile ReadFile path (blank' path)).2 = None →
        ∃ p, is_Some (ProjectGUIDs sln !! p) ∧
             NewProject (filepath_Join (SolutionDir sln) p) = Err e).
Proof.
  intros Hnew Horder.
  pose proof (range_order_elem _ _ Horder) as Helem.
  pose proof (range_order_length _ _ Horder) as Hlen.
  unfold NewSln in Hnew. fold (blank' path) in Hnew.
  assert (Hload : ∀ sln0, ProjectList sln0 = [] →
            loadProjects' order sln0 = (sln, err) →
            (err = None →
             length (ProjectList sln) = size (ProjectGUIDs sln) ∧
             Forall2 (λ p pro,
                NewProject (filepath_Join (SolutionDir sln) p) = Ok pro)
               order (ProjectList sln)) ∧
            (∀ p e, is_Some (ProjectGUIDs sln !! p) →
               NewProject (filepath_Join (SolutionDir sln) p) = Err e →
               err ≠ None) ∧
            (∀ e, err = Some e →
               ∃ p, is_Some (ProjectGUIDs sln !! p) ∧
                 NewProject (filepath_Join (SolutionDir sln) p) = Err e)).
  { intros sln0 Hnil Hl.
    destruct (loadProjects_frame order sln0) as (Hd & _ & _).
    rewrite Hl in Hd. cbn [fst] in Hd.
    apply loadProjects_result in Hl. rewrite <- Hd in Hl.
    destruct err as [e|].
    - destruct Hl as (q & Hq & He). split_and!; [done | done |].
      intros e' [= <-]. exists q. split; [by apply Helem | done].
    - destruct Hl as (pros & Hpl & Hall). rewrite Hnil in Hpl.
      cbn [app] in Hpl. rewrite Hpl. split_and!.
      + intros _. split; [|done].
        by rewrite <- (Forall2_length _ _ _ Hall).
      + intros p e Hp%Helem He.
        apply list_elem_of_lookup in Hp as [i Hi].
        destruct (Forall2_lookup_l _ _ _ _ _ Hall Hi) as (pro & _ & Hok).
        congruence.
      + by intros ? [=]. }
  destruct (filepath_Abs path) as [abs [e0|]] eqn:Habs.
  { injection Hnew as <- <-. split_and!; [done | done |].
    intros e _ Hok. by cbn [snd] in Hok. }
  destruct (parseSolutionFile ReadFile path (blank' path))
    as [sln1 [e1|]] eqn:Hparse.
  { unfold blank in Hparse. rewrite Habs in Hparse. cbn [fst] in Hparse.
    rewrite Hparse in Hnew. injection Hnew as <- <-.
    split_and!; [done | done |]. intros e _ _ Hok. by cbn [snd] in Hok. }
  unfold blank in Hparse. rewrite Habs in Hparse. cbn [fst] in Hparse.
  rewrite Hparse in Hnew.
  assert (Hnil : ProjectList sln1 = []).
  { unfold parseSolutionFile in Hparse.
    destruct (ReadFile path) as [content|]; [|done].
    destruct (parseProjectReferences_frame content
                (set_ProjectGUIDs ∅ (set_SolutionDir (filepath_Dir abs)
                                       zero_Sln))) as (_ & Hp1 & _).
    destruct (parseProjectReferences content _) as [s1 [?|]]; [done|].
    destruct (parse_frame content s1) as (_ & Hp2 & _).
    destruct (parseConfigurationMappings content s1) as [s2 [?|]]; [done|].
    injection Hparse as <-. cbn [fst] in *. by rewrite Hp2, Hp1. }
  destruct (Hload sln1 Hnil Hnew) as (H1 & H2 & H3).
  split_and!; [done | done |]. intros e He _ _. by apply H3.
Qed.

(** *** The generator *)

Lemma foldl_flags (flag : string) (l : list string) (acc : string) :
  foldl (λ output v, output +:+ (flag +:+ v +:+ " ")) acc l =
  acc +:+ flags flag l.
Proof.
  revert acc. induction l as [|v l IH]; intros acc; cbn [foldl flags foldr].
  - by rewrite string_app_empty_r.
  - fold (flags flag l). rewrite IH. by rewrite !string_app_assoc.
Qed.

Lemma preappend_flags (sepedString flag : string) :
  preappend sepedString flag = flags flag (Strings.Split sepedString ";").
Proof. unfold preappend. by rewrite foldl_flags. Qed.

Lemma composeCommand_commandLine sln inc def f :
  composeCommand RemoveBadDefinition RemoveBadInclude sln inc def f =
  commandLine
    (Strings.Split (RemoveBadDefinition def) ";")
    (Strings.Split
       (RemoveBadInclude
          (Strings.Replace inc "$(SolutionDir)" (SolutionDir sln) (-1))) ";")
    f.
Proof. unfold composeCommand, commandLine. by rewrite !preappend_flags. Qed.

Lemma split_from_nonempty (skip : nat) (cur s sep : string) :
  Strings.split_from skip cur s sep ≠ [].
Proof.
  revert skip cur. induction s as [|c s IH]; intros skip cur; [done|].
  cbn [Strings.split_from]. destruct skip; [|apply IH].
  destruct (Strings.HasPrefix _ sep); [done | apply IH].
Qed.

Lemma flags_trailing_space (flag : string) (l : list string) :
  l ≠ [] → ∃ x, flags flag l = x +:+ " ".
Proof.
  destruct l as [|v l]; [done|]. intros _. revert v.
  induction l as [|w l IH]; intros v.
  - exists (flag +:+ v). cbn [flags foldr]. by rewrite string_app_assoc.
  - change (flags flag (v :: w :: l))
      with (flag +:+ v +:+ " " +:+ flags flag (w :: l)).
    destruct (IH w) as [x ->].
    exists (flag +:+ v +:+ " " +:+ x). by rewrite !string_app_assoc.
Qed.

(** Whatever the sanitizers return, two spaces stand before [-c]: the one
    that ends the last include flag and the one line 246 adds. *)
Lemma composeCommand_two_spaces sln inc def f :
  ∃ x, composeCommand RemoveBadDefinition RemoveBadInclude sln inc def f
       = x +:+ "  -c " +:+ f.
Proof.
  rewrite composeCommand_commandLine. unfold commandLine.
  destruct (flags_trailing_space "-I"
              (Strings.Split
                 (RemoveBadInclude
                    (Strings.Replace inc "$(SolutionDir)" (SolutionDir sln)
                       (-1))) ";")) as [x ->];
    [apply split_from_nonempty|].
  eexists. rewrite <- !string_app_assoc.
  rewrite (string_app_assoc _ " " " -c "). reflexivity.
Qed.

Lemma sourceLoop_result sln pro projectConfig files cmdList out :
  sourceLoop RemoveBadDefinition RemoveBadInclude sln pro projectConfig
    files cmdList = (out, None) →
  (files ≠ [] → ∃ x, FindConfig pro projectConfig = Ok x) ∧
  out = cmdList ++ (entryOf' sln pro projectConfig <$> files).
Proof.
  revert cmdList. induction files as [|f files IH]; intros cmdList Hs.
  - injection Hs as <-. by rewrite app_nil_r.
  - cbn [sourceLoop] in Hs.
    destruct (FindConfig pro projectConfig) as [[inc def]|e] eqn:Hc; [|done].
    apply IH in Hs as [_ ->]. split; [by eexists|].
    rewrite <- app_assoc. cbn [fmap list_fmap app]. do 2 f_equal.
    unfold entryOf, configOf. rewrite Hc. cbn [fst snd].
    by rewrite composeCommand_commandLine.
Qed.

Lemma projectLoop_result sched sln conf i pros cmdList out :
  projectLoop filepath_Join RemoveBadDefinition RemoveBadInclude sched sln
    conf i pros cmdList = (out, None) →
  out = cmdList ++
        concat (imap (λ j pro,
                  entryOf' sln pro
                    (effectiveConfig filepath_Join (sched (i + j)%nat) sln
                       pro conf)
                  <$> FindSourceFiles pro) pros) ∧
  ∀ j pro, pros !! j = Some pro → FindSourceFiles pro ≠ [] →
    ∃ x, FindConfig pro
           (effectiveConfig filepath_Join (sched (i + j)%nat) sln pro conf)
         = Ok x.
Proof.
  revert i cmdList. induction pros as [|pro pros IH]; intros i cmdList Hp.
  - injection Hp as <-. split; [by rewrite app_nil_r | by intros [|?] ? [=]].
  - cbn [projectLoop] in Hp.
    destruct (sourceLoop _ _ sln pro _ _ cmdList) as [cmds [e|]] eqn:Hs;
      [done|].
    apply sourceLoop_result in Hs as [Hok ->].
    apply IH in Hp as [-> Hrest]. split.
    + rewrite imap_cons. cbn [concat]. rewrite <- !app_assoc, Nat.add_0_r.
      do 3 f_equal. apply imap_ext. intros j x _. cbn.
      by rewrite Nat.add_succ_r.
    + intros [|j] x Hx Hfiles.
      * injection Hx as <-. rewrite Nat.add_0_r. by apply Hok.
      * rewrite Nat.add_succ_r. by apply (Hrest j x).
Qed.

(** Claim C1, amended.  When the generator returns without error, its
    output holds, project by project, one entry per source file, and the
    project's configuration has include and define data wherever there is
    a file.  The command of an entry is the compiler name followed by a
    space, every piece of the sanitized define string with [-D] before it
    and a space after it, a space, every piece of the sanitized include
    string with [-I] before it and a space after it, a space, [-c], a space
    and the file; the pieces are those between the semicolons. *)
Theorem command_of_every_source_file sched sln conf cmds :
  generate sched sln conf = (cmds, None) →
  cmds = concat (imap (λ i pro,
                   entryOf' sln pro
                     (effectiveConfig filepath_Join (sched i) sln pro conf)
                   <$> FindSourceFiles pro) (ProjectList sln)) ∧
  ∀ i pro, ProjectList sln !! i = Some pro → FindSourceFiles pro ≠ [] →
    ∃ x, FindConfig pro
           (effectiveConfig filepath_Join (sched i) sln pro conf) = Ok x.
Proof.
  unfold CompileCommandsJson. intros [-> Hok]%projectLoop_result.
  split; [done | exact Hok].
Qed.

(** *** Independence of [ShouldBuild] *)

Lemma find_same_but_ShouldBuild g c t1 t2 :
  Forall2 same_row_but_ShouldBuild t1 t2 →
  (ProjectConfig ∘ snd) <$> list_find (same_key g c) t1 =
  (ProjectConfig ∘ snd) <$> list_find (same_key g c) t2.
Proof.
  induction 1 as [|r1 r2 t1 t2 (Hg & Hc & Hp) _ IH]; [done|].
  cbn [list_find].
  destruct (decide (same_key g c r1)) as [[H1 H2]|Hn1],
           (decide (same_key g c r2)) as [[H3 H4]|Hn2].
  - cbn. by rewrite Hp.
  - destruct Hn2. split; congruence.
  - destruct Hn1. split; congruence.
  - destruct (list_find _ t1) as [[i1 x1]|], (list_find _ t2) as [[i2 x2]|];
      cbn in *; congruence.
Qed.

Lemma GetProjectConfig_same_but_ShouldBuild s1 s2 projectPath solutionConfig :
  same_but_ShouldBuild s1 s2 →
  GetProjectConfig s1 projectPath solutionConfig =
  GetProjectConfig s2 projectPath solutionConfig.
Proof.
  intros (_ & _ & Hg & Hrows). unfold GetProjectConfig. rewrite Hg.
  destruct (ProjectGUIDs s2 !! projectPath) as [guid|]; [|done].
  pose proof (find_same_but_ShouldBuild guid solutionConfig _ _ Hrows) as Hf.
  destruct (list_find _ (ConfigMappings s1)) as [[i1 x1]|],
           (list_find _ (ConfigMappings s2)) as [[i2 x2]|];
    cbn in Hf; congruence.
Qed.

Lemma findProjectPath_same_dir s1 s2 pro visit :
  SolutionDir s1 = SolutionDir s2 →
  findProjectPath filepath_Join s1 pro visit =
  findProjectPath filepath_Join s2 pro visit.
Proof.
  intros Hd. induction visit as [|p visit IH]; [done|].
  cbn [findProjectPath]. by rewrite Hd, IH.
Qed.

Lemma byProject_same_but_ShouldBuild s1 s2 visit pro solutionConfig :
  same_but_ShouldBuild s1 s2 →
  byProject visit s1 pro solutionConfig =
  byProject visit s2 pro solutionConfig.
Proof.
  intros Hs. unfold GetProjectConfigByProject.
  rewrite (findProjectPath_same_dir s1 s2) by apply Hs.
  destruct (String.eqb _ ""); [done|].
  by apply GetProjectConfig_same_but_ShouldBuild.
Qed.

Lemma sourceLoop_same_dir s1 s2 pro projectConfig files cmdList :
  SolutionDir s1 = SolutionDir s2 →
  sourceLoop RemoveBadDefinition RemoveBadInclude s1 pro projectConfig
    files cmdList =
  sourceLoop RemoveBadDefinition RemoveBadInclude s2 pro projectConfig
    files cmdList.
Proof.
  intros Hd. revert cmdList. induction files as [|f files IH];
    intros cmdList; [done|].
  cbn [sourceLoop]. destruct (FindConfig pro projectConfig) as [[inc def]|];
    [|done].
  unfold composeCommand. by rewrite Hd, IH.
Qed.

(** Claim C10.  The [ShouldBuild] fields are never read: on two models
    that differ at most in them, the two configuration queries and the
    generator return the same results on every input and along every
    iteration order. *)
Theorem ShouldBuild_never_observed s1 s2 :
  same_but_ShouldBuild s1 s2 →
  (∀ projectPath solutionConfig,
     GetProjectConfig s1 projectPath solutionConfig =
     GetProjectConfig s2 projectPath solutionConfig) ∧
  (∀ visit pro solutionConfig,
     byProject visit s1 pro solutionConfig =
     byProject visit s2 pro solutionConfig) ∧
  (∀ sched conf, generate sched s1 conf = generate sched s2 conf).
Proof.
  intros Hs. split_and!.
  - intros. by apply GetProjectConfig_same_but_ShouldBuild.
  - intros. by apply byProject_same_but_ShouldBuild.
  - intros sched conf. unfold CompileCommandsJson.
    assert (Hd : SolutionDir s1 = SolutionDir s2) by apply Hs.
    assert (Hl : ProjectList s2 = ProjectList s1) by (symmetry; apply Hs).
    rewrite Hl. clear Hl.
    generalize 0%nat (@nil CompileCommand).
    induction (ProjectList s1) as [|pro pros IH]; intros i cmdList; [done|].
    cbn [projectLoop]. unfold effectiveConfig.
    rewrite (byProject_same_but_ShouldBuild s1 s2) by done.
    rewrite (sourceLoop_same_dir s1 s2) by done.
    destruct (sourceLoop _ _ s2 pro _ _ cmdList) as [cmds [e|]]; [done|].
    apply IH.
Qed.

(** *** Determinism *)

Lemma findProjectPath_order sln pro visit1 visit2 :
  range_order (ProjectGUIDs sln) visit1 →
  range_order (ProjectGUIDs sln) visit2 →
  (∀ p q, is_Some (ProjectGUIDs sln !! p) → is_Some (ProjectGUIDs sln !! q) →
          filepath_Join (SolutionDir sln) p = ProjectPath pro →
          filepath_Join (SolutionDir sln) q = ProjectPath pro → p = q) →
  findProjectPath filepath_Join sln pro visit1 =
  findProjectPath filepath_Join sln pro visit2.
Proof.
  intros Hv1 Hv2 Hone.
  pose proof (range_order_elem _ _ Hv1) as H1.
  pose proof (range_order_elem _ _ Hv2) as H2.
  destruct (findProjectPath_spec sln pro visit1) as [[Hin1 Hj1] | [He1 Hall1]],
           (findProjectPath_spec sln pro visit2) as [[Hin2 Hj2] | [He2 Hall2]].
  - apply Hone; [by apply H1 | by apply H2 | done..].
  - apply H1, H2 in Hin1. by destruct (Hall2 _ Hin1).
  - apply H2, H1 in Hin2. by destruct (Hall1 _ Hin2).
  - by rewrite He1, He2.
Qed.

(** Claim C6, amended.  Two runs of the generator over one model with the
    same requested configuration return the same entries in the same
    order, whatever orders the ranges over the reference table follow,
    provided that for every project of the model at most one registered
    path joins to the project's path. *)
Theorem CompileCommandsJson_repeatable sched1 sched2 sln conf :
  (∀ i, range_order (ProjectGUIDs sln) (sched1 i)) →
  (∀ i, range_order (ProjectGUIDs sln) (sched2 i)) →
  (∀ pro p q, pro ∈ ProjectList sln →
     is_Some (ProjectGUIDs sln !! p) → is_Some (ProjectGUIDs sln !! q) →
     filepath_Join (SolutionDir sln) p = ProjectPath pro →
     filepath_Join (SolutionDir sln) q = ProjectPath pro → p = q) →
  generate sched1 sln conf = generate sched2 sln conf.
Proof.
  intros H1 H2. unfold CompileCommandsJson.
  generalize 0%nat (@nil CompileCommand).
  induction (ProjectList sln) as [|pro pros IH]; intros i cmdList Hone;
    [done|].
  cbn [projectLoop]. unfold effectiveConfig, GetProjectConfigByProject.
  rewrite (findProjectPath_order sln pro (sched1 i) (sched2 i));
    [| done | done | intros p q; apply Hone, list_elem_of_here].
  destruct (sourceLoop _ _ sln pro _ _ cmdList) as [cmds [e|]]; [done|].
  apply IH. intros pro' p q Hin. by apply Hone, list_elem_of_further.
Qed.

End Model.

(** ** The claims on the worked examples *)

Example example_app_model :
  SolutionDir Fixture.app_model.1 = "/work" ∧
  map_to_list (ProjectGUIDs Fixture.app_model.1)
  = [("lib/app.vcxproj", "ABCD")] ∧
  ConfigMappings Fixture.app_model.1
  = [mkMapping "ABCD" "Debug|x64" "Debug|Win32" false] ∧
  ProjectPath <$> ProjectList Fixture.app_model.1
  = ["/work/lib/app.vcxproj"] ∧
  Fixture.app_model.2 = None.
Proof. vm_compute. done. Qed.

Example example_GetProjectConfig :
  GetProjectConfig Fixture.app_model.1 "lib/app.vcxproj" "Debug|x64"
  = ("Debug|Win32", None) ∧
  GetProjectConfig Fixture.app_model.1 "lib/app.vcxproj" "Release|x64"
  = ("Release|x64", None) ∧
  GetProjectConfig Fixture.app_model.1 "lib\app.vcxproj" "Debug|x64"
  = ("", Some (ErrProjectNotFound "lib\app.vcxproj")).
Proof. vm_compute. done. Qed.

(** Claim C3 on the model of the end-to-end example. *)
Lemma GetProjectConfig_cases_witness :
  let sln := Fixture.app_model.1 in
  ((GetProjectConfig sln "lib/app.vcxproj" "Debug|x64").2 ≠ None ↔
   ProjectGUIDs sln !! "lib/app.vcxproj" = None) ∧
  (∀ guid row,
     ProjectGUIDs sln !! "lib/app.vcxproj" = Some guid →
     row ∈ ConfigMappings sln → same_key guid "Debug|x64" row →
     GetProjectConfig sln "lib/app.vcxproj" "Debug|x64"
     = (ProjectConfig row, None)) ∧
  (∀ guid,
     ProjectGUIDs sln !! "lib/app.vcxproj" = Some guid →
     (∀ row, row ∈ ConfigMappings sln → ¬ same_key guid "Debug|x64" row) →
     GetProjectConfig sln "lib/app.vcxproj" "Debug|x64"
     = ("Debug|x64", None)).
Proof.
  apply (GetProjectConfig_cases Filepath.Abs Filepath.Dir Filepath.Join
           Fixture.app_files Fixture.app_loader Fixture.app_order "app.sln").
  construction_by_evaluation.
Defined.

(** Claim C7 on the model of the end-to-end example and its project. *)
Lemma GetProjectConfigByProject_never_fails_witness :
  let sln := Fixture.app_model.1 in
  let pro := Fixture.app_project "/work/lib/app.vcxproj" in
  (GetProjectConfigByProject Filepath.Join Fixture.app_order sln pro
     "Debug|x64").2 = None ∧
  ((∀ p, is_Some (ProjectGUIDs sln !! p) →
         Filepath.Join (SolutionDir sln) p ≠ ProjectPath pro) →
   GetProjectConfigByProject Filepath.Join Fixture.app_order sln pro
     "Debug|x64" = ("Debug|x64", None)) ∧
  ((∃ p, is_Some (ProjectGUIDs sln !! p) ∧
         Filepath.Join (SolutionDir sln) p = ProjectPath pro) →
   ∃ p, is_Some (ProjectGUIDs sln !! p) ∧
        Filepath.Join (SolutionDir sln) p = ProjectPath pro ∧
        GetProjectConfigByProject Filepath.Join Fixture.app_order sln pro
          "Debug|x64" = GetProjectConfig sln p "Debug|x64" ∧
        (GetProjectConfig sln p "Debug|x64").2 = None).
Proof.
  apply (GetProjectConfigByProject_never_fails Filepath.Abs Filepath.Dir
           Filepath.Join Fixture.app_files Fixture.app_loader
           Fixture.app_order "app.sln").
  - construction_by_evaluation.
  - range_order_by_evaluation.
Defined.

Example example_GetProjectConfigByProject :
  GetProjectConfigByProject Filepath.Join Fixture.app_order
    Fixture.app_model.1 (Fixture.app_project "/work/lib/app.vcxproj")
    "Debug|x64" = ("Debug|Win32", None) ∧
  GetProjectConfigByProject Filepath.Join Fixture.app_order
    Fixture.app_model.1 (Fixture.app_project "/elsewhere/app.vcxproj")
    "Debug|x64" = ("Debug|x64", None).
Proof. vm_compute. done. Qed.

(** Claim C8 on two projects of which the second does not load: the
    construction returns the loader's error. *)
Lemma NewSln_no_partial_model_witness :
  let sln := Fixture.pair_model.1 in
  let err := Fixture.pair_model.2 in
  (err = None →
   length (ProjectList sln) = size (ProjectGUIDs sln) ∧
   Forall2 (λ p pro,
              Fixture.pair_loader (Filepath.Join (SolutionDir sln) p) = Ok pro)
           Fixture.pair_order (ProjectList sln)) ∧
  (∀ p e, is_Some (ProjectGUIDs sln !! p) →
          Fixture.pair_loader (Filepath.Join (SolutionDir sln) p) = Err e →
          err ≠ None) ∧
  (∀ e, err = Some e → (Filepath.Abs "pair.sln").2 = None →
        (parseSolutionFile Fixture.pair_files "pair.sln"
           (blank Filepath.Abs Filepath.Dir "pair.sln")).2 = None →
        ∃ p, is_Some (ProjectGUIDs sln !! p) ∧
             Fixture.pair_loader (Filepath.Join (SolutionDir sln) p) = Err e).
Proof.
  apply (NewSln_no_partial_model Filepath.Abs Filepath.Dir Filepath.Join
           Fixture.pair_files Fixture.pair_loader Fixture.pair_order
           "pair.sln").
  - apply surjective_pairing.
  - range_order_by_evaluation.
Defined.

Example example_pair_model :
  Fixture.pair_model.2 = Some (ErrOther "unreadable") ∧
  ProjectPath <$> ProjectList Fixture.both_model.1
  = ["/work/a.vcxproj"; "/work/b.vcxproj"] ∧
  Fixture.both_model.2 = None.
Proof. vm_compute. done. Qed.

(** Claim C10 on two models that differ in one [ShouldBuild] field. *)
Lemma ShouldBuild_never_observed_witness :
  (∀ projectPath solutionConfig,
     GetProjectConfig Fixture.built_model projectPath solutionConfig =
     GetProjectConfig Fixture.unbuilt_model projectPath solutionConfig) ∧
  (∀ visit pro solutionConfig,
     GetProjectConfigByProject Filepath.Join visit Fixture.built_model pro
       solutionConfig =
     GetProjectConfigByProject Filepath.Join visit Fixture.unbuilt_model pro
       solutionConfig) ∧
  (∀ sched conf,
     CompileCommandsJson Filepath.Join Fixture.sanitize Fixture.sanitize sched
       Fixture.built_model conf =
     CompileCommandsJson Filepath.Join Fixture.sanitize Fixture.sanitize sched
       Fixture.unbuilt_model conf).
Proof.
  apply (ShouldBuild_never_observed Filepath.Join Fixture.sanitize
           Fixture.sanitize Fixture.built_model Fixture.unbuilt_model).
  split_and!; [reflexivity | reflexivity | reflexivity |].
  constructor; [|constructor]. split_and!; reflexivity.
Defined.

(** ** The generator: claims C1 and C6 *)

(** Claim C1, as stated, fails on its own example: the command of
    [main.cpp] has two spaces after the last define flag and two after the
    last include flag, since [preappend] ends every flag with a space and
    line 246 adds another between the groups. *)
Lemma end_to_end_command_has_double_spaces :
  Fixture.app_model.2 = None ∧
  Fixture.generate Fixture.app_order Fixture.app_model.1 "Debug|x64"
  = ([mkCommand "lib" "main.cpp"
        "clang-cl.exe -DFOO -DBAR  -Iinc1 -Iinc2  -c main.cpp"], None) ∧
  Cmd <$> (Fixture.generate Fixture.app_order Fixture.app_model.1
             "Debug|x64").1
  ≠ ["clang-cl.exe -DFOO -DBAR -Iinc1 -Iinc2 -c main.cpp"].
Proof. split_and!; [by vm_compute | by vm_compute | by vm_compute]. Qed.

(** The amended claim C1 on the end-to-end example. *)
Lemma command_of_every_source_file_witness :
  let sln := Fixture.app_model.1 in
  let sched := λ _ : nat, Fixture.app_order in
  let cmds := (Fixture.generate Fixture.app_order sln "Debug|x64").1 in
  cmds = concat (imap (λ i pro,
                   entryOf Fixture.sanitize Fixture.sanitize sln pro
                     (effectiveConfig Filepath.Join (sched i) sln pro
                        "Debug|x64")
                   <$> FindSourceFiles pro) (ProjectList sln)) ∧
  ∀ i pro, ProjectList sln !! i = Some pro → FindSourceFiles pro ≠ [] →
    ∃ x, FindConfig pro
           (effectiveConfig Filepath.Join (sched i) sln pro "Debug|x64")
         = Ok x.
Proof.
  apply (command_of_every_source_file Filepath.Join Fixture.sanitize
           Fixture.sanitize (λ _, Fixture.app_order) Fixture.app_model.1
           "Debug|x64").
  construction_by_evaluation.
Defined.

Example example_commandLine :
  commandLine ["FOO"; "BAR"] ["inc1"; "inc2"] "main.cpp"
  = "clang-cl.exe -DFOO -DBAR  -Iinc1 -Iinc2  -c main.cpp" ∧
  commandLine [""] [""] "main.cpp" = "clang-cl.exe -D  -I  -c main.cpp".
Proof. vm_compute. done. Qed.

(** Claim C6, as stated, fails on a model whose reference table holds two
    paths of one project file: the two runs differ when the ranges of
    [GetProjectConfigByProject] visit the two paths in different orders. *)
Lemma generation_depends_on_iteration_order :
  Fixture.alias_model.2 = None ∧
  range_order (ProjectGUIDs Fixture.alias_model.1) Fixture.alias_order1 ∧
  range_order (ProjectGUIDs Fixture.alias_model.1) Fixture.alias_order2 ∧
  Fixture.generate Fixture.alias_order1 Fixture.alias_model.1 "Debug"
  ≠ Fixture.generate Fixture.alias_order2 Fixture.alias_model.1 "Debug".
Proof.
  split_and!; [by vm_compute | range_order_by_evaluation..
              | by vm_compute].
Qed.

Example example_alias_runs :
  Cmd <$> (Fixture.generate Fixture.alias_order1 Fixture.alias_model.1
             "Debug").1
  = ["clang-cl.exe -DFirst  -Iinc  -c main.cpp";
     "clang-cl.exe -DFirst  -Iinc  -c main.cpp"] ∧
  Cmd <$> (Fixture.generate Fixture.alias_order2 Fixture.alias_model.1
             "Debug").1
  = ["clang-cl.exe -DSecond  -Iinc  -c main.cpp";
     "clang-cl.exe -DSecond  -Iinc  -c main.cpp"].
Proof. vm_compute. done. Qed.

(** The amended claim C6 on a model of two projects, with the two orders of
    its two paths. *)
Lemma CompileCommandsJson_repeatable_witness :
  CompileCommandsJson Filepath.Join Fixture.sanitize Fixture.sanitize
    (λ _, Fixture.pair_order) Fixture.both_model.1 "Debug" =
  CompileCommandsJson Filepath.Join Fixture.sanitize Fixture.sanitize
    (λ _, Fixture.pair_order_rev) Fixture.both_model.1 "Debug".
Proof.
  assert (Hord : range_order (ProjectGUIDs Fixture.both_model.1)
                   Fixture.pair_order) by range_order_by_evaluation.
  apply (CompileCommandsJson_repeatable Filepath.Join Fixture.sanitize
           Fixture.sanitize (λ _, Fixture.pair_order)
           (λ _, Fixture.pair_order_rev) Fixture.both_model.1 "Debug").
  - intros _. exact Hord.
  - intros _. range_order_by_evaluation.
  - intros pro p q _ Hp Hq Hjp Hjq.
    apply (range_order_elem _ _ Hord) in Hp, Hq.
    rewrite <- Hjq in Hjp. clear Hjq Hord.
    apply elem_of_cons in Hp as [->|Hp]; apply elem_of_cons in Hq as [->|Hq];
      try apply list_elem_of_singleton in Hp as ->;
      try apply list_elem_of_singleton in Hq as ->;
      try reflexivity; vm_compute in Hjp; discriminate.
Defined.

(** * Further properties of the code *)

(** ** Further facts about strings *)

Lemma take_drop (n : nat) (s : string) :
  Strings.take n s +:+ Strings.drop n s = s.
Proof.
  revert s. induction n as [|n IH]; intros [|c s]; simpl; try done.
  by rewrite IH.
Qed.

Lemma length_drop (n : nat) (s : string) :
  Strings.length (Strings.drop n s) = (Strings.length s - n)%nat.
Proof.
  revert s. induction n as [|n IH]; intros [|c s]; simpl; try done; lia.
Qed.

Lemma app_inv_same_length (a a' b b' : string) :
  a +:+ b = a' +:+ b' → Strings.length a = Strings.length a' →
  a = a' ∧ b = b'.
Proof.
  revert a'. induction a as [|c a IH]; intros [|c' a']; simpl; try done.
  intros [= -> Heq] [= Hl]. destruct (IH a' Heq Hl) as [-> ->]. done.
Qed.

Lemma HasSuffix_true (s suffix : string) :
  Strings.HasSuffix s suffix = true ↔ ∃ pre, s = pre +:+ suffix.
Proof.
  unfold Strings.HasSuffix. rewrite andb_true_iff, Nat.leb_le, String.eqb_eq.
  split.
  - intros [Hle Hd].
    remember (Strings.length s - Strings.length suffix)%nat as k.
    exists (Strings.take k s). rewrite <- Hd. symmetry. apply take_drop.
  - intros [pre ->]. rewrite length_app. split; [lia|].
    replace (Strings.length pre + Strings.length suffix - Strings.length suffix)%nat
      with (Strings.length pre) by lia.
    apply drop_app_exact.
Qed.

Lemma map_chars_app f (a b : string) :
  map_chars f (a +:+ b) = map_chars f a +:+ map_chars f b.
Proof. induction a as [|c a IH]; simpl; [done | by rewrite IH]. Qed.

Lemma map_chars_id f (s : string) :
  all_chars (λ c, bool_decide (f c = c)) s = true → map_chars f s = s.
Proof.
  induction s as [|c s IH]; simpl; [done|].
  intros [Hc Hs]%andb_true_iff. apply bool_decide_eq_true in Hc.
  by rewrite Hc, IH.
Qed.

(** Replacing every occurrence of one character by another is a
    character-wise substitution. *)
Lemma Replace_char (s : string) (c d : ascii) (n : Z) :
  n < 0 →
  Strings.Replace s (String c "") (String d "") n
  = map_chars (λ x, if Ascii.eqb c x then d else x) s.
Proof.
  unfold Strings.Replace. revert n.
  induction s as [|x s IH]; intros n Hn; simpl; [done|].
  destruct (Z.eqb_spec n 0) as [?|_]; [lia|]. rewrite andb_true_r.
  destruct (Ascii.eqb c x); simpl; by rewrite IH by lia.
Qed.

Lemma not_occurs_all_chars (c : ascii) (s : string) :
  ¬ occurs (String c "") s → all_chars (Regexp.non c) s = true.
Proof.
  induction s as [|x s IH]; [done|]. rewrite occurs_cons. intros Hn. simpl.
  rewrite IH by tauto. rewrite andb_true_r. unfold Regexp.non.
  destruct (Ascii.eqb c x) eqn:Hx; [|done]. destruct Hn. left. simpl.
  by rewrite Hx.
Qed.

Lemma rev_append_app (s acc : string) :
  Strings.rev_append s acc = Strings.rev s +:+ acc.
Proof.
  unfold Strings.rev. revert acc. induction s as [|c s IH]; intros acc; simpl;
    [done|].
  rewrite IH, (IH (String c "")). by rewrite string_app_assoc.
Qed.

Lemma rev_cons (c : ascii) (s : string) :
  Strings.rev (String c s) = Strings.rev s +:+ String c "".
Proof. unfold Strings.rev at 1. simpl. apply rev_append_app. Qed.

(** The index [Index] returns is that of an occurrence. *)
Lemma index_from_found_at (i : Z) (s sub : string) :
  0 <= i → Strings.index_from i s sub ≠ -1 →
  ∃ pre post, s = pre +:+ sub +:+ post ∧
    Strings.index_from i s sub = i + Z.of_nat (Strings.length pre).
Proof.
  revert i. induction s as [|c s IH]; intros i Hi.
  - unfold Strings.index_from.
    destruct (Strings.HasPrefix "" sub) eqn:Hp; [|done]. intros _.
    apply HasPrefix_true in Hp as [r Hr]. exists "", r. split; [done|].
    simpl. lia.
  - cbn [Strings.index_from].
    destruct (Strings.HasPrefix (String c s) sub) eqn:Hp.
    + intros _. apply HasPrefix_true in Hp as [r Hr]. exists "", r.
      split; [done|]. simpl. lia.
    + intros Hne. destruct (IH (i + 1)) as (pre & post & -> & Hd);
        [lia | done |].
      exists (String c pre), post. split; [done|]. rewrite Hd. simpl. lia.
Qed.

Lemma Index_first_occurrence (sub pre s : string) :
  first_occurrence sub pre s →
  Strings.Index s sub = Z.of_nat (Strings.length pre).
Proof.
  intros [[post ->] Hmin].
  destruct (index_from_le 0 pre sub post) as [Hne Hle]; [lia|].
  destruct (index_from_found_at 0 _ sub ltac:(lia) Hne)
    as (pre' & post' & Heq & Hat).
  specialize (Hmin pre' post' Heq). unfold Strings.Index. lia.
Qed.

Lemma first_occurrence_Index (sub pre post : string) :
  Strings.Index (pre +:+ sub +:+ post) sub = Z.of_nat (Strings.length pre) →
  first_occurrence sub pre (pre +:+ sub +:+ post).
Proof.
  intros Hi. split; [by exists post|]. intros pre' post' Heq.
  destruct (index_from_le 0 pre' sub post') as [_ Hle]; [lia|].
  rewrite <- Heq in Hle. unfold Strings.Index in Hi. lia.
Qed.

(** ** Further facts about the mapping table *)

Section MappingTableMore.

Implicit Types (t : list ProjectConfigMapping) (r : ProjectConfigMapping).
Implicit Types (g c pc : string) (sb : bool) (k : string * string).
Implicit Types (m : list string) (ms : list (list string)).

Lemma mergeMapping_eq pc sb r :
  mergeMapping pc sb r =
  mkMapping (ProjectGUID r) (SolutionConfig r)
    (if decide (ProjectConfig r = "") then pc else ProjectConfig r)
    (ShouldBuild r || sb).
Proof.
  destruct (mergeMapping_fields pc sb r) as [Hs Hp].
  pose proof (key_mergeMapping pc sb r) as Hk.
  destruct (mergeMapping pc sb r) as [g' c' pc' sb']. unfold key in Hk.
  cbn in *. by injection Hk as -> ->; subst.
Qed.

Lemma mergeMapping_fixed pc sb r :
  mergeMapping pc sb r = r ↔
  (sb = true → ShouldBuild r = true) ∧ (ProjectConfig r = "" → pc = "").
Proof.
  rewrite mergeMapping_eq. destruct r as [g0 c0 pc0 sb0]. cbn. split.
  - intros [= Hp Hs]. split.
    + intros ->. by rewrite orb_true_r in Hs.
    + intros ->. by rewrite decide_True in Hp.
  - intros [Hs Hp]. f_equal.
    + case_decide; [by rewrite Hp | done].
    + destruct sb; [by rewrite Hs | by rewrite orb_false_r].
Qed.

Lemma mergeRows_eq r ms :
  mergeRows r ms =
  mkMapping (ProjectGUID r) (SolutionConfig r)
    (firstNonEmpty (ProjectConfig r :: (rowValue <$> ms)))
    (ShouldBuild r || existsb rowBuilds ms).
Proof.
  unfold mergeRows. revert r. induction ms as [|m ms IH]; intros r.
  - cbn. destruct r as [g0 c0 pc0 sb0]. cbn. rewrite orb_false_r.
    case_decide; [by subst | done].
  - cbn [foldl]. rewrite IH, mergeMapping_eq. cbn. f_equal.
    + repeat case_decide; congruence.
    + by rewrite orb_assoc.
Qed.

Lemma rowsOf_fold k ms t :
  Forall (λ m, length m = 4%nat) ms →
  rowsOf k (foldl addConfigMapping t ms) =
  match rowsOf k t with
  | r :: rest => mergeRows r (rowsWithKey k ms) :: rest
  | [] => match rowsWithKey k ms with
          | [] => []
          | m :: more =>
              [mergeRows (mkMapping k.1 k.2 (rowValue m) (rowBuilds m)) more]
          end
  end.
Proof.
  revert t. induction ms as [|m ms IH]; intros t Hlen.
  - cbn [foldl]. unfold rowsWithKey. rewrite filter_nil. unfold mergeRows.
    by destruct (rowsOf k t).
  - apply Forall_cons in Hlen as [Hm Hlen]. cbn [foldl]. rewrite IH by done.
    rewrite addConfigMapping_row by done. unfold rowsWithKey.
    rewrite filter_cons. destruct (decide (rowKey m = k)) as [<-|Hk].
    + destruct (rowKey m) as [g c] eqn:Hkey. cbn [fst snd].
      rewrite rowsOf_addRow_same. by destruct (rowsOf (g, c) t).
    + rewrite rowsOf_addRow_other; [done|]. destruct (rowKey m). cbn.
      congruence.
Qed.

Lemma carries_on_refl r : carries_on r r.
Proof. done. Qed.

Lemma carries_on_trans r1 r2 r3 :
  carries_on r1 r2 → carries_on r2 r3 → carries_on r1 r3.
Proof.
  intros (Hk1 & Hs1 & Hp1) (Hk2 & Hs2 & Hp2). split_and!.
  - congruence.
  - auto.
  - intros Hne. rewrite <- (Hp1 Hne). apply Hp2. by rewrite (Hp1 Hne).
Qed.

Lemma carries_on_mergeMapping pc sb r : carries_on r (mergeMapping pc sb r).
Proof.
  rewrite mergeMapping_eq. split_and!; cbn.
  - done.
  - by intros ->.
  - intros Hne. by rewrite decide_False.
Qed.

Lemma addRow_carries_on t g c pc sb i r :
  t !! i = Some r →
  ∃ r', addRow t g c pc sb !! i = Some r' ∧ carries_on r r'.
Proof.
  revert i. induction t as [|x t IH]; intros i Hi; [done|].
  rewrite addRow_cons. destruct (decide (same_key g c x)) as [Hs|Hs].
  - destruct i as [|i]; cbn in *.
    + injection Hi as ->. eexists. split; [done|].
      apply carries_on_mergeMapping.
    + exists r. split; [done | apply carries_on_refl].
  - destruct i as [|i]; cbn in *.
    + exists r. split; [done | apply carries_on_refl].
    + by apply IH.
Qed.

Lemma fold_carries_on ms t i r :
  t !! i = Some r →
  ∃ r', foldl addConfigMapping t ms !! i = Some r' ∧ carries_on r r'.
Proof.
  revert t r. induction ms as [|m ms IH]; intros t r Hi.
  - exists r. split; [done | apply carries_on_refl].
  - cbn [foldl]. unfold addConfigMapping at 2.
    destruct (4 <=? length m)%nat; [|by apply IH].
    destruct (addRow_carries_on t (sub m 1) (sub m 2)
                (Strings.TrimSpace (sub m 3))
                (Strings.Contains (sub m 0) "Build.0") i r Hi)
      as (r1 & Hi1 & Hc1).
    destruct (IH _ _ Hi1) as (r2 & Hi2 & Hc2).
    exists r2. split; [done | by eapply carries_on_trans].
Qed.

Lemma absorbs_addRow_id t g c pc sb :
  absorbs t g c pc sb → addRow t g c pc sb = t.
Proof.
  induction t as [|r t IH]; [done|]. cbn [absorbs]. rewrite addRow_cons.
  destruct (decide (same_key g c r)); [by intros -> | intros H; by rewrite IH].
Qed.

Lemma same_key_mergeMapping g c pc sb r :
  same_key g c (mergeMapping pc sb r) ↔ same_key g c r.
Proof. by rewrite !same_key_key, key_mergeMapping. Qed.

Lemma absorbs_after t g c pc sb : absorbs (addRow t g c pc sb) g c pc sb.
Proof.
  induction t as [|r t IH].
  - rewrite addRow_nil. cbn [absorbs]. rewrite decide_True by done.
    apply mergeMapping_fixed. cbn. split; [done|]. by intros ->.
  - rewrite addRow_cons. destruct (decide (same_key g c r)) as [Hs|Hs];
      cbn [absorbs].
    + rewrite decide_True by by apply same_key_mergeMapping.
      apply mergeMapping_fixed. rewrite mergeMapping_eq. cbn. split.
      * intros ->. apply orb_true_r.
      * case_decide; [done|]. done.
    + by rewrite decide_False.
Qed.

Lemma absorbs_keep t g c pc sb g' c' pc' sb' :
  absorbs t g c pc sb → absorbs (addRow t g' c' pc' sb') g c pc sb.
Proof.
  induction t as [|r t IH]; [done|]. cbn [absorbs]. rewrite addRow_cons.
  destruct (decide (same_key g' c' r)) as [Hs'|Hs']; cbn [absorbs].
  - destruct (decide (same_key g c r)) as [Hs|Hs].
    + rewrite decide_True by by apply same_key_mergeMapping.
      rewrite !mergeMapping_fixed. intros [Hb Hp].
      rewrite mergeMapping_eq. cbn. split.
      * intros ->. by rewrite Hb.
      * case_decide as He; [|done]. intros _. by apply Hp.
    + rewrite decide_False; [done|]. by rewrite same_key_mergeMapping.
  - destruct (decide (same_key g c r)); [done | apply IH].
Qed.

Lemma absorbed_fold_keep ms t m :
  absorbed t m → absorbed (foldl addConfigMapping t ms) m.
Proof.
  revert t. induction ms as [|m' ms IH]; intros t Ha; [done|].
  cbn [foldl]. apply IH. intros Hl. specialize (Ha Hl).
  unfold addConfigMapping. destruct (4 <=? length m')%nat; [|done].
  by apply absorbs_keep.
Qed.

Lemma fold_absorbs_all ms t :
  Forall (absorbed (foldl addConfigMapping t ms)) ms.
Proof.
  revert t. induction ms as [|m ms IH]; intros t; [done|].
  cbn [foldl]. constructor; [|apply IH].
  apply absorbed_fold_keep. intros Hl. unfold addConfigMapping.
  rewrite Hl. apply absorbs_after.
Qed.

Lemma fold_absorbed_id ms t :
  Forall (absorbed t) ms → foldl addConfigMapping t ms = t.
Proof.
  induction ms as [|m ms IH]; [done|]. intros [Hm Hms]%Forall_cons.
  cbn [foldl].
  assert (addConfigMapping t m = t) as ->; [|by apply IH].
  unfold addConfigMapping. destruct (4 <=? length m)%nat eqn:Hl; [|done].
  by apply absorbs_addRow_id, Hm.
Qed.

End MappingTableMore.

(** ** Further properties of the parsers *)

(** Extra X4.  The merge law for any number of raw rows: when the table
    holds no row of a key before parsing, it holds afterwards no row of that
    key if the subsection has no raw row of it, and otherwise exactly one,
    whose [ProjectConfig] is the first non-empty value among the raw rows of
    the key (empty if all are) and whose [ShouldBuild] tells whether any of
    them signals build participation. *)
Theorem merge_law_of_all_rows (content : string) (sln : Sln)
  (k : string * string) :
  rowsOf k (ConfigMappings sln) = [] →
  rowsOf k (ConfigMappings (parseConfigurationMappings content sln).1) =
  match rowsWithKey k (rawRows content) with
  | [] => []
  | m :: more =>
      [ mkMapping k.1 k.2 (firstNonEmpty (rowValue <$> m :: more))
          (existsb rowBuilds (m :: more)) ]
  end.
Proof.
  intros Hfresh. rewrite parse_table, rowsOf_fold, Hfresh.
  - destruct (rowsWithKey k (rawRows content)) as [|m more]; [done|].
    rewrite mergeRows_eq. cbn. reflexivity.
  - apply Forall_forall. intros m. apply rawRows_length.
Qed.

(** Three raw rows of one key among rows of another: the value is that of
    the second row, the first being empty. *)
Lemma merge_law_of_all_rows_witness :
  rowsOf ("G", "Debug")
    (ConfigMappings
       (parseConfigurationMappings Fixture2.several_rows_sln zero_Sln).1)
  = [mkMapping "G" "Debug" "Release" true].
Proof.
  etrans.
  - apply (merge_law_of_all_rows Fixture2.several_rows_sln zero_Sln
             ("G", "Debug")).
    reflexivity.
  - vm_compute. reflexivity.
Defined.

(** Extra X5.  Parsing never removes, moves or rewrites what a row of the
    table already says: a row that was at an index is still there with the
    same key, is still built if it was, and keeps a non-empty
    [ProjectConfig]. *)
Theorem parsing_keeps_existing_rows (content : string) (sln : Sln) (i : nat)
  (r : ProjectConfigMapping) :
  ConfigMappings sln !! i = Some r →
  ∃ r', ConfigMappings (parseConfigurationMappings content sln).1 !! i
        = Some r' ∧
        ProjectGUID r' = ProjectGUID r ∧
        SolutionConfig r' = SolutionConfig r ∧
        (ShouldBuild r = true → ShouldBuild r' = true) ∧
        (ProjectConfig r ≠ "" → ProjectConfig r' = ProjectConfig r).
Proof.
  intros Hi. rewrite parse_table.
  destruct (fold_carries_on (rawRows content) _ i r Hi)
    as (r' & Hi' & [= Hg Hc] & Hs & Hp).
  by exists r'.
Qed.

(** A row with value [Kept] keeps it when the document gives other values
    for its key, and becomes built. *)
Lemma parsing_keeps_existing_rows_witness :
  ∃ r', ConfigMappings
          (parseConfigurationMappings Fixture2.several_rows_sln
             Fixture2.seeded_model).1 !! 0%nat = Some r' ∧
        ProjectGUID r' = "G" ∧ SolutionConfig r' = "Debug" ∧
        (false = true → ShouldBuild r' = true) ∧
        ("Kept" ≠ "" → ProjectConfig r' = "Kept").
Proof.
  apply (parsing_keeps_existing_rows Fixture2.several_rows_sln
           Fixture2.seeded_model 0 (mkMapping "G" "Debug" "Kept" false)).
  reflexivity.
Defined.

Example example_seeded_parse :
  ConfigMappings
    (parseConfigurationMappings Fixture2.several_rows_sln
       Fixture2.seeded_model).1
  = [mkMapping "G" "Debug" "Kept" true; mkMapping "H" "Debug" "Other" false].
Proof. vm_compute. reflexivity. Qed.

(** Extra X6.  Parsing the same document a second time changes nothing:
    every raw row has been taken in by the first pass. *)
Theorem parsing_twice_changes_nothing (content : string) (sln : Sln) :
  parseConfigurationMappings content
    (parseConfigurationMappings content sln).1
  = parseConfigurationMappings content sln.
Proof.
  pose proof (parse_table content sln) as Ht. revert Ht.
  unfold parseConfigurationMappings, rawRows.
  destruct (Strings.Index content startMarker =? -1); [done|].
  destruct (Strings.Index _ endMarker =? -1); [done|].
  cbn [orb fst ConfigMappings set_ConfigMappings]. intros _.
  rewrite fold_absorbed_id by apply fold_absorbs_all.
  by destruct sln.
Qed.

(** ** Further facts about the reference table *)

Lemma fold_references_other (ms : list (list string))
  (guids : gmap string string) (p : string) :
  Forall (λ m, retained m = true → storedPath m ≠ p) ms →
  foldl addProjectReference guids ms !! p = guids !! p.
Proof.
  revert guids. induction ms as [|m ms IH]; intros guids Hms; [done|].
  apply Forall_cons in Hms as [Hm Hms]. cbn [foldl]. rewrite IH by done.
  rewrite addProjectReference_lookup. rewrite decide_False; [done|].
  intros [Hr Hp]. by apply Hm.
Qed.

Lemma storedPath_suffix (m : list string) :
  Strings.HasSuffix (sub m 1) ".vcxproj" = true →
  Strings.HasSuffix (storedPath m) ".vcxproj" = true.
Proof.
  intros [pre Hpre]%HasSuffix_true. apply HasSuffix_true.
  unfold storedPath. rewrite Hpre, Replace_char, map_chars_app by lia.
  eexists. reflexivity.
Qed.

(** Extra X7.  A later reference line overwrites an earlier one with the
    same stored path: the identifier kept for a path is that of the last
    retained line stored under it.  Paths that differ only in the direction
    of their separators are stored under one path. *)
Theorem last_reference_wins (content : string) (sln : Sln)
  (m : list string) (before after : list (list string)) :
  projectMatches content = before ++ m :: after →
  Strings.HasSuffix (sub m 1) ".vcxproj" = true →
  Forall (λ m', Strings.HasSuffix (sub m' 1) ".vcxproj" = true →
                Strings.Replace (sub m' 1) "\" "/" (-1)
                ≠ Strings.Replace (sub m 1) "\" "/" (-1)) after →
  ProjectGUIDs (parseProjectReferences content sln).1
    !! Strings.Replace (sub m 1) "\" "/" (-1) = Some (sub m 2).
Proof.
  intros Hms Hsuf Hafter. rewrite parseProjectReferences_table.
  assert (Hret : retained m = true).
  { rewrite (projectMatches_retained content); [done|].
    rewrite Hms, elem_of_app, elem_of_cons. auto. }
  rewrite Hms, foldl_app. cbn [foldl].
  rewrite (fold_references_other after _ (storedPath m)).
  - rewrite addProjectReference_lookup. by rewrite decide_True.
  - eapply Forall_impl; [exact Hafter|]. intros m' Hm' Hr.
    by apply Hm', retained_suffix.
Qed.

(** Two lines for one project file, with a backslash and with a slash: one
    entry, with the identifier of the second line. *)
Lemma last_reference_wins_witness :
  ProjectGUIDs (parseProjectReferences Fixture2.twice_sln zero_Sln).1
    !! "lib/app.vcxproj" = Some "NEW".
Proof.
  apply (last_reference_wins Fixture2.twice_sln zero_Sln
           Fixture2.twice_second [Fixture2.twice_first] []).
  - vm_compute. reflexivity.
  - reflexivity.
  - constructor.
Defined.

Example example_twice :
  map_to_list (ProjectGUIDs (parseProjectReferences Fixture2.twice_sln
                               zero_Sln).1)
  = [("lib/app.vcxproj", "NEW")].
Proof. vm_compute. reflexivity. Qed.

(** ** Further properties of the construction *)

Lemma parse_succeeds_iff (content : string) (sln : Sln) :
  (parseConfigurationMappings content sln).2 = None ↔ section_closed content.
Proof.
  unfold parseConfigurationMappings, section_closed.
  destruct (Z.eqb_spec (Strings.Index content startMarker) (-1)) as [Hi|Hi].
  - apply Index_absent in Hi. split; [by left | done].
  - destruct (Z.eqb_spec (Strings.Index (slice_from content
                 (Strings.Index content startMarker)) endMarker) (-1))
      as [Hj|Hj]; cbn [snd].
    + split; [done|]. intros [Habs | (pre & post & Hc & Hocc)].
      * by apply Index_absent in Habs.
      * apply Index_absent in Hj.
        by destruct (absent_after_first _ _ _ Hj pre post Hc).
    + split; [|done]. intros _. right.
      destruct (Index_found _ _ Hi) as (pre & post & Hc & Hrest).
      exists pre, post. split; [done|]. rewrite <- Hrest.
      by apply Index_occurs.
Qed.

Lemma references_found_iff (content : string) (sln : Sln) :
  ProjectGUIDs sln = ∅ →
  (parseProjectReferences content sln).2 = None ↔
  ∃ m, m ∈ projectMatches content ∧
       Strings.HasSuffix (sub m 1) ".vcxproj" = true.
Proof.
  intros Hempty. rewrite parseProjectReferences_error.
  rewrite parseProjectReferences_table, Hempty. split.
  - case_decide as He; [done|]. intros _.
    apply map_choose in He as (p & guid & Hp).
    apply fold_references_lookup in Hp as [Hp | (m & Hin & Hr & _)];
      [by apply lookup_empty_Some in Hp|].
    exists m. split; [done | by apply retained_suffix].
  - intros (m & Hin & Hsuf). rewrite decide_False; [done|]. intros He.
    destruct (fold_references_retained (projectMatches content) ∅ m Hin)
      as [guid Hg].
    + by rewrite (projectMatches_retained content).
    + rewrite He in Hg. by apply lookup_empty_Some in Hg.
Qed.

Section ModelMore.

Variable filepath_Abs : string -> string * option error.
Variable filepath_Dir : string -> string.
Variable filepath_Join : string -> string -> string.
Variable ReadFile : string -> result string.
Variable NewProject : string -> result Project.
Variable RemoveBadDefinition : string -> string.
Variable RemoveBadInclude : string -> string.

Local Abbreviation NewSln' :=
  (NewSln filepath_Abs filepath_Dir filepath_Join ReadFile NewProject).
Local Abbreviation loadProjects' := (loadProjects filepath_Join NewProject).
Local Abbreviation byProject := (GetProjectConfigByProject filepath_Join).
Local Abbreviation generate :=
  (CompileCommandsJson filepath_Join RemoveBadDefinition RemoveBadInclude).
Local Abbreviation blank' := (blank filepath_Abs filepath_Dir).
Local Abbreviation entryOf' :=
  (entryOf RemoveBadDefinition RemoveBadInclude).

Lemma loadProjects_succeeds_iff order sln :
  (loadProjects' order sln).2 = None ↔
  ∀ p, p ∈ order →
       ∃ pro, NewProject (filepath_Join (SolutionDir sln) p) = Ok pro.
Proof.
  destruct (loadProjects' order sln) as [sln' err] eqn:Hl.
  apply loadProjects_result in Hl. cbn [snd]. destruct err as [e|].
  - destruct Hl as (p & Hp & He). split; [done|]. intros Hall.
    destruct (Hall p Hp) as [pro Hpro]. congruence.
  - destruct Hl as (pros & _ & Hall). split; [|done]. intros _ p Hp.
    apply list_elem_of_lookup in Hp as [i Hi].
    destruct (Forall2_lookup_l _ _ _ _ _ Hall Hi) as (pro & _ & Hok).
    by exists pro.
Qed.

Lemma loadProjects_nothing sln : loadProjects' [] sln = (sln, None).
Proof. done. Qed.

(** Extra X1.  [NewSln] returns no error exactly when the path is made
    absolute, the file is read, at least one reference line has a path that
    ends with [.vcxproj], the configuration subsection is absent or closed,
    and every path the loading loop visits loads. *)
Theorem NewSln_succeeds_iff (order : list string) (path : string) :
  (NewSln' order path).2 = None ↔
  (filepath_Abs path).2 = None ∧
  ∃ content,
    ReadFile path = Ok content ∧
    (∃ m, m ∈ projectMatches content ∧
          Strings.HasSuffix (sub m 1) ".vcxproj" = true) ∧
    section_closed content ∧
    ∀ p, p ∈ order →
         ∃ pro, NewProject
                  (filepath_Join (filepath_Dir (filepath_Abs path).1) p)
                = Ok pro.
Proof.
  unfold NewSln, parseSolutionFile.
  destruct (filepath_Abs path) as [abs [e|]]; cbn [fst snd].
  { split; [done | by intros [? _]]. }
  destruct (ReadFile path) as [content|e]; cbn [snd].
  2:{ split; [done | by intros (_ & ? & ? & _)]. }
  pose proof (references_found_iff content
                (set_ProjectGUIDs ∅ (set_SolutionDir (filepath_Dir abs)
                                       zero_Sln)) eq_refl) as Hrefs.
  destruct (parseProjectReferences_frame content
              (set_ProjectGUIDs ∅ (set_SolutionDir (filepath_Dir abs)
                                     zero_Sln))) as (Hd1 & _ & _).
  destruct (parseProjectReferences content _) as [sln1 [e1|]];
    cbn [fst snd] in *.
  { split; [done|]. intros (_ & c & [= <-] & Hm & _).
    by apply Hrefs in Hm. }
  pose proof (parse_succeeds_iff content sln1) as Hsec.
  destruct (parse_frame content sln1) as (Hd2 & _ & _).
  destruct (parseConfigurationMappings content sln1) as [sln2 [e2|]];
    cbn [fst snd] in *.
  { split; [done|]. intros (_ & c & [= <-] & _ & Hc & _).
    by apply Hsec in Hc. }
  rewrite loadProjects_succeeds_iff, Hd2, Hd1. cbn [SolutionDir].
  split.
  - intros Hall. split; [done|]. exists content.
    split_and!; [done | by apply Hrefs | by apply Hsec | done].
  - intros (_ & c & [= <-] & _ & _ & Hall). done.
Qed.

(** Extra X2.  The references are parsed before the mappings, and projects
    are loaded last: a document without a retained reference fails with the
    error that no project was found, whatever its configuration subsection
    looks like; a document with one and an unclosed subsection fails with
    the error of a malformed section; in both cases no project has been
    loaded and no mapping row stored. *)
Theorem parse_failures_load_nothing (order : list string)
  (path content : string) :
  (filepath_Abs path).2 = None → ReadFile path = Ok content →
  ((∀ m, m ∈ projectMatches content →
         Strings.HasSuffix (sub m 1) ".vcxproj" = false) →
   (NewSln' order path).2 = Some ErrNoProjects ∧
   ProjectList (NewSln' order path).1 = [] ∧
   ConfigMappings (NewSln' order path).1 = []) ∧
  ((∃ m, m ∈ projectMatches content ∧
         Strings.HasSuffix (sub m 1) ".vcxproj" = true) →
   ¬ section_closed content →
   (NewSln' order path).2 = Some ErrConfigSection ∧
   ProjectList (NewSln' order path).1 = [] ∧
   ConfigMappings (NewSln' order path).1 = []).
Proof.
  intros Habs Hread. unfold NewSln, parseSolutionFile.
  destruct (filepath_Abs path) as [abs [e|]]; [done|]. rewrite Hread.
  pose proof (references_found_iff content
                (set_ProjectGUIDs ∅ (set_SolutionDir (filepath_Dir abs)
                                       zero_Sln)) eq_refl) as Hrefs.
  pose proof (parseProjectReferences_error content
                (set_ProjectGUIDs ∅ (set_SolutionDir (filepath_Dir abs)
                                       zero_Sln))) as Herr.
  destruct (parseProjectReferences_frame content
              (set_ProjectGUIDs ∅ (set_SolutionDir (filepath_Dir abs)
                                     zero_Sln))) as (_ & Hl1 & Hm1).
  destruct (parseProjectReferences content _) as [sln1 [e1|]];
    cbn [fst snd] in *.
  - split.
    + intros _. case_decide; [|done]. by injection Herr as ->.
    + intros Hm. by apply Hrefs in Hm.
  - split.
    + intros Hnone. destruct Hrefs as [(m & Hin & Hsuf) _]; [done|].
      rewrite (Hnone m Hin) in Hsuf. done.
    + intros _ Hopen.
      pose proof (parse_succeeds_iff content sln1) as Hsec.
      pose proof (parse_table content sln1) as Ht.
      destruct (parse_frame content sln1) as (_ & Hl2 & _).
      unfold parseConfigurationMappings, rawRows in *.
      destruct (Strings.Index content startMarker =? -1);
        [by destruct Hopen; apply Hsec|].
      destruct (Strings.Index _ endMarker =? -1);
        [|by destruct Hopen; apply Hsec].
      cbn [fst snd] in *. done.
Qed.

(** Extra X3.  What every model returned without error satisfies: its
    solution directory is the directory of the absolute path; its reference
    table is not empty; every registered path ends with [.vcxproj] and
    holds no backslash; no two mapping rows have the same key; and the
    project list has one project per path visited by the loading loop. *)
Theorem constructed_model_invariant (order : list string) (path : string)
  (sln : Sln) :
  NewSln' order path = (sln, None) →
  SolutionDir sln = filepath_Dir (filepath_Abs path).1 ∧
  ProjectGUIDs sln ≠ ∅ ∧
  (∀ p, is_Some (ProjectGUIDs sln !! p) →
        Strings.HasSuffix p ".vcxproj" = true ∧ Strings.Index p "\" = -1) ∧
  NoDup (key <$> ConfigMappings sln) ∧
  length (ProjectList sln) = length order.
Proof.
  intros Hnew. destruct (NewSln_invariant _ _ _ _ _ _ _ _ Hnew) as [_ Hnd].
  apply NewSln_success in Hnew as (content & sln1 & _ & Href & _ & Hload).
  destruct (loadProjects_frame filepath_Join NewProject order
              (parseConfigurationMappings content sln1).1) as (Hd & Hg & _).
  rewrite Hload in Hd, Hg. cbn [fst] in Hd, Hg.
  destruct (parse_frame content sln1) as (Hd' & Hl' & Hg').
  pose proof (parseProjectReferences_table content (blank' path)) as Ht.
  pose proof (parseProjectReferences_error content (blank' path)) as He.
  destruct (parseProjectReferences_frame content (blank' path))
    as (Hd'' & Hl'' & _).
  rewrite Href in Ht, He, Hd'', Hl''. cbn [fst snd] in Ht, He, Hd'', Hl''.
  split_and!.
  - by rewrite Hd, Hd', Hd''.
  - rewrite Hg, Hg'. by case_decide.
  - intros p [guid Hp]. rewrite Hg, Hg', Ht in Hp.
    apply fold_references_lookup in Hp as [Hp | (m & _ & Hr & <- & _)];
      [by destruct (lookup_empty_Some (M:=gmap string) p guid)|].
    split; [by apply storedPath_suffix, retained_suffix|].
    apply normalized_no_backslash.
  - exact Hnd.
  - apply loadProjects_result in Hload as (pros & Hpl & Hall).
    rewrite Hpl, Hl', Hl''. cbn. symmetry. by eapply Forall2_length.
Qed.

(** Extra X10.  When the loader records the path it is given and no two
    registered paths join to the same absolute path, every loaded project
    resolves to the mapping of its own reference: the project-keyed query on
    the project loaded for a registered path is the path-keyed query on that
    path, whatever the iteration orders. *)
Theorem loaded_project_resolves_its_reference (order : list string)
  (path : string) (sln : Sln) (visit : list string) (i : nat) (p : string)
  (solutionConfig : string) :
  NewSln' order path = (sln, None) →
  (∀ q pro, NewProject q = Ok pro → ProjectPath pro = q) →
  range_order (ProjectGUIDs sln) order →
  range_order (ProjectGUIDs sln) visit →
  (∀ q q', is_Some (ProjectGUIDs sln !! q) → is_Some (ProjectGUIDs sln !! q') →
           filepath_Join (SolutionDir sln) q = filepath_Join (SolutionDir sln) q' →
           q = q') →
  order !! i = Some p →
  ∃ pro, ProjectList sln !! i = Some pro ∧
         byProject visit sln pro solutionConfig
         = GetProjectConfig sln p solutionConfig.
Proof.
  intros Hnew Hrec Horder Hvisit Hinj Hi.
  destruct (NewSln_invariant _ _ _ _ _ _ _ _ Hnew) as [Hnonempty _].
  pose proof (range_order_elem _ _ Horder) as Ho.
  pose proof (range_order_elem _ _ Hvisit) as Hv.
  assert (Hreg : is_Some (ProjectGUIDs sln !! p)).
  { apply Ho. by eapply list_elem_of_lookup_2. }
  assert (Hpro : ∃ pro, ProjectList sln !! i = Some pro ∧
            ProjectPath pro = filepath_Join (SolutionDir sln) p).
  { apply NewSln_success in Hnew as (content & sln1 & _ & Href & _ & Hload).
    destruct (loadProjects_frame filepath_Join NewProject order
                (parseConfigurationMappings content sln1).1) as (Hd & _ & _).
    rewrite Hload in Hd. cbn [fst] in Hd.
    destruct (parse_frame content sln1) as (_ & Hl' & _).
    destruct (parseProjectReferences_frame content (blank' path))
      as (_ & Hl'' & _).
    rewrite Href in Hl''. cbn [fst] in Hl''.
    apply loadProjects_result in Hload as (pros & Hpl & Hall).
    rewrite Hl', Hl'' in Hpl. cbn in Hpl.
    destruct (Forall2_lookup_l _ _ _ _ _ Hall Hi) as (pro & Hpi & Hok).
    exists pro. rewrite Hpl. split; [done|]. rewrite Hd.
    by apply Hrec. }
  destruct Hpro as (pro & Hpi & Hpath). exists pro. split; [done|].
  unfold GetProjectConfigByProject.
  destruct (findProjectPath_spec filepath_Join sln pro visit)
    as [[Hin Hj] | [_ Hall]].
  - assert (findProjectPath filepath_Join sln pro visit = p) as ->.
    { apply Hinj; [by apply Hv | done | congruence]. }
    destruct (String.eqb_spec p "") as [->|_]; [|done].
    by destruct (Hnonempty "" Hreg).
  - destruct (Hall p); [by apply Hv | done].
Qed.

(** *** Failure of the generator *)

Lemma sourceLoop_failure sln pro projectConfig files cmdList out e :
  sourceLoop RemoveBadDefinition RemoveBadInclude sln pro projectConfig
    files cmdList = (out, Some e) →
  files ≠ [] ∧ FindConfig pro projectConfig = Err e ∧ out = cmdList.
Proof.
  destruct files as [|f files]; [done|]. cbn [sourceLoop].
  destruct (FindConfig pro projectConfig) as [[inc def]|e'] eqn:Hc.
  - intros Hs. exfalso. revert Hs. generalize (cmdList ++
      [mkCommand (ProjectDir pro) f
         (composeCommand RemoveBadDefinition RemoveBadInclude sln inc def f)]).
    induction files as [|f' files IH]; intros acc; [done|].
    cbn [sourceLoop]. rewrite Hc. apply IH.
  - by intros [= <- <-].
Qed.

Lemma projectLoop_failure sched sln conf i pros cmdList out e :
  projectLoop filepath_Join RemoveBadDefinition RemoveBadInclude sched sln
    conf i pros cmdList = (out, Some e) →
  ∃ j pro,
    pros !! j = Some pro ∧ FindSourceFiles pro ≠ [] ∧
    FindConfig pro
      (effectiveConfig filepath_Join (sched (i + j)%nat) sln pro conf)
    = Err e ∧
    (∀ j' pro', (j' < j)%nat → pros !! j' = Some pro' →
       FindSourceFiles pro' ≠ [] →
       ∃ x, FindConfig pro'
              (effectiveConfig filepath_Join (sched (i + j')%nat) sln pro'
                 conf) = Ok x) ∧
    out = cmdList ++
          concat (imap (λ j' pro',
                    entryOf' sln pro'
                      (effectiveConfig filepath_Join (sched (i + j')%nat) sln
                         pro' conf)
                    <$> FindSourceFiles pro') (take j pros)).
Proof.
  revert i cmdList. induction pros as [|pro pros IH]; intros i cmdList Hp;
    [done|].
  cbn [projectLoop] in Hp.
  destruct (sourceLoop _ _ sln pro _ _ cmdList) as [cmds [e'|]] eqn:Hs.
  - injection Hp as <- <-.
    apply sourceLoop_failure in Hs as (Hf & Hc & ->).
    exists 0%nat, pro. rewrite Nat.add_0_r. cbn.
    split_and!; [done.. | lia | by rewrite app_nil_r].
  - apply sourceLoop_result in Hs as [Hok ->].
    apply IH in Hp as (j & pro' & Hj & Hf & Hc & Hbefore & ->).
    exists (S j), pro'. rewrite Nat.add_succ_r. split_and!; [done.. | |].
    + intros [|j'] x Hlt Hx Hfx.
      * injection Hx as <-. rewrite Nat.add_0_r. by apply Hok.
      * rewrite Nat.add_succ_r. apply (Hbefore j' x); [lia | done..].
    + cbn [take]. rewrite imap_cons. cbn [concat].
      rewrite <- !app_assoc, Nat.add_0_r. do 3 f_equal.
      apply imap_ext. intros j' x _. cbn. by rewrite Nat.add_succ_r.
Qed.

(** Extra X8.  The generator returns without error exactly when every
    project that has a source file has include and define data for its
    resolved configuration; projects without source files are never asked
    for any. *)
Theorem generator_succeeds_iff (sched : nat → list string) (sln : Sln)
  (conf : string) :
  (generate sched sln conf).2 = None ↔
  ∀ i pro, ProjectList sln !! i = Some pro → FindSourceFiles pro ≠ [] →
    ∃ x, FindConfig pro
           (effectiveConfig filepath_Join (sched i) sln pro conf) = Ok x.
Proof.
  unfold CompileCommandsJson.
  destruct (projectLoop _ _ _ sched sln conf 0 (ProjectList sln) [])
    as [out [e|]] eqn:Hp; cbn [snd].
  - split; [done|]. intros Hall.
    apply projectLoop_failure in Hp as (j & pro & Hj & Hf & Hc & _ & _).
    destruct (Hall j pro Hj Hf) as [x Hx]. cbn in Hc. congruence.
  - split; [|done]. intros _.
    by apply projectLoop_result in Hp as [_ Hok].
Qed.

(** Extra X9.  When the generator fails, the error is that of the first
    project in list order that has a source file and no data for its
    resolved configuration, and the entries returned with the error are
    those of the projects before it, complete, and none of its own. *)
Theorem generator_failure (sched : nat → list string) (sln : Sln)
  (conf : string) (cmds : list CompileCommand) (e : error) :
  generate sched sln conf = (cmds, Some e) →
  ∃ i pro,
    ProjectList sln !! i = Some pro ∧ FindSourceFiles pro ≠ [] ∧
    FindConfig pro (effectiveConfig filepath_Join (sched i) sln pro conf)
    = Err e ∧
    (∀ j pro', (j < i)%nat → ProjectList sln !! j = Some pro' →
       FindSourceFiles pro' ≠ [] →
       ∃ x, FindConfig pro'
              (effectiveConfig filepath_Join (sched j) sln pro' conf)
            = Ok x) ∧
    cmds = concat (imap (λ j pro',
                     entryOf' sln pro'
                       (effectiveConfig filepath_Join (sched j) sln pro' conf)
                     <$> FindSourceFiles pro') (take i (ProjectList sln))).
Proof.
  unfold CompileCommandsJson.
  intros (i & pro & Hi & Hf & Hc & Hbefore & Hout)%projectLoop_failure.
  exists i, pro. cbn in Hc, Hout, Hbefore. by split_and!.
Qed.

End ModelMore.

(** No project file and an unclosed subsection: the missing references are
    reported; a project file and an unclosed subsection: the section is. *)
Lemma parse_failures_load_nothing_witness :
  let missing :=
    NewSln Filepath.Abs Filepath.Dir Filepath.Join Fixture2.folders_open_files
      Fixture.alias_loader [] "x.sln" in
  let unclosed :=
    NewSln Filepath.Abs Filepath.Dir Filepath.Join Fixture2.open_section_files
      Fixture.alias_loader ["p.vcxproj"] "x.sln" in
  (missing.2 = Some ErrNoProjects ∧ ProjectList missing.1 = [] ∧
   ConfigMappings missing.1 = []) ∧
  (unclosed.2 = Some ErrConfigSection ∧ ProjectList unclosed.1 = [] ∧
   ConfigMappings unclosed.1 = []).
Proof.
  split.
  - apply (parse_failures_load_nothing Filepath.Abs Filepath.Dir Filepath.Join
             Fixture2.folders_open_files Fixture.alias_loader [] "x.sln"
             Fixture2.folders_open_sln); [reflexivity | reflexivity |].
    intros m Hm. apply (bool_decide_unpack _).
    revert m Hm. apply Forall_forall. vm_compute.
    repeat constructor.
  - apply (parse_failures_load_nothing Filepath.Abs Filepath.Dir Filepath.Join
             Fixture2.open_section_files Fixture.alias_loader ["p.vcxproj"]
             "x.sln" Fixture.open_section_sln); [reflexivity | reflexivity | |].
    + eexists. split; [vm_compute; apply list_elem_of_here | reflexivity].
    + intros Hc. apply (parse_succeeds_iff _ zero_Sln) in Hc.
      vm_compute in Hc. discriminate.
Defined.

(** ** Further properties of [preappend] *)

Lemma split_semicolon_cons (cur : string) (c : ascii) (s : string) :
  Strings.split_from 0 cur (String c s) ";" =
  if Ascii.eqb ";" c then Strings.rev cur :: Strings.split_from 0 "" s ";"
  else Strings.split_from 0 (String c cur) s ";".
Proof. cbn. by rewrite andb_true_r. Qed.

Lemma split_without_semicolon (cur s : string) :
  all_chars (Regexp.non ";") s = true →
  Strings.split_from 0 cur s ";" = [Strings.rev cur +:+ s].
Proof.
  revert cur. induction s as [|c s IH]; intros cur.
  - intros _. cbn. by rewrite string_app_empty_r.
  - cbn [all_chars]. intros [Hc Hs]%andb_true_iff.
    rewrite split_semicolon_cons. unfold Regexp.non in Hc.
    apply negb_true_iff in Hc. rewrite Hc, IH by done.
    by rewrite rev_cons, string_app_assoc.
Qed.

Lemma split_at_semicolon (cur a b : string) :
  Strings.split_from 0 cur (a +:+ String ";" b) ";" =
  Strings.split_from 0 cur a ";" ++ Strings.split_from 0 "" b ";".
Proof.
  revert cur. induction a as [|c a IH]; intros cur.
  - cbn [String.append]. rewrite split_semicolon_cons. done.
  - cbn [String.append]. rewrite !split_semicolon_cons.
    destruct (Ascii.eqb ";" c); rewrite IH; done.
Qed.

Lemma flags_app (flag : string) (l1 l2 : list string) :
  flags flag (l1 ++ l2) = flags flag l1 +:+ flags flag l2.
Proof.
  induction l1 as [|v l1 IH]; [done|]. cbn [app flags foldr].
  fold (flags flag (l1 ++ l2)). fold (flags flag l1).
  by rewrite IH, !string_app_assoc.
Qed.

(** Extra X11.  [preappend] on a string without a semicolon gives the flag,
    the string and a space, also when the string is empty; on two strings
    joined by a semicolon it gives the flags of the first followed by the
    flags of the second.  So every entry of a semicolon-separated list,
    empty entries included, becomes one flag that ends with a space. *)
Theorem preappend_by_entries (flag : string) :
  (∀ s, Strings.Index s ";" = -1 → preappend s flag = flag +:+ s +:+ " ") ∧
  (∀ a b, preappend (a +:+ ";" +:+ b) flag
          = preappend a flag +:+ preappend b flag).
Proof.
  split.
  - intros s Hs%Index_absent%not_occurs_all_chars.
    rewrite preappend_flags. unfold Strings.Split.
    rewrite split_without_semicolon by done. cbn. reflexivity.
  - intros a b. rewrite !preappend_flags. unfold Strings.Split.
    change (";" +:+ b) with (String ";" b).
    by rewrite split_at_semicolon, flags_app.
Qed.

Example example_preappend :
  preappend "" "-D" = "-D " ∧
  preappend "FOO;;BAR;" "-D" = "-DFOO -D -DBAR -D ".
Proof. vm_compute. done. Qed.

(** ** The configuration subsection alone is read *)

Lemma slice_of_section (pre body rest : string) (j : Z) :
  j = Z.of_nat (Strings.length body) →
  slice (pre +:+ body +:+ rest) (Z.of_nat (Strings.length pre))
    (Z.of_nat (Strings.length pre) + j) = body.
Proof.
  intros ->. unfold slice.
  replace (Z.to_nat (Z.of_nat (Strings.length pre)
                     + Z.of_nat (Strings.length body)
                     - Z.of_nat (Strings.length pre)))
    with (Strings.length body) by lia.
  rewrite Nat2Z.id, drop_app_exact. apply take_app_exact.
Qed.

(** Extra X12.  Only the text from the first start marker up to the first
    end marker after it is searched for rows: whatever stands before the
    subsection or after its end marker, rows included, leaves the parsed
    table as it is. *)
Theorem rows_outside_the_section_are_ignored (pre body post : string)
  (sln : Sln) :
  first_occurrence startMarker pre
    (pre +:+ startMarker +:+ body +:+ endMarker +:+ post) →
  first_occurrence endMarker (startMarker +:+ body)
    (startMarker +:+ body +:+ endMarker +:+ post) →
  parseConfigurationMappings
    (pre +:+ startMarker +:+ body +:+ endMarker +:+ post) sln
  = (set_ConfigMappings
       (foldl addConfigMapping (ConfigMappings sln)
          (configMatches (startMarker +:+ body))) sln, None).
Proof.
  intros Hstart%Index_first_occurrence Hend%Index_first_occurrence.
  unfold parseConfigurationMappings. rewrite Hstart.
  assert (Hrest : slice_from (pre +:+ startMarker +:+ body +:+ endMarker +:+ post)
                    (Z.of_nat (Strings.length pre))
                  = startMarker +:+ body +:+ endMarker +:+ post).
  { unfold slice_from. rewrite Nat2Z.id. apply drop_app_exact. }
  rewrite Hrest, Hend.
  destruct (Z.eqb_spec (Z.of_nat (Strings.length pre)) (-1)); [lia|].
  destruct (Z.eqb_spec (Z.of_nat (Strings.length (startMarker +:+ body)))
              (-1)); [lia|].
  rewrite <- (string_app_assoc startMarker body (endMarker +:+ post)).
  by rewrite slice_of_section.
Qed.

(** A row before the subsection and a row after it leave no trace. *)
Lemma rows_outside_the_section_are_ignored_witness :
  parseConfigurationMappings
    (Fixture2.outside_pre +:+ startMarker +:+ Fixture2.outside_body
     +:+ endMarker +:+ Fixture2.outside_post) zero_Sln
  = (set_ConfigMappings [mkMapping "G" "Debug" "Inside" false] zero_Sln, None).
Proof.
  etrans.
  - apply (rows_outside_the_section_are_ignored Fixture2.outside_pre
             Fixture2.outside_body Fixture2.outside_post zero_Sln).
    + apply first_occurrence_Index. vm_compute. reflexivity.
    + apply (first_occurrence_Index endMarker
               (startMarker +:+ Fixture2.outside_body) Fixture2.outside_post).
      vm_compute. reflexivity.
  - vm_compute. reflexivity.
Defined.

(** Extra X3 on the model of the end-to-end example. *)
Lemma constructed_model_invariant_witness :
  let sln := Fixture.app_model.1 in
  SolutionDir sln = Filepath.Dir (Filepath.Abs "app.sln").1 ∧
  ProjectGUIDs sln ≠ ∅ ∧
  (∀ p, is_Some (ProjectGUIDs sln !! p) →
        Strings.HasSuffix p ".vcxproj" = true ∧ Strings.Index p "\" = -1) ∧
  NoDup (key <$> ConfigMappings sln) ∧
  length (ProjectList sln) = length Fixture.app_order.
Proof.
  apply (constructed_model_invariant Filepath.Abs Filepath.Dir Filepath.Join
           Fixture.app_files Fixture.app_loader Fixture.app_order "app.sln").
  construction_by_evaluation.
Defined.

(** Extra X10 on the model of the end-to-end example, whose loader records
    the path it is given. *)
Lemma loaded_project_resolves_its_reference_witness :
  ∃ pro, ProjectList Fixture.app_model.1 !! 0%nat = Some pro ∧
         GetProjectConfigByProject Filepath.Join Fixture.app_order
           Fixture.app_model.1 pro "Debug|x64"
         = GetProjectConfig Fixture.app_model.1 "lib/app.vcxproj" "Debug|x64".
Proof.
  assert (Hord : range_order (ProjectGUIDs Fixture.app_model.1)
                   Fixture.app_order) by range_order_by_evaluation.
  apply (loaded_project_resolves_its_reference Filepath.Abs Filepath.Dir
           Filepath.Join Fixture.app_files Fixture.app_loader
           Fixture.app_order "app.sln" Fixture.app_model.1 Fixture.app_order
           0 "lib/app.vcxproj" "Debug|x64").
  - construction_by_evaluation.
  - intros q pro. unfold Fixture.app_loader.
    destruct (String.eqb q "/work/lib/app.vcxproj"); [|discriminate].
    intros [= <-]. reflexivity.
  - exact Hord.
  - exact Hord.
  - intros q q' Hq Hq' _.
    apply (range_order_elem _ _ Hord) in Hq, Hq'.
    apply list_elem_of_singleton in Hq, Hq'. congruence.
  - reflexivity.
Defined.

(** Extra X9 on two projects of which the second has no configuration
    data: the entry of the first is returned with the error. *)
Lemma generator_failure_witness :
  let sched := λ _ : nat, Fixture.pair_order in
  let sln := Fixture2.failing_model in
  ∃ i pro,
    ProjectList sln !! i = Some pro ∧ FindSourceFiles pro ≠ [] ∧
    FindConfig pro (effectiveConfig Filepath.Join (sched i) sln pro "Debug")
    = Err (ErrOther "no such configuration") ∧
    (∀ j pro', (j < i)%nat → ProjectList sln !! j = Some pro' →
       FindSourceFiles pro' ≠ [] →
       ∃ x, FindConfig pro'
              (effectiveConfig Filepath.Join (sched j) sln pro' "Debug")
            = Ok x) ∧
    (Fixture.generate Fixture.pair_order sln "Debug").1
    = concat (imap (λ j pro',
                 entryOf Fixture.sanitize Fixture.sanitize sln pro'
                   (effectiveConfig Filepath.Join (sched j) sln pro' "Debug")
                 <$> FindSourceFiles pro') (take i (ProjectList sln))).
Proof.
  apply (generator_failure Filepath.Join Fixture.sanitize Fixture.sanitize
           (λ _, Fixture.pair_order) Fixture2.failing_model "Debug").
  construction_by_evaluation.
Defined.

Example example_generator_failure :
  Fixture.generate Fixture.pair_order Fixture2.failing_model "Debug"
  = ([mkCommand "/work" "main.cpp" "clang-cl.exe -DDebug  -Iinc  -c main.cpp"],
     Some (ErrOther "no such configuration")).
Proof. vm_compute. reflexivity. Qed.

(** ** The matcher finds matches only *)

Lemma star_greedy_sound {R : Type} p s caps (k : @Regexp.cont R) x :
  Regexp.star_greedy p s caps k = Some x →
  ∃ t s', s = t +:+ s' ∧ all_chars p t = true ∧ k s' caps = Some x.
Proof.
  induction s as [|c s IH]; cbn [Regexp.star_greedy].
  - intros Hk. by exists "", "".
  - destruct (p c) eqn:Hc; [|intros Hk; by exists "", (String c s)].
    intros [H|H]%or_else_inv.
    + destruct (IH H) as (t & s' & -> & Ht & Hk).
      exists (String c t), s'. cbn. by rewrite Hc, Ht.
    + by exists "", (String c s).
Qed.

Lemma star_lazy_sound {R : Type} p s caps (k : @Regexp.cont R) x :
  Regexp.star_lazy p s caps k = Some x →
  ∃ t s', s = t +:+ s' ∧ all_chars p t = true ∧ k s' caps = Some x.
Proof.
  induction s as [|c s IH]; cbn [Regexp.star_lazy].
  - intros [H|H]%or_else_inv; [by exists "", "" | done].
  - intros [H|H]%or_else_inv; [by exists "", (String c s)|].
    destruct (p c) eqn:Hc; [|done].
    destruct (IH H) as (t & s' & -> & Ht & Hk).
    exists (String c t), s'. cbn. by rewrite Hc, Ht.
Qed.

Lemma run_sound {R : Type} (r : Regexp.syntax) :
  ∀ s caps (k : @Regexp.cont R) x,
    Regexp.run r s caps k = Some x →
    ∃ s' caps', matches_prefix r s caps s' caps' ∧ k s' caps' = Some x.
Proof.
  induction r as [l|p|p|p|r IH|r1 IH1 r2 IH2|r1 IH1 r2 IH2|n r IH|];
    intros s caps k x; cbn [Regexp.run matches_prefix].
  - destruct (Strings.HasPrefix s l) eqn:Hp; [|done].
    apply HasPrefix_true in Hp as [rest ->]. rewrite drop_app_exact.
    intros Hk. by exists rest, caps.
  - intros (t & s' & -> & Ht & Hk)%star_greedy_sound.
    exists s', caps. split; [|done]. split; [by exists t | done].
  - destruct s as [|c s]; [done|]. destruct (p c) eqn:Hc; [|done].
    intros (t & s' & -> & Ht & Hk)%star_greedy_sound.
    exists s', caps. split; [|done]. split; [|done].
    exists (String c t). cbn. by rewrite Hc, Ht.
  - destruct s as [|c s]; [done|]. destruct (p c) eqn:Hc; [|done].
    intros (t & s' & -> & Ht & Hk)%star_lazy_sound.
    exists s', caps. split; [|done]. split; [|done].
    exists (String c t). cbn. by rewrite Hc, Ht.
  - intros [H|H]%or_else_inv.
    + destruct (IH _ _ _ _ H) as (s' & caps' & Hm & Hk).
      exists s', caps'. split; [by left | done].
    + exists s, caps. split; [by right | done].
  - intros H. destruct (IH1 _ _ _ _ H) as (s1 & caps1 & Hm1 & H2).
    destruct (IH2 _ _ _ _ H2) as (s' & caps' & Hm2 & Hk).
    exists s', caps'. split; [by exists s1, caps1 | done].
  - intros [H|H]%or_else_inv.
    + destruct (IH1 _ _ _ _ H) as (s' & caps' & Hm & Hk).
      exists s', caps'. split; [by left | done].
    + destruct (IH2 _ _ _ _ H) as (s' & caps' & Hm & Hk).
      exists s', caps'. split; [by right | done].
  - intros H. destruct (IH _ _ _ _ H) as (s' & caps1 & Hm & Hk).
    eexists s', _. split; [by exists caps1 | done].
  - destruct s; [|done]. intros Hk. by exists "", caps.
Qed.

Lemma match_here_sound (r : Regexp.syntax) (n : nat) (s : string)
  (m : list string) :
  Regexp.match_here r n s = Some m →
  ∃ s' caps',
    matches_prefix r s (replicate (S n) "") s' caps' ∧
    m = <[0%nat := Strings.take (Strings.length s - Strings.length s') s]>
          caps'.
Proof.
  unfold Regexp.match_here.
  intros (s' & caps' & Hm & [= <-])%run_sound. by exists s', caps'.
Qed.

Lemma FindAllStringSubmatch_sound (r : Regexp.syntax) (n : nat) (s : string)
  (m : list string) :
  m ∈ Regexp.FindAllStringSubmatch r n s →
  ∃ s0, Regexp.match_here r n s0 = Some m.
Proof.
  unfold Regexp.FindAllStringSubmatch. generalize 0%nat false.
  induction s as [|c s IH]; intros skip adj; simpl.
  - destruct skip; [|by intros ?%elem_of_nil].
    destruct (Regexp.match_here r n "") eqn:Hm; [|by intros ?%elem_of_nil].
    destruct adj; [by intros ?%elem_of_nil|].
    intros ->%list_elem_of_singleton. by exists "".
  - destruct skip; [|apply IH].
    destruct (Regexp.match_here r n (String c s)) eqn:Hm; [|apply IH].
    destruct (Regexp.matched_length l).
    + destruct adj; [apply IH|].
      intros [->|?]%elem_of_cons; [by eexists | by eapply IH].
    + intros [->|?]%elem_of_cons; [by eexists | by eapply IH].
Qed.

(** The groups of a raw row: a non-empty identifier without [}], a
    non-empty solution configuration without [.], a non-empty value without
    a line feed. *)
Lemma configMatches_groups (section : string) (m : list string) :
  m ∈ configMatches section →
  (sub m 1 ≠ "" ∧ all_chars (Regexp.non "}") (sub m 1) = true) ∧
  (sub m 2 ≠ "" ∧ all_chars (Regexp.non ".") (sub m 2) = true) ∧
  (sub m 3 ≠ "" ∧ all_chars Regexp.dot (sub m 3) = true).
Proof.
  intros (s0 & Hm)%FindAllStringSubmatch_sound.
  apply match_here_sound in Hm as (s' & caps' & Hm & ->).
  cbn [configRe Regexp.seq foldr matches_prefix] in Hm.
  destruct Hm as
    (s1 & c1 & [_ ->] & s2 & c2 & (c3 & [(t1 & -> & Ht1 & Hn1) ->] & ->)
     & s3 & c4 & [_ ->] & s4 & c5 & (c6 & [(t2 & -> & Ht2 & Hn2) ->] & ->)
     & s5 & c7 & [_ ->] & s6 & c8 & Hsuffix & s7 & c9 & [_ ->]
     & s8 & c10 & [_ ->] & s9 & c11 & [_ ->]
     & s10 & c12 & (c13 & [(t3 & -> & Ht3 & Hn3) ->] & ->)
     & s11 & c14 & Hend & _ & ->).
  assert (c8 = <[2%nat:=t2]> (<[1%nat:=t1]> (replicate 4 ""))) as ->.
  { rewrite !take_matched in Hsuffix. by destruct Hsuffix as [[_ ->]|[_ ->]]. }
  assert (c14 = <[3%nat:=t3]> (<[2%nat:=t2]> (<[1%nat:=t1]> (replicate 4 ""))))
    as ->.
  { rewrite !take_matched in Hend.
    destruct Hend as [(s12 & c15 & [[_ ->]|[_ ->]] & _ & ->) | (_ & _ & ->)];
      done. }
  cbn. done.
Qed.

(** The groups of a reference line: a non-empty path without a double
    quote and a non-empty identifier without [}]. *)
Lemma projectMatches_groups (content : string) (m : list string) :
  m ∈ projectMatches content →
  (sub m 1 ≠ "" ∧ all_chars (Regexp.non "034") (sub m 1) = true) ∧
  (sub m 2 ≠ "" ∧ all_chars (Regexp.non "}") (sub m 2) = true).
Proof.
  intros (s0 & Hm)%FindAllStringSubmatch_sound.
  apply match_here_sound in Hm as (s' & caps' & Hm & ->).
  cbn [projectRe Regexp.seq foldr matches_prefix] in Hm.
  destruct Hm as
    (s1 & c1 & [_ ->] & s2 & c2 & [_ ->] & s3 & c3 & [_ ->]
     & s4 & c4 & [_ ->] & s5 & c5 & [_ ->] & s6 & c6 & [_ ->]
     & s7 & c7 & [_ ->] & s8 & c8 & [_ ->] & s9 & c9 & [_ ->]
     & s10 & c10 & [_ ->] & s11 & c11 & [_ ->]
     & s12 & c12 & (c13 & [(t1 & -> & Ht1 & Hn1) ->] & ->)
     & s13 & c14 & [_ ->] & s14 & c15 & [_ ->] & s15 & c16 & [_ ->]
     & s16 & c17 & (c18 & [(t2 & -> & Ht2 & Hn2) ->] & ->)
     & s17 & c19 & [_ ->] & _ & ->).
  rewrite !take_matched. cbn. done.
Qed.

Lemma fold_rows_keys (ms : list (list string))
  (t : list ProjectConfigMapping) (r : ProjectConfigMapping) :
  r ∈ foldl addConfigMapping t ms →
  key r ∈ key <$> t ∨ ∃ m, m ∈ ms ∧ key r = rowKey m.
Proof.
  revert t. induction ms as [|m ms IH]; intros t Hr.
  - left. by apply list_elem_of_fmap_2.
  - cbn [foldl] in Hr. apply IH in Hr as [Hr | (m' & Hin & Hk)].
    + unfold addConfigMapping in Hr.
      destruct (4 <=? length m)%nat; [|by left].
      rewrite keys_addRow in Hr. apply elem_of_app in Hr as [Hr|Hr];
        [by left|].
      case_decide; [by apply elem_of_nil in Hr|].
      apply list_elem_of_singleton in Hr. right. exists m.
      split; [apply list_elem_of_here | done].
    + right. exists m'. split; [by apply list_elem_of_further | done].
Qed.

Lemma all_chars_Index (c : ascii) (s : string) :
  all_chars (Regexp.non c) s = true → Strings.Index s (String c "") = -1.
Proof. intros H. by apply Index_absent, all_chars_not_occurs. Qed.

Lemma all_chars_map_chars (p : ascii → bool) (f : ascii → ascii)
  (s : string) :
  (∀ x, p x = true → p (f x) = true) →
  all_chars p s = true → all_chars p (map_chars f s) = true.
Proof.
  intros Hf. induction s as [|c s IH]; [done|].
  cbn [all_chars map_chars]. intros [Hc Hs]%andb_true_iff.
  by rewrite Hf, IH.
Qed.

Lemma rawRows_groups (content : string) (m : list string) :
  m ∈ rawRows content →
  (sub m 1 ≠ "" ∧ all_chars (Regexp.non "}") (sub m 1) = true) ∧
  (sub m 2 ≠ "" ∧ all_chars (Regexp.non ".") (sub m 2) = true) ∧
  (sub m 3 ≠ "" ∧ all_chars Regexp.dot (sub m 3) = true).
Proof.
  unfold rawRows. destruct (_ || _); [by intros ?%elem_of_nil|].
  apply configMatches_groups.
Qed.

Section ModelShape.

Variable filepath_Abs : string -> string * option error.
Variable filepath_Dir : string -> string.
Variable filepath_Join : string -> string -> string.
Variable ReadFile : string -> result string.
Variable NewProject : string -> result Project.

Local Abbreviation NewSln' :=
  (NewSln filepath_Abs filepath_Dir filepath_Join ReadFile NewProject).

(** The two tables of a constructed model, as folds over the matches of
    the document. *)
Lemma constructed_tables order path sln :
  NewSln' order path = (sln, None) →
  ∃ content,
    ReadFile path = Ok content ∧
    ProjectGUIDs sln
    = foldl addProjectReference ∅ (projectMatches content) ∧
    ConfigMappings sln = foldl addConfigMapping [] (rawRows content).
Proof.
  intros (content & sln1 & Hread & Href & _ & Hload)%NewSln_success.
  destruct (loadProjects_frame filepath_Join NewProject order
              (parseConfigurationMappings content sln1).1) as (_ & Hg & Hm).
  rewrite Hload in Hg, Hm. cbn [fst] in Hg, Hm.
  destruct (parse_frame content sln1) as (_ & _ & Hg').
  pose proof (parseProjectReferences_table content
                (blank filepath_Abs filepath_Dir path)) as Ht.
  destruct (parseProjectReferences_frame content
              (blank filepath_Abs filepath_Dir path)) as (_ & _ & Hm').
  rewrite Href in Ht, Hm'. cbn [fst] in Ht, Hm'.
  exists content. split_and!; [done | |].
  - by rewrite Hg, Hg', Ht.
  - by rewrite Hm, parse_table, Hm'.
Qed.

(** Extra X13.  Every mapping row of a constructed model has a non-empty
    project identifier that holds no closing brace and a non-empty solution
    configuration that holds no dot. *)
Theorem mapping_rows_are_well_formed (order : list string) (path : string)
  (sln : Sln) (r : ProjectConfigMapping) :
  NewSln' order path = (sln, None) → r ∈ ConfigMappings sln →
  ProjectGUID r ≠ "" ∧ Strings.Index (ProjectGUID r) "}" = -1 ∧
  SolutionConfig r ≠ "" ∧ Strings.Index (SolutionConfig r) "." = -1.
Proof.
  intros (content & _ & _ & Ht)%constructed_tables Hr. rewrite Ht in Hr.
  apply fold_rows_keys in Hr as [Hr | (m & Hin & [= Hg Hc])];
    [by apply elem_of_nil in Hr|].
  destruct (rawRows_groups content m Hin) as ([? ?] & [? ?] & _).
  rewrite Hg, Hc. split_and!; [done | by apply all_chars_Index | done
                              | by apply all_chars_Index].
Qed.

(** Extra X14.  A solution configuration whose name holds a dot is never
    mapped: on a constructed model the path-keyed query answers it with the
    identity fallback for every registered path, whatever the document
    says. *)
Theorem dotted_configuration_is_never_mapped (order : list string)
  (path : string) (sln : Sln) (projectPath solutionConfig : string) :
  NewSln' order path = (sln, None) →
  is_Some (ProjectGUIDs sln !! projectPath) →
  occurs "." solutionConfig →
  GetProjectConfig sln projectPath solutionConfig = (solutionConfig, None).
Proof.
  intros Hnew [guid Hp] Hdot. unfold GetProjectConfig. rewrite Hp.
  destruct (list_find _ _) as [[i row]|] eqn:Hf; [|done].
  apply list_find_Some in Hf as (Hi & [_ Hc] & _).
  apply list_elem_of_lookup_2 in Hi.
  apply constructed_tables in Hnew as (content & _ & _ & Ht).
  rewrite Ht in Hi.
  apply fold_rows_keys in Hi as [Hi | (m & Hin & [= _ Hc'])];
    [by apply elem_of_nil in Hi|].
  destruct (rawRows_groups content m Hin) as (_ & [_ Hall] & _).
  apply all_chars_not_occurs in Hall. destruct Hall. congruence.
Qed.

(** Extra X15.  Every identifier in the reference table of a constructed
    model is non-empty and holds no closing brace, and no registered path
    holds a double quote. *)
Theorem registered_identifiers_are_well_formed (order : list string)
  (path : string) (sln : Sln) (p guid : string) :
  NewSln' order path = (sln, None) →
  ProjectGUIDs sln !! p = Some guid →
  guid ≠ "" ∧ Strings.Index guid "}" = -1 ∧ Strings.Index p dquote = -1.
Proof.
  intros (content & _ & Ht & _)%constructed_tables Hp. rewrite Ht in Hp.
  apply fold_references_lookup in Hp as [Hp | (m & Hin & _ & <- & <-)];
    [by destruct (lookup_empty_Some (M:=gmap string) p guid)|].
  destruct (projectMatches_groups content m Hin) as ([_ Hq] & [Hne Hb]).
  split_and!; [done | by apply all_chars_Index |].
  apply all_chars_Index. unfold storedPath. rewrite Replace_char by lia.
  apply all_chars_map_chars; [|done].
  intros x Hx. by destruct (Ascii.eqb _ x).
Qed.

End ModelShape.

(** Extra X13 on the row of the end-to-end example. *)
Lemma mapping_rows_are_well_formed_witness :
  let r := mkMapping "ABCD" "Debug|x64" "Debug|Win32" false in
  r ∈ ConfigMappings Fixture.app_model.1 ∧
  ProjectGUID r ≠ "" ∧ Strings.Index (ProjectGUID r) "}" = -1 ∧
  SolutionConfig r ≠ "" ∧ Strings.Index (SolutionConfig r) "." = -1.
Proof.
  assert (mkMapping "ABCD" "Debug|x64" "Debug|Win32" false
          ∈ ConfigMappings Fixture.app_model.1) as Hr
    by (vm_compute; apply list_elem_of_here).
  split; [exact Hr|].
  apply (mapping_rows_are_well_formed Filepath.Abs Filepath.Dir Filepath.Join
           Fixture.app_files Fixture.app_loader Fixture.app_order "app.sln"
           Fixture.app_model.1);
    [construction_by_evaluation | exact Hr].
Defined.

(** Extra X14 on a document whose only row names a dotted solution
    configuration: the row is not read, and the query falls back. *)
Lemma dotted_configuration_is_never_mapped_witness :
  GetProjectConfig Fixture2.dotted_model.1 "lib/app.vcxproj"
    "Release.Static|x64"
  = ("Release.Static|x64", None).
Proof.
  apply (dotted_configuration_is_never_mapped Filepath.Abs Filepath.Dir
           Filepath.Join Fixture2.dotted_files Fixture.app_loader
           Fixture.app_order "app.sln" Fixture2.dotted_model.1).
  - construction_by_evaluation.
  - exists "ABCD". vm_compute. reflexivity.
  - exists "Release", "Static|x64". vm_compute. reflexivity.
Defined.

(** Extra X15 on the reference of the end-to-end example. *)
Lemma registered_identifiers_are_well_formed_witness :
  ProjectGUIDs Fixture.app_model.1 !! "lib/app.vcxproj" = Some "ABCD" ∧
  "ABCD" ≠ "" ∧ Strings.Index "ABCD" "}" = -1 ∧
  Strings.Index "lib/app.vcxproj" dquote = -1.
Proof.
  assert (ProjectGUIDs Fixture.app_model.1 !! "lib/app.vcxproj"
          = Some "ABCD") as Hp by (vm_compute; reflexivity).
  split; [exact Hp|].
  apply (registered_identifiers_are_well_formed Filepath.Abs Filepath.Dir
           Filepath.Join Fixture.app_files Fixture.app_loader
           Fixture.app_order "app.sln" Fixture.app_model.1);
    [construction_by_evaluation | exact Hp].
Defined.

(** Extra X1 on the end-to-end example: each condition holds there, so the
    construction returns no error. *)
Lemma NewSln_succeeds_iff_witness : Fixture.app_model.2 = None.
Proof.
  unfold Fixture.app_model.
  apply (NewSln_succeeds_iff Filepath.Abs Filepath.Dir Filepath.Join
           Fixture.app_files Fixture.app_loader Fixture.app_order "app.sln").
  split; [vm_compute; reflexivity|]. exists Fixture.app_sln. split_and!.
  - vm_compute; reflexivity.
  - exists [ Fixture.quoted
               "Project('{8BC9CEB8-8B4A-11D0-8D11-00A0C91BC942}') = 'app', 'lib\app.vcxproj', '{ABCD}'";
             "lib\app.vcxproj"; "ABCD" ].
    split; [|vm_compute; reflexivity].
    apply (bool_decide_unpack _). vm_compute. exact I.
  - apply (parse_succeeds_iff Fixture.app_sln zero_Sln).
    vm_compute. reflexivity.
  - intros p ->%list_elem_of_singleton.
    exists (Fixture.app_project "/work/lib/app.vcxproj").
    vm_compute. reflexivity.
Defined.

(** Extra X8 on the model of the end-to-end example: its one project has
    data for the configuration its reference maps to. *)
Lemma generator_succeeds_iff_witness :
  (CompileCommandsJson Filepath.Join Fixture.sanitize Fixture.sanitize
     (λ _, Fixture.app_order) Fixture.app_model.1 "Debug|x64").2 = None.
Proof.
  apply (generator_succeeds_iff Filepath.Join Fixture.sanitize
           Fixture.sanitize (λ _, Fixture.app_order)
           Fixture.app_model.1 "Debug|x64").
  intros i pro Hi _.
  assert (ProjectList Fixture.app_model.1
          = [Fixture.app_project "/work/lib/app.vcxproj"]) as Hl
    by (vm_compute; reflexivity).
  rewrite Hl in Hi. destruct i as [|i]; [|discriminate Hi].
  injection Hi as <-.
  exists ("inc1;inc2", "FOO;BAR"). vm_compute. reflexivity.
Defined.

(** Extra X11 on the flag of definitions. *)
Lemma preappend_by_entries_witness :
  preappend "" "-D" = "-D" +:+ "" +:+ " " ∧
  preappend ("FOO" +:+ ";" +:+ "BAR;") "-D"
  = preappend "FOO" "-D" +:+ preappend "BAR;" "-D".
Proof.
  destruct (preappend_by_entries "-D") as [Hone Hjoin].
  split; [apply Hone; reflexivity | apply Hjoin].
Defined.
